(** * Best-effort JSON recovery: the repair-strategy pipeline

    A shallow embedding of [json_parser_optimized.py] and
    [json_parser_performance_optimized.py], the properties their
    specification states about them, and further properties of the
    code.

    Python values are modelled as follows.
    - A [str] is the list of its code points ([pystr]).
    - [str.strip], [str.startswith], [str.replace] and the five regular
      expressions of the source are written as the list functions they
      denote, scanning left to right as [re.sub] does.
    - The class of word characters ([\w]) is Python's: ASCII letters,
      digits and underscore, and above ASCII whatever the interpreter's
      Unicode database calls alphanumeric; that table is a parameter
      ([unicode_alnum]) of the development.
    - [json.loads] is the decoder of the standard library, embedded in
      module [Json] after its scanner; it raises [JSONDecodeError],
      [RecursionError] on nesting deeper than the interpreter allows, and
      [ValueError] on an integer literal of more digits than the
      interpreter converts. Both limits are parameters
      ([spare_depth], [int_max_str_digits]); the nesting allowed is taken
      to be the same at every call of the decoder.
    - [json.dumps], with its default arguments, is embedded in module
      [Dumps]; [repr] of a float is a parameter ([float_repr]).
    - Exceptions are values of [exn], all of them instances of Python's
      [Exception]; a computation that may raise returns [exc A].
    - A [float] is kept as the decimal value of the literal it was read
      from, without rounding: values that are equal here are equal in
      Python, and no statement below needs two floats to differ. *)

From Stdlib Require Import List ZArith NArith Lia Bool String Ascii.
From stdpp Require Import base option list gmap.
Import ListNotations.

#[local] Set Warnings "-register-all".
#[local] Open Scope N_scope.
#[local] Open Scope list_scope.

(** ** Strings *)

Definition pystr := list N.

(** An ASCII literal as a [str]. *)
Definition py (s : string) : pystr :=
  List.map N_of_ascii (list_ascii_of_string s).

(** JSON text as a [str]: a backquote in the literal stands for the
    double-quote character. *)
Definition jtext (s : string) : pystr :=
  List.map (fun c => if N.eqb c 96 then 34 else c) (py s).

Module Ch.
Definition tab : N := 9.
Definition lf : N := 10.
Definition cr : N := 13.
Definition space : N := 32.
Definition dquote : N := 34.
Definition squote : N := 39.
Definition plus : N := 43.
Definition comma : N := 44.
Definition minus : N := 45.
Definition dot : N := 46.
Definition slash : N := 47.
Definition colon : N := 58.
Definition lbracket : N := 91.
Definition backslash : N := 92.
Definition rbracket : N := 93.
Definition underscore : N := 95.
Definition lbrace : N := 123.
Definition rbrace : N := 125.
End Ch.

(** [str.isspace] on one code point (the interpreter's
    [Py_UNICODE_ISSPACE]); [str.strip] and the pattern [\s] both use it. *)
Definition isspace (c : N) : bool :=
  ((9 <=? c) && (c <=? 13)) || ((28 <=? c) && (c <=? 32))
  || (c =? 133) || (c =? 160) || (c =? 5760)
  || ((8192 <=? c) && (c <=? 8202))
  || (c =? 8232) || (c =? 8233) || (c =? 8239) || (c =? 8287)
  || (c =? 12288).

Definition is_digit (c : N) : bool := (48 <=? c) && (c <=? 57).

Definition ascii_alnum (c : N) : bool :=
  is_digit c || ((65 <=? c) && (c <=? 90)) || ((97 <=? c) && (c <=? 122)).

Fixpoint lstrip (s : pystr) : pystr :=
  match s with
  | c :: r => if isspace c then lstrip r else s
  | [] => []
  end.

Definition rstrip (s : pystr) : pystr := rev (lstrip (rev s)).

(** [s.strip()] *)
Definition strip (s : pystr) : pystr := rstrip (lstrip s).

(** Truth value of a [str]: non-empty. *)
Definition truthy (s : pystr) : bool :=
  match s with [] => false | _ => true end.

Definition starts_with_any (cs : list N) (s : pystr) : bool :=
  match s with
  | c :: _ => existsb (N.eqb c) cs
  | [] => false
  end.

Definition ends_with_any (cs : list N) (s : pystr) : bool :=
  starts_with_any cs (rev s).

(** [s.replace(a, b)] for one-character [a] and [b]. *)
Definition replace_char (a b : N) (s : pystr) : pystr :=
  List.map (fun c => if N.eqb c a then b else c) s.

Definition pystr_eqb (a b : pystr) : bool :=
  bool_decide (a = b).

(** ** The regular expressions of the source *)

(** [re.sub(r'[\n\t\r]', '', x)] *)
Definition remove_nl_tab_cr (x : pystr) : pystr :=
  List.filter (fun c => negb ((c =? Ch.lf) || (c =? Ch.tab) || (c =? Ch.cr))) x.

(** [re.sub(r'\s+', ' ', x)]: every maximal run of whitespace becomes one
    space. [in_run] tells that the previous character was whitespace. *)
Fixpoint collapse_ws_from (in_run : bool) (x : pystr) : pystr :=
  match x with
  | [] => []
  | c :: r =>
      if isspace c
      then (if in_run then collapse_ws_from true r
            else Ch.space :: collapse_ws_from true r)
      else c :: collapse_ws_from false r
  end.

Definition collapse_ws (x : pystr) : pystr := collapse_ws_from false x.

(** Length of a match of [\s*<close>] at the head of [x], if there is one. *)
Fixpoint match_ws_then (close : N) (x : pystr) : option nat :=
  match x with
  | [] => None
  | c :: r =>
      if c =? close then Some 1%nat
      else if isspace c then S <$> match_ws_then close r
      else None
  end.

(** [re.sub(r',\s*<close>', '<close>', x)]: leftmost matches, not
    overlapping. [skip] counts the characters of the current match that
    are still to be dropped. *)
Fixpoint sub_trailing_comma_from (close : N) (skip : nat) (x : pystr) : pystr :=
  match x with
  | [] => []
  | c :: r =>
      match skip with
      | S k => sub_trailing_comma_from close k r
      | O =>
          if c =? Ch.comma then
            match match_ws_then close r with
            | Some n => close :: sub_trailing_comma_from close n r
            | None => c :: sub_trailing_comma_from close 0 r
            end
          else c :: sub_trailing_comma_from close 0 r
      end
  end.

Definition sub_trailing_comma (close : N) (x : pystr) : pystr :=
  sub_trailing_comma_from close 0 x.

(** What the development takes from the interpreter that runs the
    code.
    - [unicode_alnum] is [str.isalnum] above ASCII, from the Unicode
      database.
    - The decoder raises [RecursionError] when arrays and objects are
      nested deeper than the interpreter allows; it allows
      [recursion_limit] levels, four at least, at each call of the
      decoder.
    - [int_max_str_digits] is [sys.get_int_max_str_digits()]: [0] for no
      limit, or the number of digits an integer literal may have; the
      interpreter applies it to literals of more than 640 digits.
    - [float_repr m e] is [repr] of the [float] nearest to [m * 10^e]. *)
Class Interpreter := {
  unicode_alnum : N -> bool;
  spare_depth : nat;
  int_max_str_digits : nat;
  float_repr : Z -> Z -> pystr
}.

Definition recursion_limit `{Interpreter} : nat := 4 + spare_depth.

(** The check of [PyLong_FromString] on the number of digits of a
    literal. *)
Definition exceeds_int_limit `{Interpreter} (digits : nat) : bool :=
  negb (digits <=? 640)%nat
  && negb (int_max_str_digits =? 0)%nat
  && (int_max_str_digits <? digits)%nat.

Section WordCharacters.

Context `{Interpreter}.

(** The class [\w] of a [str] pattern. *)
Definition is_word (c : N) : bool :=
  if c <? 128 then ascii_alnum c || (c =? Ch.underscore)
  else unicode_alnum c.

(** [re.sub(r'(\w+):', r'"\1":', x)]. [run] holds, reversed, the word
    characters read since the last character that is not one: the
    greedy [\w+] can only match from the start of such a run. *)
Fixpoint quote_keys_from (run : pystr) (x : pystr) : pystr :=
  match x with
  | [] => rev run
  | c :: r =>
      if is_word c then quote_keys_from (c :: run) r
      else if (c =? Ch.colon) && truthy run
      then Ch.dquote :: rev run ++ Ch.dquote :: Ch.colon :: quote_keys_from [] r
      else rev run ++ c :: quote_keys_from [] r
  end.

Definition quote_keys (x : pystr) : pystr := quote_keys_from [] x.

(** ** [repair_json] and [repair_json_fast] *)

Definition close_brackets (repaired : pystr) : pystr :=
  let repaired :=
    if negb (starts_with_any [Ch.lbrace; Ch.lbracket] repaired)
    then Ch.lbrace :: repaired else repaired in
  if negb (ends_with_any [Ch.rbrace; Ch.rbracket] repaired)
  then repaired ++ [Ch.rbrace] else repaired.

Definition repair_substitutions (json_str : pystr) : pystr :=
  let repaired := strip json_str in
  let repaired := sub_trailing_comma Ch.rbrace repaired in
  let repaired := sub_trailing_comma Ch.rbracket repaired in
  let repaired := quote_keys repaired in
  replace_char Ch.squote Ch.dquote repaired.

Definition repair_json (json_str : pystr) : pystr :=
  if negb (truthy json_str) then json_str
  else
    let repaired := repair_substitutions json_str in
    if negb (starts_with_any [Ch.lbrace; Ch.lbracket] repaired
             && ends_with_any [Ch.rbrace; Ch.rbracket] repaired)
    then close_brackets repaired
    else repaired.

Definition repair_json_fast (json_str : pystr) : pystr :=
  if negb (truthy json_str) then json_str
  else
    let repaired := repair_substitutions json_str in
    if truthy repaired
       && negb (starts_with_any [Ch.lbrace; Ch.lbracket] repaired
                && ends_with_any [Ch.rbrace; Ch.rbracket] repaired)
    then close_brackets repaired
    else repaired.

End WordCharacters.

(** ** Python values *)

Inductive float_const := NaN | PosInf | NegInf.

(** The values [json.loads] builds, and the inputs [parse] may be given.
    A [float] read from a literal is kept as that literal's decimal value
    [m * 10^e]; a [dict] lists its items in insertion order. *)
Inductive pyobj :=
| PNone
| PBool (b : bool)
| PInt (z : Z)
| PFloat (m e : Z)
| PFloatConst (c : float_const)
| PStr (s : pystr)
| PList (items : list pyobj)
| PDict (items : list (pystr * pyobj)).

(** [d[k] = v] *)
Fixpoint dict_set (k : pystr) (v : pyobj) (d : list (pystr * pyobj))
  : list (pystr * pyobj) :=
  match d with
  | [] => [(k, v)]
  | (k', v') :: r =>
      if pystr_eqb k k' then (k', v) :: r else (k', v') :: dict_set k v r
  end.

(** [x is not None] *)
Definition is_not_None (x : pyobj) : bool :=
  match x with PNone => false | _ => true end.

(** Induction on values, through the items of lists and mappings. *)
Section NestedInduction.

Variable P : pyobj -> Prop.
Hypothesis HNone : P PNone.
Hypothesis HBool : forall b, P (PBool b).
Hypothesis HInt : forall z, P (PInt z).
Hypothesis HFloat : forall m e, P (PFloat m e).
Hypothesis HConst : forall c, P (PFloatConst c).
Hypothesis HStr : forall s, P (PStr s).
Hypothesis HList : forall items, Forall P items -> P (PList items).
Hypothesis HDict :
  forall items, Forall (fun kv => P (snd kv)) items -> P (PDict items).

Fixpoint pyobj_nested_ind (x : pyobj) : P x :=
  match x with
  | PNone => HNone
  | PBool b => HBool b
  | PInt z => HInt z
  | PFloat m e => HFloat m e
  | PFloatConst c => HConst c
  | PStr s => HStr s
  | PList items =>
      HList items
        ((fix all (l : list pyobj) : Forall P l :=
            match l with
            | [] => @List.Forall_nil _ P
            | y :: r => @List.Forall_cons _ P y r (pyobj_nested_ind y) (all r)
            end) items)
  | PDict items =>
      HDict items
        ((fix all (l : list (pystr * pyobj)) : Forall (fun kv => P (snd kv)) l :=
            match l with
            | [] => @List.Forall_nil _ _
            | kv :: r => @List.Forall_cons _ _ kv r (pyobj_nested_ind (snd kv)) (all r)
            end) items)
  end.

End NestedInduction.

(** ** Exceptions *)

Inductive exn :=
| JSONDecodeError | ValueError | TypeError | AttributeError | RuntimeError
| RecursionError.

Inductive exc (A : Type) :=
| Ok (a : A)
| Raise (e : exn).
Arguments Ok {A} a.
Arguments Raise {A} e.

(** ** The standard decoder *)

Module Json.

Inductive scan_result (A : Type) :=
| Scanned (a : A) (rest : pystr)
| Raised (e : exn)
| OutOfFuel.
Arguments Scanned {A} a rest.
Arguments Raised {A} e.
Arguments OutOfFuel {A}.

Definition is_ws (c : N) : bool :=
  (c =? Ch.space) || (c =? Ch.tab) || (c =? Ch.lf) || (c =? Ch.cr).

Fixpoint skip_ws (s : pystr) : pystr :=
  match s with
  | c :: r => if is_ws c then skip_ws r else s
  | [] => []
  end.

Fixpoint strip_prefix (p s : pystr) : option pystr :=
  match p, s with
  | [], _ => Some s
  | a :: p', b :: s' => if a =? b then strip_prefix p' s' else None
  | _ :: _, [] => None
  end.

(** *** Strings *)

Definition hex_val (c : N) : option N :=
  if is_digit c then Some (c - 48)
  else if (97 <=? c) && (c <=? 102) then Some (c - 87)
  else if (65 <=? c) && (c <=? 70) then Some (c - 55)
  else None.

Definition hex4 (a b c d : N) : option N :=
  match hex_val a, hex_val b, hex_val c, hex_val d with
  | Some x, Some y, Some z, Some w => Some (((x * 16 + y) * 16 + z) * 16 + w)
  | _, _, _, _ => None
  end.

Definition is_high_surrogate (c : N) : bool := (55296 <=? c) && (c <=? 56319).
Definition is_low_surrogate (c : N) : bool := (56320 <=? c) && (c <=? 57343).
Definition join_surrogates (hi lo : N) : N :=
  65536 + N.lor (N.shiftl (hi - 55296) 10) (lo - 56320).

(** The character a one-letter escape stands for. *)
Definition unescape (e : N) : option N :=
  if e =? Ch.dquote then Some Ch.dquote
  else if e =? Ch.backslash then Some Ch.backslash
  else if e =? Ch.slash then Some Ch.slash
  else if e =? 98 then Some 8
  else if e =? 102 then Some 12
  else if e =? 110 then Some Ch.lf
  else if e =? 114 then Some Ch.cr
  else if e =? 116 then Some Ch.tab
  else None.

(** The text of a string up to its closing quote, and the text after
    that quote. A backslash takes the character after it along, so an
    escaped quote does not close the string. *)
Fixpoint split_string (s : pystr) : option (pystr * pystr) :=
  match s with
  | [] => None
  | c :: r =>
      if c =? Ch.dquote then Some ([], r)
      else if c =? Ch.backslash then
        match r with
        | [] => None
        | e :: r1 =>
            match split_string r1 with
            | Some (body, rest) => Some (c :: e :: body, rest)
            | None => None
            end
        end
      else
        match split_string r with
        | Some (body, rest) => Some (c :: body, rest)
        | None => None
        end
  end.

Definition cons_char (c : N) (r : option pystr) : option pystr :=
  match r with
  | Some str => Some (c :: str)
  | None => None
  end.

(** The characters a string body stands for, in strict mode: control
    characters are refused, an escape is replaced by its character, and
    a high surrogate escape followed by a low surrogate escape by the
    character the pair encodes. *)
Fixpoint decode_body (s : pystr) : option pystr :=
  match s with
  | [] => Some []
  | c :: r =>
      if c =? Ch.backslash then
        match r with
        | [] => None
        | e :: r1 =>
            if e =? 117 then
              match r1 with
              | h1 :: h2 :: h3 :: h4 :: r2 =>
                  match hex4 h1 h2 h3 h4 with
                  | None => None
                  | Some u =>
                      if is_high_surrogate u then
                        match r2 with
                        | b :: u' :: g1 :: g2 :: g3 :: g4 :: r3 =>
                            if (b =? Ch.backslash) && (u' =? 117) then
                              match hex4 g1 g2 g3 g4 with
                              | None => None
                              | Some u2 =>
                                  if is_low_surrogate u2
                                  then cons_char (join_surrogates u u2) (decode_body r3)
                                  else cons_char u (decode_body r2)
                              end
                            else cons_char u (decode_body r2)
                        | _ => cons_char u (decode_body r2)
                        end
                      else cons_char u (decode_body r2)
                  end
              | _ => None
              end
            else
              match unescape e with
              | Some x => cons_char x (decode_body r1)
              | None => None
              end
        end
      else if c <? 32 then None
      else cons_char c (decode_body r)
  end.

(** [scanstring], strict, from the character after the opening quote:
    the decoded string and the text after the closing quote. *)
Definition scanstring (s : pystr) : option (pystr * pystr) :=
  match split_string s with
  | Some (body, rest) =>
      match decode_body body with
      | Some str => Some (str, rest)
      | None => None
      end
  | None => None
  end.

(** *** Numbers *)

Fixpoint span_digits (s : pystr) : pystr * pystr :=
  match s with
  | c :: r =>
      if is_digit c then let (ds, rest) := span_digits r in (c :: ds, rest)
      else ([], s)
  | [] => ([], [])
  end.

Definition digits_value (ds : pystr) : N :=
  fold_left (fun acc d => acc * 10 + (d - 48)) ds 0.

Definition signed (neg : bool) (n : N) : Z :=
  if neg then (- Z.of_N n)%Z else Z.of_N n.

Definition read_sign (s : pystr) : bool * pystr :=
  match s with
  | c :: r => if c =? Ch.minus then (true, r) else (false, s)
  | [] => (false, s)
  end.

(** Integer digits: one [0], or a digit from 1 to 9 and all the digits
    after it. *)
Definition read_int_part (s : pystr) : option (pystr * pystr) :=
  match s with
  | c :: r =>
      if c =? 48 then Some ([c], r)
      else if is_digit c then let (ds, rest) := span_digits r in Some (c :: ds, rest)
      else None
  | [] => None
  end.

(** A dot followed by a digit starts the fraction. *)
Definition read_frac_part (s : pystr) : option pystr * pystr :=
  match s with
  | d :: ((f :: _) as r) =>
      if (d =? Ch.dot) && is_digit f
      then let (fs, rest) := span_digits r in (Some fs, rest)
      else (None, s)
  | _ => (None, s)
  end.

(** [e] or [E], an optional sign and at least one digit; otherwise the
    scanner backtracks to before the [e]. *)
Definition read_exp_part (s : pystr) : option Z * pystr :=
  match s with
  | e :: r =>
      if (e =? 101) || (e =? 69) then
        let '(neg, r1) :=
          match r with
          | c :: ((_ :: _) as r') =>
              if c =? Ch.minus then (true, r')
              else if c =? Ch.plus then (false, r')
              else (false, r)
          | _ => (false, r)
          end in
        match span_digits r1 with
        | (d :: ds, rest) => (Some (signed neg (digits_value (d :: ds))), rest)
        | ([], _) => (None, s)
        end
      else (None, s)
  | [] => (None, s)
  end.

Definition match_number (s : pystr) : option (pyobj * pystr) :=
  let (neg, s1) := read_sign s in
  match read_int_part s1 with
  | None => None
  | Some (ip, s2) =>
      let (frac, s3) := read_frac_part s2 in
      let (ex, s4) := read_exp_part s3 in
      match frac, ex with
      | None, None => Some (PInt (signed neg (digits_value ip)), s4)
      | _, _ =>
          let fs := default [] frac in
          Some (PFloat (signed neg (digits_value (ip ++ fs)))
                       (default 0%Z ex - Z.of_nat (length fs))%Z, s4)
      end
  end.

(** *** Values *)

Definition constants : list (string * pyobj) :=
  [ ("null", PNone); ("true", PBool true); ("false", PBool false);
    ("NaN", PFloatConst NaN); ("Infinity", PFloatConst PosInf);
    ("-Infinity", PFloatConst NegInf) ]%string.

Fixpoint match_constant (cs : list (string * pyobj)) (s : pystr)
  : option (pyobj * pystr) :=
  match cs with
  | [] => None
  | (lit, v) :: cs' =>
      match strip_prefix (py lit) s with
      | Some rest => Some (v, rest)
      | None => match_constant cs' s
      end
  end.

Definition of_option {A} (r : option (A * pystr)) : scan_result A :=
  match r with
  | Some (a, rest) => Scanned a rest
  | None => Raised JSONDecodeError
  end.

(** The digits of the integer literal read from [s] up to [rest]. *)
Definition int_digits (s rest : pystr) : nat :=
  length (snd (read_sign s)) - length rest.

Section Scanner.

Context `{Interpreter}.

(** The number at the head of [s]; an integer literal of too many digits
    is a [ValueError]. *)
Definition scan_number (s : pystr) : scan_result pyobj :=
  match match_number s with
  | Some (PInt z, rest) =>
      if exceeds_int_limit (int_digits s rest) then Raised ValueError
      else Scanned (PInt z) rest
  | r => of_option r
  end.

(** [scan_once], [_parse_object] and [_parse_array] of the scanner.
    The loops carry the container built so far. [depth] is the number of
    arrays and objects the interpreter still lets the scanner enter:
    entering one more is a [RecursionError]. [fuel] bounds the number of
    calls, and twice the length of the text is enough of it
    (see [scan_once_fuel]). *)
Fixpoint scan_once (fuel depth : nat) (s : pystr) : scan_result pyobj :=
  match fuel with
  | O => OutOfFuel
  | S n =>
      match s with
      | [] => Raised JSONDecodeError
      | c :: r =>
          if c =? Ch.dquote then
            match scanstring r with
            | Some (str, rest) => Scanned (PStr str) rest
            | None => Raised JSONDecodeError
            end
          else if c =? Ch.lbrace then
            match depth with
            | O => Raised RecursionError
            | S d =>
                match skip_ws r with
                | c' :: r' =>
                    if c' =? Ch.rbrace then Scanned (PDict []) r'
                    else object_loop n d [] (c' :: r')
                | [] => Raised JSONDecodeError
                end
            end
          else if c =? Ch.lbracket then
            match depth with
            | O => Raised RecursionError
            | S d =>
                match skip_ws r with
                | c' :: r' =>
                    if c' =? Ch.rbracket then Scanned (PList []) r'
                    else array_loop n d [] (c' :: r')
                | [] => Raised JSONDecodeError
                end
            end
          else
            match match_constant constants s with
            | Some (v, rest) => Scanned v rest
            | None => scan_number s
            end
      end
  end
with object_loop (fuel depth : nat) (acc : list (pystr * pyobj)) (s : pystr)
  : scan_result pyobj :=
  match fuel with
  | O => OutOfFuel
  | S n =>
      match s with
      | q :: r =>
          if q =? Ch.dquote then
            match scanstring r with
            | None => Raised JSONDecodeError
            | Some (key, r1) =>
                match skip_ws r1 with
                | c :: r2 =>
                    if c =? Ch.colon then
                      match scan_once n depth (skip_ws r2) with
                      | Scanned val r3 =>
                          let acc := dict_set key val acc in
                          match skip_ws r3 with
                          | d :: r4 =>
                              if d =? Ch.rbrace then Scanned (PDict acc) r4
                              else if d =? Ch.comma
                              then object_loop n depth acc (skip_ws r4)
                              else Raised JSONDecodeError
                          | [] => Raised JSONDecodeError
                          end
                      | Raised e => Raised e
                      | OutOfFuel => OutOfFuel
                      end
                    else Raised JSONDecodeError
                | [] => Raised JSONDecodeError
                end
            end
          else Raised JSONDecodeError
      | [] => Raised JSONDecodeError
      end
  end
with array_loop (fuel depth : nat) (acc : list pyobj) (s : pystr)
  : scan_result pyobj :=
  match fuel with
  | O => OutOfFuel
  | S n =>
      match scan_once n depth s with
      | Scanned val r1 =>
          let acc := acc ++ [val] in
          match skip_ws r1 with
          | d :: r2 =>
              if d =? Ch.rbracket then Scanned (PList acc) r2
              else if d =? Ch.comma then array_loop n depth acc (skip_ws r2)
              else Raised JSONDecodeError
          | [] => Raised JSONDecodeError
          end
      | Raised e => Raised e
      | OutOfFuel => OutOfFuel
      end
  end.

(** [json.loads(s)] for a [str]: whitespace, one value, whitespace, and
    nothing more. It raises [JSONDecodeError] on text that is not JSON,
    [RecursionError] on nesting deeper than the interpreter allows and
    [ValueError] on an integer literal of too many digits. *)
Definition loads (s : pystr) : exc pyobj :=
  match scan_once (S (2 * length s)) recursion_limit (skip_ws s) with
  | Scanned v rest =>
      match skip_ws rest with
      | [] => Ok v
      | _ :: _ => Raise JSONDecodeError
      end
  | Raised e => Raise e
  | OutOfFuel => Raise JSONDecodeError
  end.

End Scanner.

End Json.

(** ** Calls and exceptions

    A computation returns the calls it made to strategy transforms and
    to the decoder, in order, and its result or the exception it
    raised. *)

Inductive call :=
| CallTransform (position : nat)
| CallDecoder (text : pystr).

Definition M (A : Type) : Type := list call * exc A.

Definition ret {A} (a : A) : M A := ([], Ok a).

Definition bind {A B} (m : M A) (f : A -> M B) : M B :=
  match m with
  | (t, Ok a) => let (t', r) := f a in (t ++ t', r)
  | (t, Raise e) => (t, Raise e)
  end.

Definition lift {A} (r : exc A) : M A := ([], r).

Definition log (c : call) : M unit := ([c], Ok tt).

(** [try: m except <classes>: h] *)
Definition try_except {A} (m : M A) (classes : exn -> bool) (h : M A) : M A :=
  match m with
  | (t, Raise e) => if classes e then let (t', r) := h in (t ++ t', r) else m
  | (_, Ok _) => m
  end.

Notation "x <- m ;; k" := (bind m (fun x => k))
  (at level 100, m at next level, right associativity).
Notation "m ;;; k" := (bind m (fun _ => k))
  (at level 100, right associativity).

Definition calls {A} (m : M A) : list call := fst m.
Definition outcome {A} (m : M A) : exc A := snd m.

(** [except Exception] *)
Definition Exception (e : exn) : bool := true.

(** [except (json.JSONDecodeError, ValueError, TypeError)] *)
Definition decode_errors (e : exn) : bool :=
  match e with
  | JSONDecodeError | ValueError | TypeError => true
  | _ => false
  end.

Definition json_loads `{Interpreter} (s : pystr) : M pyobj :=
  log (CallDecoder s) ;;; lift (Json.loads s).

Definition empty_dict : pyobj := PDict [].

(** ** json_parser_optimized.py *)

Definition json_str_parser `{Interpreter} (json_str : pystr) : M pyobj :=
  try_except
    (if negb (truthy json_str) || negb (truthy (strip json_str))
     then ret PNone
     else json_loads (strip json_str))
    decode_errors
    (ret PNone).

Record JSONParsingStrategy := {
  name : pystr;
  processor : pystr -> exc pystr;
  description : pystr
}.

(** [JSONParsingStrategy.apply] *)
Definition apply (self : JSONParsingStrategy) (json_str : pystr) : M pystr :=
  try_except (lift (processor self json_str)) Exception (ret json_str).

Record JSONParserOptimized := {
  enable_logging : bool;
  _strategies : list JSONParsingStrategy
}.

Section Pipeline.

Context `{Interpreter}.

Definition builtin_strategies : list JSONParsingStrategy :=
  [ {| name := [21407; 22987; 35299; 26512];
       processor := fun x => Ok x;
       description := [30452; 25509; 35299; 26512; 21407; 22987; 23383; 31526; 20018] |};
    {| name := [28165; 29702; 31354; 30333];
       processor := fun x => Ok (remove_nl_tab_cr x);
       description := [31227; 38500; 25442; 34892; 31526; 12289; 21046; 34920;
                       31526; 21644; 22238; 36710; 31526] |};
    {| name := [20462; 22797; 21407; 22987];
       processor := fun x => Ok (repair_json x);
       description := [20351; 29992; 20462; 22797; 20989; 25968; 22788; 29702;
                       21407; 22987; 23383; 31526; 20018] |};
    {| name := [28165; 29702; 24182; 20462; 22797];
       processor := fun x => Ok (repair_json (remove_nl_tab_cr x));
       description := [20808; 28165; 29702; 31354; 30333; 20877; 20462; 22797] |};
    {| name := [28145; 24230; 28165; 29702];
       processor := fun x => Ok (strip (collapse_ws x));
       description := [21387; 32553; 25152; 26377; 36830; 32493; 31354; 30333;
                       20026; 21333; 20010; 31354; 26684] |};
    {| name := [28145; 24230; 20462; 22797];
       processor := fun x => Ok (repair_json (strip (collapse_ws x)));
       description := [28145; 24230; 28165; 29702; 21518; 20877; 20462; 22797] |} ].

(** [JSONParserOptimized.__init__] *)
Definition JSONParserOptimized_init (enable_logging : bool) : JSONParserOptimized :=
  {| enable_logging := enable_logging; _strategies := builtin_strategies |}.

(** One round of the loop of [parse]: the value to return, or [PNone]
    to go on with the next strategy. *)
Definition try_strategy (position : nat) (strategy : JSONParsingStrategy)
    (original_str : pystr) : M pyobj :=
  try_except
    (log (CallTransform position) ;;;
     processed_str <- apply strategy original_str ;;
     json_str_parser processed_str)
    Exception
    (ret PNone).

Fixpoint parse_loop (position : nat) (strategies : list JSONParsingStrategy)
    (original_str : pystr) : M pyobj :=
  match strategies with
  | [] => ret empty_dict
  | strategy :: rest =>
      result <- try_strategy position strategy original_str ;;
      if is_not_None result then ret result
      else parse_loop (S position) rest original_str
  end.

(** [JSONParserOptimized.parse] *)
Definition parse (self : JSONParserOptimized) (json_str : pyobj) : M pyobj :=
  match json_str with
  | PStr json_str =>
      if negb (truthy json_str) || negb (truthy (strip json_str))
      then ret empty_dict
      else parse_loop 0 (_strategies self) json_str
  | _ => ret empty_dict
  end.

(** [JSONParserOptimized.add_custom_strategy] *)
Definition add_custom_strategy (self : JSONParserOptimized)
    (name : pystr) (processor : pystr -> exc pystr) (description : pystr)
  : JSONParserOptimized :=
  let strategy :=
    {| name := name; processor := processor; description := description |} in
  {| enable_logging := enable_logging self;
     _strategies := _strategies self ++ [strategy] |}.

(** [JSONParserOptimized.get_strategies] *)
Definition get_strategies (self : JSONParserOptimized) : list pystr :=
  List.map name (_strategies self).

Definition json_str_parser_all (json_str : pyobj) (enable_logging : bool)
  : M pyobj :=
  parse (JSONParserOptimized_init enable_logging) json_str.

(** ** json_parser_performance_optimized.py *)

Definition json_str_parser_fast (json_str : pystr) : M pyobj :=
  if negb (truthy json_str) then ret PNone
  else
    try_except
      (let stripped := strip json_str in
       if truthy stripped then json_loads stripped else ret PNone)
      decode_errors
      (ret PNone).

(** [result = m; if result is not None: return result], then [k]. *)
Definition return_unless_None (m : M pyobj) (k : M pyobj) : M pyobj :=
  result <- m ;;
  if is_not_None result then ret result else k.

Definition json_str_parser_all_optimized (json_str : pyobj) : M pyobj :=
  match json_str with
  | PStr json_str =>
      if negb (truthy json_str) then ret empty_dict
      else
        return_unless_None (json_str_parser_fast json_str) (
        let cleaned_str := remove_nl_tab_cr json_str in
        return_unless_None
          (if negb (pystr_eqb cleaned_str json_str)
           then json_str_parser_fast cleaned_str else ret PNone) (
        return_unless_None
          (try_except
             (json_str_parser_fast (repair_json_fast json_str))
             Exception (ret PNone)) (
        return_unless_None
          (try_except
             (json_str_parser_fast (repair_json_fast cleaned_str))
             Exception (ret PNone)) (
        return_unless_None
          (try_except
             (let deep_cleaned := strip (collapse_ws json_str) in
              if negb (pystr_eqb deep_cleaned json_str) then
                return_unless_None (json_str_parser_fast deep_cleaned)
                  (json_str_parser_fast (repair_json_fast deep_cleaned))
              else ret PNone)
             Exception (ret PNone))
          (ret empty_dict)))))
  | _ => ret empty_dict
  end.

End Pipeline.

(** ** The memoization layer

    The cache hands out references to mutable containers, so it is run
    on a store: a [list] or [dict] lives at a location of the heap and a
    value refers to it. [store] builds a decoded value on the heap as
    fresh objects, [load] reads a value back. *)

Definition loc := nat.

Inductive val :=
| VNone
| VBool (b : bool)
| VInt (z : Z)
| VFloat (m e : Z)
| VFloatConst (c : float_const)
| VStr (s : pystr)
| VRef (l : loc).

Inductive obj :=
| OList (items : list val)
| ODict (items : list (pystr * val)).

Record state := {
  heap : list obj;
  _parse_cache : gmap pystr val
}.

Definition _cache_size_limit : nat := 1000.

Definition initial_state : state := {| heap := []; _parse_cache := ∅ |}.

Fixpoint store (x : pyobj) (h : list obj) : val * list obj :=
  match x with
  | PNone => (VNone, h)
  | PBool b => (VBool b, h)
  | PInt z => (VInt z, h)
  | PFloat m e => (VFloat m e, h)
  | PFloatConst c => (VFloatConst c, h)
  | PStr s => (VStr s, h)
  | PList items =>
      let '(vs, h') :=
        (fix store_items (items : list pyobj) (h : list obj) : list val * list obj :=
           match items with
           | [] => ([], h)
           | x :: r =>
               let '(v, h1) := store x h in
               let '(vs, h2) := store_items r h1 in
               (v :: vs, h2)
           end) items h in
      (VRef (length h'), h' ++ [OList vs])
  | PDict items =>
      let '(kvs, h') :=
        (fix store_pairs (items : list (pystr * pyobj)) (h : list obj)
           : list (pystr * val) * list obj :=
           match items with
           | [] => ([], h)
           | (k, x) :: r =>
               let '(v, h1) := store x h in
               let '(kvs, h2) := store_pairs r h1 in
               ((k, v) :: kvs, h2)
           end) items h in
      (VRef (length h'), h' ++ [ODict kvs])
  end.

Fixpoint load (fuel : nat) (h : list obj) (v : val) : option pyobj :=
  match fuel with
  | O => None
  | S n =>
      match v with
      | VNone => Some PNone
      | VBool b => Some (PBool b)
      | VInt z => Some (PInt z)
      | VFloat m e => Some (PFloat m e)
      | VFloatConst c => Some (PFloatConst c)
      | VStr s => Some (PStr s)
      | VRef l =>
          match h !! l with
          | Some (OList vs) => PList <$> mapM (load n h) vs
          | Some (ODict kvs) =>
              PDict <$> mapM (fun kv => pair (fst kv) <$> load n h (snd kv)) kvs
          | None => None
          end
      end
  end.

(** The value a reference denotes in a state. *)
Definition read (st : state) (v : val) : option pyobj :=
  load (S (length (heap st))) (heap st) v.

(** [x.copy()]: a new container with the same items; only [list] and
    [dict] have the method. *)
Definition copy (v : val) (h : list obj) : exc val * list obj :=
  match v with
  | VRef l =>
      match h !! l with
      | Some o => (Ok (VRef (length h)), h ++ [o])
      | None => (Raise RuntimeError, h)
      end
  | _ => (Raise AttributeError, h)
  end.

(** [x.append(item)] *)
Definition list_append (x item : val) (h : list obj) : exc unit * list obj :=
  match x with
  | VRef l =>
      match h !! l with
      | Some (OList vs) => (Ok tt, <[l := OList (vs ++ [item])]> h)
      | _ => (Raise AttributeError, h)
      end
  | _ => (Raise AttributeError, h)
  end.

Fixpoint items_set (k : pystr) (v : val) (d : list (pystr * val))
  : list (pystr * val) :=
  match d with
  | [] => [(k, v)]
  | (k', v') :: r =>
      if pystr_eqb k k' then (k', v) :: r else (k', v') :: items_set k v r
  end.

Fixpoint items_get (k : pystr) (d : list (pystr * val)) : option val :=
  match d with
  | [] => None
  | (k', v') :: r => if pystr_eqb k k' then Some v' else items_get k r
  end.

(** [x[k] = item] on a [dict] *)
Definition dict_setitem (x : val) (k : pystr) (item : val) (h : list obj)
  : exc unit * list obj :=
  match x with
  | VRef l =>
      match h !! l with
      | Some (ODict kvs) => (Ok tt, <[l := ODict (items_set k item kvs)]> h)
      | _ => (Raise TypeError, h)
      end
  | _ => (Raise TypeError, h)
  end.

(** [x[k]] on a [dict] *)
Definition dict_getitem (x : val) (k : pystr) (h : list obj) : option val :=
  match x with
  | VRef l =>
      match h !! l with
      | Some (ODict kvs) => items_get k kvs
      | _ => None
      end
  | _ => None
  end.

Section Cache.

Context `{Interpreter}.

Definition with_heap (st : state) (h : list obj) : state :=
  {| heap := h; _parse_cache := _parse_cache st |}.

Definition json_str_parser_all_cached (json_str : pyobj) (use_cache : bool)
    (st : state) : exc val * state :=
  match json_str with
  | PStr key =>
      match (if use_cache then _parse_cache st !! key else None) with
      | Some cached =>
          let '(r, h) := copy cached (heap st) in (r, with_heap st h)
      | None =>
          match outcome (json_str_parser_all_optimized json_str) with
          | Raise e => (Raise e, st)
          | Ok result =>
              let '(result, h) := store result (heap st) in
              if use_cache && bool_decide (size (_parse_cache st) < _cache_size_limit)%nat
              then
                match copy result h with
                | (Ok c, h') =>
                    (Ok result,
                     {| heap := h'; _parse_cache := <[key := c]> (_parse_cache st) |})
                | (Raise e, h') => (Raise e, with_heap st h')
                end
              else (Ok result, with_heap st h)
          end
      end
  | _ =>
      let '(v, h) := store empty_dict (heap st) in (Ok v, with_heap st h)
  end.

Definition clear_cache (st : state) : state :=
  {| heap := heap st; _parse_cache := ∅ |}.

(** The operations a client can run on the cache. *)
Inductive cache_op :=
| Cached (json_str : pyobj) (use_cache : bool)
| Clear.

Definition run_op (st : state) (op : cache_op) : state :=
  match op with
  | Cached json_str use_cache => snd (json_str_parser_all_cached json_str use_cache st)
  | Clear => clear_cache st
  end.

Definition run_ops (ops : list cache_op) (st : state) : state :=
  fold_left run_op ops st.

End Cache.

(** The invariant of the cache. *)
Definition cache_bounded (st : state) : Prop :=
  (size (_parse_cache st) <= _cache_size_limit)%nat.

Fixpoint store_items (items : list pyobj) (h : list obj) : list val * list obj :=
  match items with
  | [] => ([], h)
  | x :: r =>
      let '(v, h1) := store x h in
      let '(vs, h2) := store_items r h1 in
      (v :: vs, h2)
  end.

Fixpoint store_pairs (items : list (pystr * pyobj)) (h : list obj)
  : list (pystr * val) * list obj :=
  match items with
  | [] => ([], h)
  | (k, x) :: r =>
      let '(v, h1) := store x h in
      let '(kvs, h2) := store_pairs r h1 in
      ((k, v) :: kvs, h2)
  end.

(** Nesting depth of a value: the fuel [load] needs to read it. *)
Fixpoint depth (x : pyobj) : nat :=
  match x with
  | PList items => S (fold_right (fun x m => Nat.max (depth x) m) O items)
  | PDict items => S (fold_right (fun kv m => Nat.max (depth (snd kv)) m) O items)
  | _ => 1
  end.

(** A thousand cached calls, each with a key of its own (a string of one
    character): they fill the cache. *)
Definition filling_ops : list cache_op :=
  List.map (fun n => Cached (PStr [N.of_nat n + 1000]) true) (seq 0 1000).

(** What [store] promises for one value: the heap grows at its end,
    and the value reads back from any further extension of it. *)
Definition stores_well (x : pyobj) : Prop :=
  forall h v h', store x h = (v, h') ->
    exists ext, h' = h ++ ext
      /\ (depth x <= S (length ext))%nat
      /\ forall ext2 n, (depth x <= n)%nat -> load n (h' ++ ext2) v = Some x.

(** The value a call returned, read in the state it left. *)
Definition returned (r : exc val * state) : option pyobj :=
  match r with
  | (Ok v, st) => read st v
  | (Raise _, _) => None
  end.

(** A client that holds [handle] runs [handle[k].append(item)]. *)
Definition append_to_item (handle : val) (k : pystr) (item : val) (st : state)
  : state :=
  match dict_getitem handle k (heap st) with
  | Some inner => with_heap st (snd (list_append inner item (heap st)))
  | None => st
  end.

(** A client that holds [handle] runs [handle[k] = item]. *)
Definition set_item (handle : val) (k : pystr) (item : val) (st : state) : state :=
  with_heap st (snd (dict_setitem handle k item (heap st))).

(** ** Serialization

    [dumps] is the text [json.dumps] returns with its default
    arguments: items are separated by a comma and a space, a key from
    its value by a colon and a space, and in a string every character
    outside the printable ASCII range is escaped, a character above the
    basic plane as the two surrogates of its UTF-16 form. A float is
    written by [repr]. [json.dumps] raises on nesting deeper than the
    interpreter allows and on an integer of more digits than it
    converts; [dumps] is applied below to values within those limits. *)

Module Dumps.

Fixpoint digits_rev (fuel : nat) (n : N) : pystr :=
  match fuel with
  | O => []
  | S f =>
      (48 + n mod 10) :: (if n <? 10 then [] else digits_rev f (n / 10))
  end.

Definition digits_of_N (n : N) : pystr :=
  rev (digits_rev (S (N.to_nat (N.size n))) n).

Definition digits_of_Z (z : Z) : pystr :=
  if (z <? 0)%Z then Ch.minus :: digits_of_N (Z.abs_N z)
  else digits_of_N (Z.abs_N z).










End Dumps.

(** ** What one strategy computes

    The functions below say, without the bookkeeping of calls, what the
    decode-attempt wrapper and one round of the loop return; the lemmas
    of the next part prove that the code computes them. *)

(** The outcome of [json_str_parser(s)] and of [json_str_parser_fast(s)]:
    the decoded value, [None], or the exception of the decoder that the
    wrapper does not catch. *)
Definition decode_outcome `{Interpreter} (s : pystr) : exc pyobj :=
  if negb (truthy s) || negb (truthy (strip s)) then Ok PNone
  else match Json.loads (strip s) with
       | Ok v => Ok v
       | Raise e => if decode_errors e then Ok PNone else Raise e
       end.

(** The value of a decode attempt in a round that catches every
    exception: the decoded value, or [None]. *)
Definition decode_attempt `{Interpreter} (s : pystr) : pyobj :=
  if negb (truthy s) || negb (truthy (strip s)) then PNone
  else match Json.loads (strip s) with
       | Ok v => v
       | Raise _ => PNone
       end.

(** The calls [json_str_parser(s)] makes. *)
Definition decoder_calls (s : pystr) : list call :=
  if negb (truthy s) || negb (truthy (strip s)) then []
  else [CallDecoder (strip s)].

(** The text [strategy.apply(s)] returns. *)
Definition applied (strategy : JSONParsingStrategy) (s : pystr) : pystr :=
  match processor strategy s with
  | Ok t => t
  | Raise _ => s
  end.

(** The decode attempt of a strategy on [s]; it fails when it is [None]. *)
Definition attempt `{Interpreter} (strategy : JSONParsingStrategy) (s : pystr)
  : pyobj :=
  decode_attempt (applied strategy s).

Fixpoint first_success `{Interpreter} (strategies : list JSONParsingStrategy)
    (s : pystr) : option pyobj :=
  match strategies with
  | [] => None
  | strategy :: rest =>
      if is_not_None (attempt strategy s) then Some (attempt strategy s)
      else first_success rest s
  end.

Fixpoint loop_calls `{Interpreter} (position : nat)
    (strategies : list JSONParsingStrategy) (s : pystr) : list call :=
  match strategies with
  | [] => []
  | strategy :: rest =>
      CallTransform position :: decoder_calls (applied strategy s)
      ++ (if is_not_None (attempt strategy s) then []
          else loop_calls (S position) rest s)
  end.

(** How many strategies the loop of [parse] tries. *)
Fixpoint tried `{Interpreter} (strategies : list JSONParsingStrategy)
    (s : pystr) : nat :=
  match strategies with
  | [] => O
  | strategy :: rest =>
      S (if is_not_None (attempt strategy s) then O else tried rest s)
  end.

(** The positions of the strategies whose transform was called. *)
Fixpoint transform_positions (cs : list call) : list nat :=
  match cs with
  | [] => []
  | CallTransform p :: r => p :: transform_positions r
  | CallDecoder _ :: r => transform_positions r
  end.

Definition is_str (x : pyobj) : bool :=
  match x with PStr _ => true | _ => false end.

(** A [str] that is empty or holds whitespace only. *)
Definition blank (s : pystr) : bool := forallb isspace s.

(** Registering strategies one after the other. *)
Definition register_all `{Interpreter} (self : JSONParserOptimized)
    (customs : list JSONParsingStrategy) : JSONParserOptimized :=
  fold_left
    (fun p c => add_custom_strategy p (name c) (processor c) (description c))
    customs self.

(** ** What the decoder reads

    The notions the lemmas on [Json.scan_once] are stated with. *)

Import Json Dumps.

(** A character that may continue a number. *)
Definition number_char (c : N) : bool :=
  is_digit c || (c =? Ch.dot) || (c =? 101) || (c =? 69).

(** A text that cannot continue a number read before it: it is empty, or
    starts with a character that is not a digit, a dot or an [e]. *)
Definition stop_head (t : pystr) : Prop :=
  match t with
  | [] => True
  | c :: _ => number_char c = false
  end.

(** A text whose first and last characters are not whitespace. *)
Definition framed (b : pystr) : Prop :=
  exists h body l b', b = h :: body /\ b = b' ++ [l]
                      /\ isspace h = false /\ isspace l = false.

(** The first character of [t], if any, is not in the class [P]. *)
Definition hd_not (P : N -> bool) (t : pystr) : Prop :=
  match t with
  | [] => True
  | c :: _ => P c = false
  end.

Definition is_dot (c : N) : bool := c =? Ch.dot.
Definition is_e (c : N) : bool := (c =? 101) || (c =? 69).

Definition sign_text (neg : bool) : pystr := if neg then [Ch.minus] else [].


(** A text that does not start with JSON whitespace. *)
Definition nows (x : pystr) : Prop :=
  match x with
  | [] => True
  | c :: _ => is_ws c = false
  end.

(** [scan] reads [v] from the front of [s] and leaves [rest], and would
    read the same value in front of any other text that cannot continue a
    number. *)
Definition stable (scan : pystr -> scan_result pyobj) (s : pystr) (v : pyobj)
    (rest : pystr) : Prop :=
  exists consumed,
    s = consumed ++ rest /\ framed consumed
    /\ forall t, stop_head t -> scan (consumed ++ t) = Scanned v t.
















(** ** The other entry points *)

Section OtherEntryPoints.

Context `{Interpreter}.

(** The name and the description [json_str_parser_all_advanced] gives
    to the function it finds at index [i] of [custom_strategies]. *)
Definition custom_name (i : nat) : pystr :=
  [33258; 23450; 20041; 31574; 30053] ++ Dumps.digits_of_N (N.of_nat (i + 1)).

Definition custom_description (i : nat) : pystr :=
  [29992; 25143; 23450; 20041; 30340; 31532]
  ++ Dumps.digits_of_N (N.of_nat (i + 1))
  ++ [20010; 33258; 23450; 20041; 31574; 30053].

(** [for i, strategy_func in enumerate(custom_strategies): ...], from
    index [i] on. *)
Fixpoint add_custom_strategies (parser : JSONParserOptimized) (i : nat)
    (custom_strategies : list (pystr -> exc pystr)) : JSONParserOptimized :=
  match custom_strategies with
  | [] => parser
  | strategy_func :: rest =>
      add_custom_strategies
        (add_custom_strategy parser (custom_name i) strategy_func
           (custom_description i))
        (S i) rest
  end.

(** [json_str_parser_all_advanced]; [custom_strategies] is [None] or a
    list of functions. *)
Definition json_str_parser_all_advanced (json_str : pyobj)
    (custom_strategies : option (list (pystr -> exc pystr)))
    (enable_logging : bool) : M pyobj :=
  let parser := JSONParserOptimized_init enable_logging in
  let parser :=
    match custom_strategies with
    | Some ((_ :: _) as functions) => add_custom_strategies parser 0 functions
    | Some [] | None => parser
    end in
  parse parser json_str.

(** The steps of [json_str_parser_all_refactored]. *)
Definition steps : list (pystr -> exc pystr) :=
  [ fun x => Ok x;
    fun x => Ok (remove_nl_tab_cr x);
    fun x => Ok (repair_json_fast x);
    fun x => Ok (repair_json_fast (remove_nl_tab_cr x)) ].

(** The loop of [json_str_parser_all_refactored]: a step that raises is
    passed over. *)
Fixpoint steps_loop (steps : list (pystr -> exc pystr)) (json_str : pystr)
  : M pyobj :=
  match steps with
  | [] => ret empty_dict
  | processor :: rest =>
      result <- try_except
                  (processed_str <- lift (processor json_str) ;;
                   json_str_parser_fast processed_str)
                  Exception (ret PNone) ;;
      if is_not_None result then ret result
      else steps_loop rest json_str
  end.

Definition json_str_parser_all_refactored (json_str : pyobj) : M pyobj :=
  match json_str with
  | PStr json_str => steps_loop steps json_str
  | _ => ret empty_dict
  end.

End OtherEntryPoints.

(** A text that starts with an opening brace or bracket and ends with
    a closing one. *)
Definition wrapped (s : pystr) : bool :=
  starts_with_any [Ch.lbrace; Ch.lbracket] s
  && ends_with_any [Ch.rbrace; Ch.rbracket] s.

(** The strategies [json_str_parser_all_advanced] registers for the
    functions it is given, the first at index [i]. *)
Fixpoint numbered (i : nat) (functions : list (pystr -> exc pystr))
  : list JSONParsingStrategy :=
  match functions with
  | [] => []
  | f :: rest =>
      {| name := custom_name i; processor := f;
         description := custom_description i |} :: numbered (S i) rest
  end.

(** A step of the refactored pipeline, seen as a strategy. *)
Definition step_strategy (f : pystr -> exc pystr) : JSONParsingStrategy :=
  {| name := []; processor := f; description := [] |}.

(** A [list] or a [dict]: the values that have a [copy] method. *)
Definition is_container (x : pyobj) : bool :=
  match x with PList _ | PDict _ => true | _ => false end.

(** Every cached value is a reference to an object of the heap. *)
Definition cache_live (st : state) : Prop :=
  forall key c, _parse_cache st !! key = Some c ->
    exists l o, c = VRef l /\ heap st !! l = Some o.

(** How many calls of the decoder a trace holds. *)
Fixpoint decoder_count (cs : list call) : nat :=
  match cs with
  | [] => O
  | CallDecoder _ :: r => S (decoder_count r)
  | CallTransform _ :: r => decoder_count r
  end.

(** In [x], whitespace is single spaces: every whitespace character is a
    space and follows a character that is not whitespace. [in_run]
    tells that the character before [x] was whitespace. *)
Fixpoint spaced_from (in_run : bool) (x : pystr) : bool :=
  match x with
  | [] => true
  | c :: r =>
      if isspace c then (c =? Ch.space) && negb in_run && spaced_from true r
      else spaced_from false r
  end.

(** A value that refers to no object at location [a] or after it. *)
Definition val_below (a : loc) (v : val) : Prop :=
  match v with
  | VRef b => (b < a)%nat
  | _ => True
  end.

Definition obj_below (a : loc) (o : obj) : Prop :=
  match o with
  | OList vs => Forall (val_below a) vs
  | ODict kvs => Forall (fun kv => val_below a (snd kv)) kvs
  end.

(** A heap in which every object refers only to objects allocated
    before it: what [store] and [copy] build. *)
Definition backward (h : list obj) : Prop :=
  forall a o, h !! a = Some o -> obj_below a o.

(** A client that holds [handle] runs [handle.append(item)]. *)
Definition append_item (handle item : val) (st : state) : state :=
  with_heap st (snd (list_append handle item (heap st))).

(** What [load] reads, with fuel [n], from the items of an object. *)
Definition read_items (n : nat) (h : list obj) (o : obj) : option pyobj :=
  match o with
  | OList vs => PList <$> mapM (load n h) vs
  | ODict kvs => PDict <$> mapM (fun kv => pair (fst kv) <$> load n h (snd kv)) kvs
  end.

(** A character the repair transform may remove, add or change:
    whitespace, a comma, a quote of either kind. *)
Definition is_punctuation (c : N) : bool :=
  isspace c || (c =? Ch.comma) || (c =? Ch.dquote) || (c =? Ch.squote).

(** The characters of a text that are not punctuation, in order. *)
Definition content (s : pystr) : pystr :=
  List.filter (fun c => negb (is_punctuation c)) s.

(** [n] opening brackets. *)
Definition brackets (n : nat) : pystr := replicate n Ch.lbracket.

(** An interpreter to run the pipelines on ASCII text: its Unicode
    table has no alphanumeric character above ASCII, its decoder enters a
    thousand nested arrays and objects, it converts integer literals of
    4300 digits at most, and it writes a float as its decimal mantissa
    and exponent. *)
#[local] Instance ascii_words : Interpreter :=
  {| unicode_alnum := fun _ => false;
     spare_depth := 996;
     int_max_str_digits := 4300;
     float_repr := fun m e => Dumps.digits_of_Z m ++ 101 :: Dumps.digits_of_Z e |}.

(** Two strategies a caller may register: one whose transform raises,
    one whose transform returns a fixed text. *)
Definition raising_strategy : JSONParsingStrategy :=
  {| name := py "raising"; processor := fun _ => Raise RuntimeError;
     description := [] |}.

Definition constant_strategy (text : pystr) : JSONParsingStrategy :=
  {| name := py "constant"; processor := fun _ => Ok text; description := [] |}.

(** * Properties *)

Section CallsAndResults.

Context `{Interpreter}.

Lemma json_str_parser_spec (s : pystr) :
  json_str_parser s = (decoder_calls s, decode_outcome s).
Proof.
  unfold json_str_parser, decoder_calls, decode_outcome.
  destruct (negb (truthy s) || negb (truthy (strip s))); [reflexivity|].
  unfold json_loads, bind, log, lift, try_except.
  destruct (Json.loads (strip s)) as [v|e]; [reflexivity|].
  destruct (decode_errors e); reflexivity.
Qed.

(** In a round that catches every exception, an exception of the
    decoder counts as [None]. *)
Lemma decode_attempt_outcome (s : pystr) :
  decode_attempt s
  = match decode_outcome s with Ok v => v | Raise _ => PNone end.
Proof.
  unfold decode_attempt, decode_outcome.
  destruct (negb (truthy s) || negb (truthy (strip s))); [reflexivity|].
  destruct (Json.loads (strip s)) as [v|e]; [reflexivity|].
  destruct (decode_errors e); reflexivity.
Qed.

Lemma decode_outcome_Raise (s : pystr) (e : exn) :
  decode_outcome s = Raise e -> decode_attempt s = PNone.
Proof. intros E. rewrite decode_attempt_outcome, E. reflexivity. Qed.

(** A decode attempt under [except Exception]. *)
Lemma json_str_parser_guarded (s : pystr) :
  try_except (json_str_parser s) Exception (ret PNone)
  = (decoder_calls s, Ok (decode_attempt s)).
Proof.
  rewrite json_str_parser_spec, decode_attempt_outcome.
  unfold try_except, Exception, ret.
  destruct (decode_outcome s); [reflexivity|].
  rewrite app_nil_r. reflexivity.
Qed.

Lemma truthy_strip_false (s : pystr) : truthy s = false -> truthy (strip s) = false.
Proof. destruct s; [reflexivity | discriminate]. Qed.

Lemma json_str_parser_fast_spec (s : pystr) :
  json_str_parser_fast s = json_str_parser s.
Proof.
  unfold json_str_parser_fast, json_str_parser.
  destruct (truthy s) eqn:Hs; simpl; [|reflexivity].
  destruct (truthy (strip s)); reflexivity.
Qed.

Lemma apply_spec (st : JSONParsingStrategy) (s : pystr) :
  apply st s = ([], Ok (applied st s)).
Proof.
  unfold apply, applied, try_except, lift.
  destruct (processor st s); reflexivity.
Qed.

Lemma try_strategy_spec (i : nat) (st : JSONParsingStrategy) (s : pystr) :
  try_strategy i st s
  = (CallTransform i :: decoder_calls (applied st s), Ok (attempt st s)).
Proof.
  unfold try_strategy, attempt.
  rewrite apply_spec. simpl.
  rewrite json_str_parser_spec, decode_attempt_outcome.
  destruct (decode_outcome (applied st s)); simpl; rewrite ?app_nil_r; reflexivity.
Qed.

Lemma parse_loop_spec (sts : list JSONParsingStrategy) (s : pystr) :
  forall i,
    parse_loop i sts s
    = (loop_calls i sts s, Ok (default empty_dict (first_success sts s))).
Proof.
  induction sts as [|st sts IH]; intros i; simpl; [reflexivity|].
  rewrite try_strategy_spec. simpl.
  destruct (is_not_None (attempt st s)) eqn:E.
  - simpl. rewrite !app_nil_r. reflexivity.
  - rewrite IH. reflexivity.
Qed.

End CallsAndResults.

(** ** Input validation *)

Section InputValidation.

Context `{Interpreter}.

Lemma lstrip_blank (s : pystr) : blank s = true -> lstrip s = [].
Proof.
  induction s as [|c r IH]; simpl; [reflexivity|].
  intros Hb. apply andb_prop in Hb as [Hc Hr]. rewrite Hc. auto.
Qed.

Lemma strip_blank (s : pystr) : blank s = true -> strip s = [].
Proof. intros Hb. unfold strip. rewrite lstrip_blank by assumption. reflexivity. Qed.

Lemma json_str_parser_blank (s : pystr) :
  blank s = true -> json_str_parser s = ret PNone.
Proof.
  intros Hb. rewrite json_str_parser_spec.
  unfold decoder_calls, decode_outcome. rewrite (strip_blank s Hb).
  simpl. rewrite orb_true_r. reflexivity.
Qed.

Lemma remove_nl_tab_cr_blank (s : pystr) :
  blank s = true -> blank (remove_nl_tab_cr s) = true.
Proof.
  unfold blank, remove_nl_tab_cr.
  induction s as [|c r IH]; simpl; [reflexivity|].
  intros Hb. apply andb_prop in Hb as [Hc Hr].
  destruct (negb _); simpl; [rewrite Hc|]; auto.
Qed.

Lemma collapse_ws_blank (s : pystr) :
  blank s = true -> forall b, blank (collapse_ws_from b s) = true.
Proof.
  unfold blank.
  induction s as [|c r IH]; simpl; [reflexivity|].
  intros Hb b. apply andb_prop in Hb as [Hc Hr]. rewrite Hc.
  destruct b; simpl; auto.
Qed.

Lemma repair_substitutions_blank (s : pystr) :
  blank s = true -> repair_substitutions s = [].
Proof.
  intros Hb. unfold repair_substitutions. rewrite (strip_blank s Hb). reflexivity.
Qed.

Lemma repair_json_fast_blank (s : pystr) :
  blank s = true -> blank (repair_json_fast s) = true.
Proof.
  intros Hb. unfold repair_json_fast.
  destruct (negb (truthy s)); [assumption|].
  rewrite (repair_substitutions_blank s Hb). reflexivity.
Qed.

Lemma json_str_parser_all_optimized_blank (s : pystr) :
  blank s = true -> json_str_parser_all_optimized (PStr s) = ret empty_dict.
Proof.
  intros Hb. unfold json_str_parser_all_optimized.
  destruct (negb (truthy s)); [reflexivity|].
  assert (Hc : blank (remove_nl_tab_cr s) = true)
    by (apply remove_nl_tab_cr_blank; assumption).
  assert (Hd : blank (strip (collapse_ws s)) = true).
  { rewrite strip_blank; [reflexivity|]. apply collapse_ws_blank. assumption. }
  rewrite !json_str_parser_fast_spec.
  rewrite (json_str_parser_blank s Hb).
  rewrite (json_str_parser_blank _ (repair_json_fast_blank _ Hb)).
  rewrite (json_str_parser_blank _ (repair_json_fast_blank _ Hc)).
  rewrite (json_str_parser_blank _ Hd).
  rewrite (json_str_parser_blank _ (repair_json_fast_blank _ Hd)).
  rewrite (json_str_parser_blank _ Hc).
  destruct (negb (pystr_eqb (remove_nl_tab_cr s) s));
    destruct (negb (pystr_eqb (strip (collapse_ws s)) s)); reflexivity.
Qed.

Lemma parse_blank (self : JSONParserOptimized) (s : pystr) :
  blank s = true -> parse self (PStr s) = ret empty_dict.
Proof.
  intros Hb. unfold parse. rewrite (strip_blank s Hb). simpl.
  rewrite orb_true_r. reflexivity.
Qed.

(** C8. An input that is not a string, or a string that is empty or
    holds only whitespace, makes [parse] return the empty mapping with
    no call to a strategy transform or to the decoder; the inlined
    pipeline returns the empty mapping on it too, without a call to the
    decoder. *)
Theorem parse_rejects_non_text_and_blank
    (self : JSONParserOptimized) (json_str : pyobj)
    (Hin : match json_str with PStr s => blank s = true | _ => True end) :
  parse self json_str = ([], Ok empty_dict)
  /\ json_str_parser_all_optimized json_str = ([], Ok empty_dict).
Proof.
  destruct json_str as [| | | | |s| |]; try (split; reflexivity).
  split.
  - apply parse_blank. assumption.
  - apply json_str_parser_all_optimized_blank. assumption.
Qed.

End InputValidation.

Lemma parse_rejects_non_text_and_blank_witness :
  (parse (JSONParserOptimized_init false) PNone = ([], Ok empty_dict)
   /\ json_str_parser_all_optimized PNone = ([], Ok empty_dict))
  /\ (parse (JSONParserOptimized_init false) (PInt 123) = ([], Ok empty_dict)
      /\ json_str_parser_all_optimized (PInt 123) = ([], Ok empty_dict))
  /\ (parse (JSONParserOptimized_init false) (PStr []) = ([], Ok empty_dict)
      /\ json_str_parser_all_optimized (PStr []) = ([], Ok empty_dict))
  /\ (parse (JSONParserOptimized_init false) (PStr [Ch.space; Ch.lf; Ch.tab])
        = ([], Ok empty_dict)
      /\ json_str_parser_all_optimized (PStr [Ch.space; Ch.lf; Ch.tab])
        = ([], Ok empty_dict)).
Proof.
  split; [|split; [|split]].
  - apply (parse_rejects_non_text_and_blank (JSONParserOptimized_init false) PNone).
    exact I.
  - apply (parse_rejects_non_text_and_blank (JSONParserOptimized_init false) (PInt 123)).
    exact I.
  - apply (parse_rejects_non_text_and_blank (JSONParserOptimized_init false) (PStr [])).
    reflexivity.
  - apply (parse_rejects_non_text_and_blank (JSONParserOptimized_init false)
             (PStr [Ch.space; Ch.lf; Ch.tab])).
    reflexivity.
Defined.

(** ** The worked repair *)

Section WorkedRepair.

Context `{Interpreter}.

(** C5. On ["a: 1"] the direct and the whitespace-stripped strategies
    fail to decode; the repair transform quotes the bare key, puts an
    opening brace before and a closing brace after, and the text it
    gives decodes to the mapping of ["a"] to 1, which [parse] returns. *)
Theorem parse_repairs_bare_key (enable_logging : bool) :
  let self := JSONParserOptimized_init enable_logging in
  let input := py "a: 1" in
  decode_attempt input = PNone
  /\ remove_nl_tab_cr input = input
  /\ quote_keys input = jtext "`a`: 1"
  /\ repair_json input = jtext "{`a`: 1}"
  /\ repair_json_fast input = jtext "{`a`: 1}"
  /\ parse self (PStr input)
     = ([CallTransform 0; CallDecoder input;
         CallTransform 1; CallDecoder input;
         CallTransform 2; CallDecoder (jtext "{`a`: 1}")],
        Ok (PDict [(py "a", PInt 1)]))
  /\ outcome (json_str_parser_all_optimized (PStr input))
     = Ok (PDict [(py "a", PInt 1)]).
Proof.
  repeat split; vm_compute; reflexivity.
Qed.

End WorkedRepair.

(** ** The order of the strategies *)

Section StrategyOrder.

Context `{Interpreter}.

Lemma transform_positions_app (a b : list call) :
  transform_positions (a ++ b) = transform_positions a ++ transform_positions b.
Proof.
  induction a as [|[p|t] a IH]; simpl; [reflexivity| |assumption].
  rewrite IH. reflexivity.
Qed.

Lemma transform_positions_decoder_calls (s : pystr) :
  transform_positions (decoder_calls s) = [].
Proof. unfold decoder_calls. destruct (_ || _); reflexivity. Qed.

Lemma transform_positions_loop (sts : list JSONParsingStrategy) (s : pystr) :
  forall i, transform_positions (loop_calls i sts s) = seq i (tried sts s).
Proof.
  induction sts as [|st sts IH]; intros i; simpl; [reflexivity|].
  rewrite transform_positions_app, transform_positions_decoder_calls. simpl.
  destruct (is_not_None (attempt st s)); [reflexivity|].
  rewrite IH. reflexivity.
Qed.

Lemma In_transform_positions (p : nat) (cs : list call) :
  In (CallTransform p) cs <-> In p (transform_positions cs).
Proof.
  induction cs as [|[q|t] cs IH]; simpl.
  - tauto.
  - rewrite <- IH. split; intros [E|E]; auto; left; congruence.
  - rewrite <- IH. split; [intros [E|E]; [discriminate|assumption] | auto].
Qed.

(** A strategy is tried only after every strategy before it failed. *)
Lemma tried_after_failures (sts : list JSONParsingStrategy) (s : pystr) :
  forall k, (k < tried sts s)%nat ->
    forall j st, (j < k)%nat -> sts !! j = Some st -> attempt st s = PNone.
Proof.
  induction sts as [|st0 sts IH]; simpl; intros k Hk j st Hj Hst; [lia|].
  destruct (is_not_None (attempt st0 s)) eqn:E; [lia|].
  destruct j as [|j]; simpl in Hst.
  - injection Hst as <-. destruct (attempt st0 s); try discriminate. reflexivity.
  - destruct k as [|k]; [lia|]. eapply (IH k); eauto; lia.
Qed.

Lemma first_success_at (sts : list JSONParsingStrategy) (s : pystr) :
  forall k st,
    sts !! k = Some st ->
    (forall j st', (j < k)%nat -> sts !! j = Some st' -> attempt st' s = PNone) ->
    first_success sts s
    = if is_not_None (attempt st s) then Some (attempt st s)
      else first_success (drop (S k) sts) s.
Proof.
  induction sts as [|st0 sts IH]; intros k st Hst Hprev; [discriminate|].
  destruct k as [|k]; simpl in *.
  - injection Hst as <-. reflexivity.
  - rewrite (Hprev O st0) by (simpl; auto; lia). simpl.
    apply IH; [assumption|].
    intros j st' Hj Hj'. apply (Hprev (S j)); [lia | exact Hj'].
Qed.

Lemma first_success_all_fail (sts : list JSONParsingStrategy) (s : pystr) :
  (forall st, In st sts -> attempt st s = PNone) -> first_success sts s = None.
Proof.
  induction sts as [|st sts IH]; simpl; intros Hall; [reflexivity|].
  rewrite (Hall st) by auto. simpl. auto.
Qed.

Lemma strategies_add_custom_strategy (self : JSONParserOptimized) n p d :
  _strategies (add_custom_strategy self n p d)
  = _strategies self ++ [ {| name := n; processor := p; description := d |} ].
Proof. reflexivity. Qed.

Lemma strategies_register_all (customs : list JSONParsingStrategy) :
  forall self,
    _strategies (register_all self customs) = _strategies self ++ customs.
Proof.
  unfold register_all.
  induction customs as [|c customs IH]; intros self; simpl.
  - rewrite app_nil_r. reflexivity.
  - rewrite IH. simpl. rewrite <- app_assoc. destruct c. reflexivity.
Qed.

Lemma calls_parse (self : JSONParserOptimized) (s : pystr) (p : nat) :
  In (CallTransform p) (calls (parse self (PStr s))) ->
  (p < tried (_strategies self) s)%nat.
Proof.
  unfold parse.
  destruct (_ || _); [intros []|].
  rewrite parse_loop_spec. unfold calls; simpl.
  rewrite In_transform_positions, transform_positions_loop, in_seq. lia.
Qed.

Lemma outcome_parse (self : JSONParserOptimized) (s : pystr) (p : nat) :
  In (CallTransform p) (calls (parse self (PStr s))) ->
  outcome (parse self (PStr s))
  = Ok (default empty_dict (first_success (_strategies self) s)).
Proof.
  unfold parse.
  destruct (_ || _); [intros []|].
  rewrite parse_loop_spec. reflexivity.
Qed.

(** A strategy is tried when every strategy before it failed. *)
Lemma tried_reaches (sts : list JSONParsingStrategy) (s : pystr) :
  forall k st,
    sts !! k = Some st ->
    (forall j st', (j < k)%nat -> sts !! j = Some st' -> attempt st' s = PNone) ->
    (k < tried sts s)%nat.
Proof.
  induction sts as [|st0 sts IH]; intros k st Hst Hprev; [discriminate|].
  destruct k as [|k]; simpl in *; [lia|].
  rewrite (Hprev O st0) by (simpl; auto; lia). simpl.
  apply -> Nat.succ_lt_mono. apply (IH k st Hst).
  intros j st' Hj Hj'. apply (Hprev (S j)); [lia | exact Hj'].
Qed.

(** [parse] on a string that does not strip to nothing. *)
Lemma parse_stripped (self : JSONParserOptimized) (s : pystr) :
  truthy (strip s) = true ->
  parse self (PStr s)
  = (loop_calls 0 (_strategies self) s,
     Ok (default empty_dict (first_success (_strategies self) s))).
Proof.
  intros Hs. unfold parse. rewrite Hs.
  destruct (truthy s) eqn:Ht;
    [|rewrite (truthy_strip_false s Ht) in Hs; discriminate].
  apply parse_loop_spec.
Qed.

(** The strategies before a registered one: the six built-in ones and
    those registered before it. *)
Lemma before_registered (customs : list JSONParsingStrategy) (s : pystr) (k : nat) :
  (forall b, In b builtin_strategies -> attempt b s = PNone) ->
  (forall j c, (j < k)%nat -> customs !! j = Some c -> attempt c s = PNone) ->
  forall j st, (j < 6 + k)%nat ->
    (builtin_strategies ++ customs) !! j = Some st -> attempt st s = PNone.
Proof.
  intros Hb Hc j st Hj Hst.
  destruct (Nat.lt_ge_cases j 6) as [Hlt|Hge].
  - rewrite lookup_app_l in Hst by exact Hlt.
    apply Hb. apply list_elem_of_In, list_elem_of_lookup. eauto.
  - rewrite lookup_app_r in Hst by exact Hge.
    apply (Hc (j - 6)%nat); [lia | exact Hst].
Qed.

(** C7. Registered strategies come after the six built-in ones, in the
    order of registration. In a later [parse], the transforms are
    called in the order of the list; the transform of a registered
    strategy is called only if the decode attempt of every built-in
    strategy, and of every strategy registered before it, has failed;
    and when the decode attempt of a strategy so reached succeeds, its
    value is the result. Conversely, on a string that does not strip to
    nothing, when the decode attempts of the built-in strategies and of
    the strategies registered before it have all failed, the transform
    of a registered strategy is called, and its decode attempt, when it
    succeeds, is the result; when every attempt fails, the result is
    the empty mapping. *)
Theorem custom_strategies_follow_builtins
    (enable_logging : bool) (customs : list JSONParsingStrategy) (s : pystr) :
  let self := register_all (JSONParserOptimized_init enable_logging) customs in
  let trace := calls (parse self (PStr s)) in
  _strategies self = builtin_strategies ++ customs
  /\ length builtin_strategies = 6%nat
  /\ (exists n, transform_positions trace = seq 0 n)
  /\ (forall k, In (CallTransform (6 + k)) trace ->
        (forall b, In b builtin_strategies -> attempt b s = PNone)
        /\ (forall j c, (j < k)%nat -> customs !! j = Some c -> attempt c s = PNone))
  /\ (forall k c, customs !! k = Some c ->
        In (CallTransform (6 + k)) trace ->
        attempt c s <> PNone ->
        outcome (parse self (PStr s)) = Ok (attempt c s))
  /\ (forall k c, truthy (strip s) = true -> customs !! k = Some c ->
        (forall b, In b builtin_strategies -> attempt b s = PNone) ->
        (forall j c', (j < k)%nat -> customs !! j = Some c' ->
           attempt c' s = PNone) ->
        In (CallTransform (6 + k)) trace
        /\ (attempt c s <> PNone ->
            outcome (parse self (PStr s)) = Ok (attempt c s)))
  /\ (truthy (strip s) = true ->
        (forall st, In st (builtin_strategies ++ customs) ->
           attempt st s = PNone) ->
        outcome (parse self (PStr s)) = Ok empty_dict).
Proof.
  intros self trace.
  assert (Hs : _strategies self = builtin_strategies ++ customs)
    by apply strategies_register_all.
  split; [exact Hs|]. split; [reflexivity|]. split; [|split; [|split; [|split]]].
  - subst trace. unfold parse.
    destruct (_ || _); [exists O; reflexivity|].
    rewrite parse_loop_spec. unfold calls; simpl.
    eexists. apply transform_positions_loop.
  - intros k Hk. apply calls_parse in Hk.
    pose proof (tried_after_failures _ s _ Hk) as Hfail. rewrite Hs in Hfail.
    split.
    + intros b Hb. apply list_elem_of_In, list_elem_of_lookup in Hb as [j Hj].
      pose proof (lookup_lt_Some _ _ _ Hj) as Hlt.
      apply (Hfail j); [change (length builtin_strategies) with 6%nat in Hlt; lia|].
      rewrite lookup_app_l by exact Hlt. exact Hj.
    + intros j c Hj Hc. apply (Hfail (6 + j)%nat); [lia|].
      rewrite lookup_app_r by (simpl; lia).
      replace (6 + j - length builtin_strategies)%nat with j by (simpl; lia).
      exact Hc.
  - intros k c Hc Hk Hok.
    rewrite (outcome_parse _ _ _ Hk).
    apply calls_parse in Hk.
    pose proof (tried_after_failures _ s _ Hk) as Hfail.
    rewrite (first_success_at _ s (6 + k) c).
    + destruct (attempt c s); try reflexivity. congruence.
    + rewrite Hs, lookup_app_r by (simpl; lia).
      replace (6 + k - length builtin_strategies)%nat with k by (simpl; lia).
      exact Hc.
    + exact Hfail.
  - intros k c Hne Hc Hb Hprev.
    pose proof (before_registered customs s k Hb Hprev) as Hfail.
    assert (Hat : (builtin_strategies ++ customs) !! (6 + k)%nat = Some c).
    { rewrite lookup_app_r by (simpl; lia).
      replace (6 + k - length builtin_strategies)%nat with k by (simpl; lia).
      exact Hc. }
    subst trace. rewrite (parse_stripped self s Hne), Hs.
    unfold calls, outcome; cbn [fst snd]. split.
    + rewrite In_transform_positions, transform_positions_loop, in_seq.
      pose proof (tried_reaches _ s _ _ Hat Hfail). lia.
    + intros Hok. rewrite (first_success_at _ s (6 + k) c Hat Hfail).
      destruct (attempt c s); try reflexivity. congruence.
  - intros Hne Hall.
    rewrite (parse_stripped self s Hne), Hs.
    unfold outcome; cbn [snd].
    rewrite (first_success_all_fail _ s Hall). reflexivity.
Qed.

End StrategyOrder.

Lemma custom_strategies_follow_builtins_witness :
  let customs := [raising_strategy; constant_strategy (jtext "{`k`: 1}")] in
  let self := register_all (JSONParserOptimized_init false) customs in
  In (CallTransform 7) (calls (parse self (PStr (py "x"))))
  /\ outcome (parse self (PStr (py "x"))) = Ok (PDict [(py "k", PInt 1)]).
Proof.
  intros customs self.
  assert (Hne : truthy (strip (py "x")) = true) by reflexivity.
  assert (Hc : customs !! 1%nat = Some (constant_strategy (jtext "{`k`: 1}")))
    by reflexivity.
  assert (Hb : forall b, In b builtin_strategies -> attempt b (py "x") = PNone).
  { intros b Hb.
    repeat (destruct Hb as [<-|Hb]; [vm_compute; reflexivity|]).
    destruct Hb. }
  assert (Hprev : forall j c', (j < 1)%nat -> customs !! j = Some c' ->
                    attempt c' (py "x") = PNone).
  { intros j c' Hj Hc'. destruct j as [|j]; [|lia].
    injection Hc' as <-. vm_compute. reflexivity. }
  destruct (proj1 (proj2 (proj2 (proj2 (proj2 (proj2
              (custom_strategies_follow_builtins false customs (py "x")))))))
              1%nat _ Hne Hc Hb Hprev) as [Hin Hout].
  split; [exact Hin|]. subst self.
  rewrite Hout by (vm_compute; discriminate).
  vm_compute. reflexivity.
Defined.

(** ** Exceptions of a transform, and what the wrapper lets through *)

Section Exceptions.

Context `{Interpreter}.

(** [parse] returns a value on every input, with any list of
    strategies. *)
Lemma parse_never_raises (self : JSONParserOptimized) (json_str : pyobj) :
  exists v, outcome (parse self json_str) = Ok v.
Proof.
  destruct json_str as [| | | | |s| |]; try (eexists; reflexivity).
  unfold parse. destruct (_ || _); [eexists; reflexivity|].
  rewrite parse_loop_spec. eexists; reflexivity.
Qed.

(** When its transform raises, a strategy decodes the original text. *)
Lemma raising_transform_falls_back
    (i : nat) (st : JSONParsingStrategy) (s : pystr) (e : exn) :
  processor st s = Raise e ->
  try_strategy i st s = (CallTransform i :: decoder_calls s, Ok (decode_attempt s)).
Proof.
  intros Hr. rewrite try_strategy_spec. unfold attempt, applied.
  rewrite Hr. reflexivity.
Qed.

Lemma drop_past_strategy (bs cs1 cs2 : list JSONParsingStrategy)
    (c : JSONParsingStrategy) (n : nat) :
  n = (length bs + length cs1)%nat ->
  drop (S n) (bs ++ cs1 ++ c :: cs2) = cs2.
Proof.
  intros ->. rewrite app_assoc.
  replace (S (length bs + length cs1)) with (length ((bs ++ cs1) ++ [c]))
    by (rewrite !length_app; simpl; lia).
  replace ((bs ++ cs1) ++ c :: cs2) with (((bs ++ cs1) ++ [c]) ++ cs2)
    by (rewrite <- !app_assoc; reflexivity).
  apply drop_app_length.
Qed.

(** A registered transform that raises during [parse] is passed over:
    the result is the first successful decode attempt among the
    strategies registered after it, or the empty mapping when there is
    none. *)
Lemma parse_continues_after_raise
    (enable_logging : bool) (cs1 cs2 : list JSONParsingStrategy)
    (c : JSONParsingStrategy) (s : pystr) (e : exn) :
  let self :=
    register_all (JSONParserOptimized_init enable_logging) (cs1 ++ c :: cs2) in
  processor c s = Raise e ->
  In (CallTransform (6 + length cs1)) (calls (parse self (PStr s))) ->
  outcome (parse self (PStr s)) = Ok (default empty_dict (first_success cs2 s)).
Proof.
  intros self Hr Hk.
  rewrite (outcome_parse _ _ _ Hk). apply calls_parse in Hk.
  pose proof (tried_after_failures _ s _ Hk) as Hfail.
  assert (Hs : _strategies self = builtin_strategies ++ cs1 ++ c :: cs2)
    by apply strategies_register_all.
  rewrite Hs in *.
  rewrite (first_success_at _ s (6 + length cs1) c).
  - assert (Hc : attempt c s = PNone).
    { unfold attempt, applied. rewrite Hr.
      apply (Hfail O (hd c builtin_strategies)); [lia | reflexivity]. }
    rewrite Hc. simpl.
    pose proof (drop_past_strategy [] cs1 cs2 c (length cs1) eq_refl) as Hd.
    simpl in Hd. rewrite Hd. reflexivity.
  - rewrite lookup_app_r by (simpl; lia).
    replace (6 + length cs1 - length builtin_strategies)%nat with (length cs1)
      by (simpl; lia).
    rewrite lookup_app_r by lia. rewrite Nat.sub_diag. reflexivity.
  - exact Hfail.
Qed.

(** C4, at the failing input. With a strategy whose transform raises
    and, after it, one whose text decodes to a list, [parse] passes
    over the exception and returns that list: a value that is neither a
    mapping nor the empty mapping. *)
Theorem parse_after_raise_returns_list (enable_logging : bool) :
  let self :=
    register_all (JSONParserOptimized_init enable_logging)
      [raising_strategy; constant_strategy (py "[1]")] in
  processor raising_strategy (py "x") = Raise RuntimeError
  /\ In (CallTransform 6) (calls (parse self (PStr (py "x"))))
  /\ outcome (parse self (PStr (py "x"))) = Ok (PList [PInt 1]).
Proof.
  repeat split; vm_compute; tauto.
Qed.

(** C2, at the failing input. The text ["[1, 2]"] decodes to a list; both
    wrappers return the list, not [None], and both pipelines return it
    from their first strategy. A number does the same. *)
Theorem wrapper_returns_non_mapping (enable_logging : bool) :
  Json.loads (py "[1, 2]") = Ok (PList [PInt 1; PInt 2])
  /\ outcome (json_str_parser (py "[1, 2]")) = Ok (PList [PInt 1; PInt 2])
  /\ outcome (json_str_parser_fast (py "[1, 2]")) = Ok (PList [PInt 1; PInt 2])
  /\ outcome (parse (JSONParserOptimized_init enable_logging) (PStr (py "[1, 2]")))
     = Ok (PList [PInt 1; PInt 2])
  /\ outcome (json_str_parser_all_optimized (PStr (py "[1, 2]")))
     = Ok (PList [PInt 1; PInt 2])
  /\ outcome (json_str_parser (py "123")) = Ok (PInt 123)
  /\ outcome (parse (JSONParserOptimized_init enable_logging) (PStr (py "123")))
     = Ok (PInt 123).
Proof.
  repeat split; vm_compute; reflexivity.
Qed.

End Exceptions.

Lemma parse_continues_after_raise_witness :
  outcome (parse (register_all (JSONParserOptimized_init false)
                    ([] ++ raising_strategy :: [constant_strategy (jtext "{`k`: 1}")]))
             (PStr (py "x")))
  = Ok (PDict [(py "k", PInt 1)]).
Proof.
  apply (parse_continues_after_raise false [] [constant_strategy (jtext "{`k`: 1}")]
           raising_strategy (py "x") RuntimeError).
  - reflexivity.
  - vm_compute. tauto.
Defined.

(** ** Values on the heap *)

Section StoreLoad.

Lemma store_PList (items : list pyobj) (h : list obj) :
  store (PList items) h
  = let '(vs, h') := store_items items h in (VRef (length h'), h' ++ [OList vs]).
Proof. reflexivity. Qed.

Lemma store_PDict (items : list (pystr * pyobj)) (h : list obj) :
  store (PDict items) h
  = let '(kvs, h') := store_pairs items h in (VRef (length h'), h' ++ [ODict kvs]).
Proof. reflexivity. Qed.

Lemma store_items_well (items : list pyobj) :
  Forall stores_well items ->
  forall h vs h', store_items items h = (vs, h') ->
    exists ext, h' = h ++ ext
      /\ (fold_right (fun x m => Nat.max (depth x) m) O items <= S (length ext))%nat
      /\ forall ext2 n,
           (fold_right (fun x m => Nat.max (depth x) m) O items <= n)%nat ->
           mapM (load n (h' ++ ext2)) vs = Some items.
Proof.
  induction 1 as [|x items Hx _ IH]; intros h vs h' Hs; simpl in Hs.
  - injection Hs as <- <-. exists []. rewrite app_nil_r.
    split; [reflexivity|]. split; [simpl; lia|]. intros; reflexivity.
  - destruct (store x h) as [v h1] eqn:E1.
    destruct (store_items items h1) as [vs' h2] eqn:E2.
    injection Hs as <- <-.
    destruct (Hx _ _ _ E1) as (e1 & -> & Hd1 & Hl1).
    destruct (IH _ _ _ E2) as (e2 & -> & Hd2 & Hl2).
    exists (e1 ++ e2). rewrite app_assoc. split; [reflexivity|].
    split; [simpl; rewrite length_app; lia|].
    intros ext2 n Hn. simpl in Hn. simpl.
    rewrite <- (app_assoc (h ++ e1) e2 ext2).
    rewrite Hl1 by lia. simpl.
    rewrite (app_assoc (h ++ e1) e2 ext2).
    rewrite Hl2 by lia. reflexivity.
Qed.

Lemma store_pairs_well (items : list (pystr * pyobj)) :
  Forall (fun kv => stores_well (snd kv)) items ->
  forall h kvs h', store_pairs items h = (kvs, h') ->
    exists ext, h' = h ++ ext
      /\ (fold_right (fun kv m => Nat.max (depth (snd kv)) m) O items
          <= S (length ext))%nat
      /\ forall ext2 n,
           (fold_right (fun kv m => Nat.max (depth (snd kv)) m) O items <= n)%nat ->
           mapM (fun kv => pair (fst kv) <$> load n (h' ++ ext2) (snd kv)) kvs
           = Some items.
Proof.
  induction 1 as [|[k x] items Hx _ IH]; intros h kvs h' Hs; simpl in Hs.
  - injection Hs as <- <-. exists []. rewrite app_nil_r.
    split; [reflexivity|]. split; [simpl; lia|]. intros; reflexivity.
  - destruct (store x h) as [v h1] eqn:E1.
    destruct (store_pairs items h1) as [kvs' h2] eqn:E2.
    injection Hs as <- <-.
    destruct (Hx _ _ _ E1) as (e1 & -> & Hd1 & Hl1).
    destruct (IH _ _ _ E2) as (e2 & -> & Hd2 & Hl2).
    exists (e1 ++ e2). rewrite app_assoc. split; [reflexivity|].
    simpl in *. split; [rewrite length_app; lia|].
    intros ext2 n Hn.
    rewrite <- (app_assoc (h ++ e1) e2 ext2).
    rewrite Hl1 by lia. simpl.
    rewrite (app_assoc (h ++ e1) e2 ext2).
    rewrite Hl2 by lia. reflexivity.
Qed.

Lemma store_well (x : pyobj) : stores_well x.
Proof.
  induction x using pyobj_nested_ind; unfold stores_well;
    try (intros h v h' Hs; simpl in Hs; injection Hs as <- <-;
         exists []; rewrite app_nil_r;
         split; [reflexivity|]; split; [simpl; lia|];
         intros ext2 [|n] Hn; [simpl in Hn; lia | reflexivity]).
  - intros h v h' Hs. rewrite store_PList in Hs.
    destruct (store_items items h) as [vs h1] eqn:E.
    injection Hs as <- <-.
    destruct (store_items_well items H h vs h1 E) as (e1 & -> & Hd & Hl).
    exists (e1 ++ [OList vs]). rewrite app_assoc. split; [reflexivity|].
    split; [simpl; rewrite length_app; simpl; lia|].
    intros ext2 [|n] Hn; simpl in Hn; [lia|]. simpl.
    rewrite <- (app_assoc (h ++ e1)). cbn [app].
    rewrite list_lookup_middle by reflexivity.
    rewrite Hl by lia. reflexivity.
  - intros h v h' Hs. rewrite store_PDict in Hs.
    destruct (store_pairs items h) as [kvs h1] eqn:E.
    injection Hs as <- <-.
    destruct (store_pairs_well items H h kvs h1 E) as (e1 & -> & Hd & Hl).
    exists (e1 ++ [ODict kvs]). rewrite app_assoc. split; [reflexivity|].
    split; [simpl; rewrite length_app; simpl; lia|].
    intros ext2 [|n] Hn; simpl in Hn; [lia|]. simpl.
    rewrite <- (app_assoc (h ++ e1)). cbn [app].
    rewrite list_lookup_middle by reflexivity.
    rewrite Hl by lia. reflexivity.
Qed.

(** A value stored on the heap reads back as itself. *)
Lemma read_store (x : pyobj) (st : state) :
  read (with_heap st (snd (store x (heap st)))) (fst (store x (heap st))) = Some x.
Proof.
  destruct (store x (heap st)) as [v h'] eqn:E.
  destruct (store_well x _ _ _ E) as (ext & -> & Hd & Hl).
  unfold read; simpl.
  specialize (Hl [] (S (length (heap st ++ ext)))).
  rewrite app_nil_r in Hl. apply Hl. rewrite length_app. lia.
Qed.

End StoreLoad.

(** ** The memoization layer *)

Section CacheProperties.

Context `{Interpreter}.

Lemma cached_preserves_bound (json_str : pyobj) (use_cache : bool) (st : state) :
  cache_bounded st ->
  cache_bounded (snd (json_str_parser_all_cached json_str use_cache st)).
Proof.
  unfold cache_bounded, json_str_parser_all_cached. intros Hb.
  destruct json_str as [| | | | |key| |];
    try (destruct (store empty_dict (heap st)); exact Hb).
  destruct (if use_cache then _parse_cache st !! key else None) as [c|] eqn:Hc.
  - destruct (copy c (heap st)). exact Hb.
  - destruct (outcome _) as [result|e]; [|exact Hb].
    destruct (store result (heap st)) as [v h].
    destruct use_cache; simpl; [|exact Hb].
    case_bool_decide as Hlt; simpl; [|exact Hb].
    destruct (copy v h) as [[c|e] h']; simpl; [|exact Hb].
    rewrite map_size_insert_None by exact Hc. lia.
Qed.

Lemma run_ops_preserves_bound (ops : list cache_op) :
  forall st, cache_bounded st -> cache_bounded (run_ops ops st).
Proof.
  unfold run_ops.
  induction ops as [|op ops IH]; intros st Hb; simpl; [exact Hb|].
  apply IH. destruct op as [json_str use_cache|]; simpl.
  - apply cached_preserves_bound. exact Hb.
  - unfold cache_bounded, clear_cache; simpl. rewrite map_size_empty. lia.
Qed.

(** At capacity a key that is not cached is computed and returned, and
    the cache is left as it was. *)
Lemma cached_at_capacity (key : pystr) (use_cache : bool) (st : state)
    (result : pyobj) :
  (_cache_size_limit <= size (_parse_cache st))%nat ->
  _parse_cache st !! key = None ->
  outcome (json_str_parser_all_optimized (PStr key)) = Ok result ->
  json_str_parser_all_cached (PStr key) use_cache st
  = (Ok (fst (store result (heap st))),
     with_heap st (snd (store result (heap st)))).
Proof.
  intros Hfull Hmiss Hres. unfold json_str_parser_all_cached.
  rewrite Hmiss, Hres.
  destruct use_cache; simpl;
    destruct (store result (heap st)) as [v h]; [|reflexivity].
  case_bool_decide; [lia | reflexivity].
Qed.

End CacheProperties.

(** ** What the inlined pipeline returns *)

Section Whitespace.

Lemma blank_app (x y : pystr) : blank (x ++ y) = blank x && blank y.
Proof. apply forallb_app. Qed.

Lemma blank_rev (x : pystr) : blank (rev x) = blank x.
Proof.
  induction x as [|c r IH]; simpl; [reflexivity|].
  rewrite blank_app, IH. simpl. rewrite andb_true_r. apply andb_comm.
Qed.

Lemma lstrip_app (x y : pystr) :
  lstrip (x ++ y) = if blank x then lstrip y else lstrip x ++ y.
Proof.
  induction x as [|c r IH]; simpl; [reflexivity|].
  destruct (isspace c); simpl; [exact IH | reflexivity].
Qed.

Lemma lstrip_nonspace (c : N) (r : pystr) :
  isspace c = false -> lstrip (c :: r) = c :: r.
Proof. intros Hc. simpl. rewrite Hc. reflexivity. Qed.

Lemma lstrip_not_blank (s : pystr) :
  blank s = false -> exists c r, lstrip s = c :: r /\ isspace c = false.
Proof.
  induction s as [|c r IH]; simpl; [discriminate|].
  destruct (isspace c) eqn:Hc; simpl; [exact IH|].
  intros _. exists c, r. auto.
Qed.

Lemma rstrip_nonspace (c : N) (r : pystr) :
  isspace c = false -> rstrip (c :: r) = c :: rstrip r.
Proof.
  intros Hc. unfold rstrip. simpl. rewrite lstrip_app.
  destruct (blank (rev r)) eqn:Hb.
  - rewrite (lstrip_blank _ Hb), lstrip_nonspace by exact Hc. reflexivity.
  - rewrite rev_app_distr. reflexivity.
Qed.

Lemma strip_not_blank (s : pystr) :
  blank s = false -> exists c r, strip s = c :: r /\ isspace c = false.
Proof.
  intros Hb. destruct (lstrip_not_blank s Hb) as (c & r & Hl & Hc).
  unfold strip. rewrite Hl, rstrip_nonspace by exact Hc. eauto.
Qed.

Lemma truthy_strip (s : pystr) : truthy (strip s) = negb (blank s).
Proof.
  destruct (blank s) eqn:Hb.
  - rewrite (strip_blank s Hb). reflexivity.
  - destruct (strip_not_blank s Hb) as (c & r & -> & _). reflexivity.
Qed.

Lemma blank_strip (s : pystr) : blank (strip s) = blank s.
Proof.
  destruct (blank s) eqn:Hb.
  - rewrite (strip_blank s Hb). reflexivity.
  - destruct (strip_not_blank s Hb) as (c & r & -> & Hc). simpl.
    rewrite Hc. reflexivity.
Qed.

(** What [strip] leaves of a text between two blank margins. *)
Lemma strip_between (a c : pystr) (h l : N) (body : pystr) :
  blank a = true -> blank c = true ->
  isspace h = false -> isspace l = false ->
  forall b, b = h :: body -> (exists b', b = b' ++ [l]) ->
  strip (a ++ b ++ c) = b.
Proof.
  intros Ha Hc Hh Hl b Hb [b' Hb'].
  unfold strip. rewrite lstrip_app, Ha.
  replace (lstrip (b ++ c)) with (b ++ c)
    by (rewrite Hb; simpl; rewrite Hh; reflexivity).
  unfold rstrip. rewrite rev_app_distr, lstrip_app, blank_rev, Hc.
  rewrite Hb', rev_app_distr. simpl. rewrite Hl. simpl.
  rewrite rev_involutive. reflexivity.
Qed.

Lemma remove_nl_tab_cr_not_blank (s : pystr) :
  blank (remove_nl_tab_cr s) = blank s.
Proof.
  unfold blank, remove_nl_tab_cr.
  induction s as [|c r IH]; simpl; [reflexivity|].
  destruct (negb _) eqn:E; simpl; rewrite IH; [reflexivity|].
  apply negb_false_iff in E.
  assert (Hc : isspace c = true).
  { unfold isspace, Ch.lf, Ch.tab, Ch.cr in *.
    apply orb_true_iff in E as [E|E]; [apply orb_true_iff in E as [E|E]|];
      apply N.eqb_eq in E; subst c; reflexivity. }
  rewrite Hc. reflexivity.
Qed.

Lemma collapse_ws_not_blank (s : pystr) :
  forall b, blank (collapse_ws_from b s) = blank s.
Proof.
  unfold blank.
  induction s as [|c r IH]; intros b; simpl; [reflexivity|].
  destruct (isspace c) eqn:Hc; simpl.
  - destruct b; simpl; rewrite IH; reflexivity.
  - rewrite Hc. reflexivity.
Qed.

End Whitespace.

Section Equivalence.

Context `{Interpreter}.

Lemma sub_trailing_comma_truthy (close : N) (x : pystr) :
  truthy (sub_trailing_comma close x) = truthy x.
Proof.
  unfold sub_trailing_comma. destruct x as [|c r]; simpl; [reflexivity|].
  destruct (c =? Ch.comma); [destruct (match_ws_then close r)|]; reflexivity.
Qed.

Lemma quote_keys_from_truthy (x : pystr) :
  forall run, truthy (quote_keys_from run x) = truthy run || truthy x.
Proof.
  induction x as [|c r IH]; intros run; simpl.
  - rewrite orb_false_r. destruct run as [|a run]; simpl; [reflexivity|].
    destruct (rev run); reflexivity.
  - rewrite orb_true_r.
    destruct (is_word c); [rewrite IH; reflexivity|].
    destruct ((c =? Ch.colon) && truthy run); [reflexivity|].
    destruct (rev run); reflexivity.
Qed.

Lemma repair_substitutions_truthy (s : pystr) :
  truthy (repair_substitutions s) = truthy (strip s).
Proof.
  unfold repair_substitutions, replace_char, quote_keys.
  set (x := sub_trailing_comma Ch.rbracket _).
  assert (Hx : truthy x = truthy (strip s))
    by (subst x; rewrite !sub_trailing_comma_truthy; reflexivity).
  rewrite <- Hx.
  pose proof (quote_keys_from_truthy x []) as Hq. simpl in Hq.
  destruct (quote_keys_from [] x); simpl in *; congruence.
Qed.

(** The two repair functions differ only on a text that strips to
    nothing. *)
Lemma repair_json_fast_not_blank (s : pystr) :
  blank s = false -> repair_json_fast s = repair_json s.
Proof.
  intros Hb. unfold repair_json_fast, repair_json.
  rewrite repair_substitutions_truthy, truthy_strip, Hb. reflexivity.
Qed.

Lemma repair_json_differs_on_blank :
  repair_json [Ch.space] = py "{}" /\ repair_json_fast [Ch.space] = [].
Proof. split; reflexivity. Qed.

(** The outcome of the inlined pipeline on a string that is not empty,
    by the outcomes of its decode attempts: the first two are not
    guarded, the others are. *)
Lemma json_str_parser_all_optimized_outcome (s : pystr) :
  truthy s = true ->
  let cleaned := remove_nl_tab_cr s in
  let deep := strip (collapse_ws s) in
  let unless (v : pyobj) (k : exc pyobj) := if is_not_None v then Ok v else k in
  outcome (json_str_parser_all_optimized (PStr s))
  = match decode_outcome s with
    | Raise e => Raise e
    | Ok v1 =>
        unless v1
          match (if bool_decide (cleaned = s) then Ok PNone
                 else decode_outcome cleaned) with
          | Raise e => Raise e
          | Ok v2 =>
              unless v2 (
              unless (decode_attempt (repair_json_fast s)) (
              unless (decode_attempt (repair_json_fast cleaned)) (
              unless (if bool_decide (deep = s) then PNone
                      else match decode_outcome deep with
                           | Raise _ => PNone
                           | Ok v5 =>
                               if is_not_None v5 then v5
                               else decode_attempt (repair_json_fast deep)
                           end)
                (Ok empty_dict))))
          end
    end.
Proof.
  intros Hs cleaned deep unless. subst unless.
  unfold json_str_parser_all_optimized.
  rewrite Hs. cbn [negb].
  rewrite !json_str_parser_fast_spec.
  rewrite !json_str_parser_guarded.
  rewrite !json_str_parser_spec.
  fold cleaned. fold deep. unfold pystr_eqb.
  rewrite (decode_attempt_outcome (repair_json_fast deep)).
  unfold return_unless_None, bind, try_except, ret, outcome, Exception.
  repeat case_bool_decide; cbn [negb snd is_not_None];
    repeat (match goal with
            | |- context [decode_outcome ?x] =>
                destruct (decode_outcome x) as [?v|?e] eqn:?
            | |- context [is_not_None ?v] =>
                destruct (is_not_None v) eqn:?
            end; cbn [negb snd is_not_None]);
    reflexivity.
Qed.

End Equivalence.

(** ** The cache: capacity and isolation *)

Section CacheClaims.

Context `{Interpreter}.

(** C6. The cache starts empty and no sequence of cached calls and
    clearings takes it above a thousand entries; at capacity, a call
    with a key that is not cached returns the result of the pipeline,
    when the pipeline returns one, and leaves the cache as it was. When
    the pipeline raises, the call raises the same exception and leaves
    the whole state as it was. *)
Theorem cache_never_exceeds_capacity :
  cache_bounded initial_state
  /\ (forall ops st, cache_bounded st -> cache_bounded (run_ops ops st))
  /\ (forall key use_cache st result,
        (_cache_size_limit <= size (_parse_cache st))%nat ->
        _parse_cache st !! key = None ->
        outcome (json_str_parser_all_optimized (PStr key)) = Ok result ->
        returned (json_str_parser_all_cached (PStr key) use_cache st)
        = Some result
        /\ _parse_cache (snd (json_str_parser_all_cached (PStr key) use_cache st))
           = _parse_cache st)
  /\ (forall key use_cache st e,
        _parse_cache st !! key = None ->
        outcome (json_str_parser_all_optimized (PStr key)) = Raise e ->
        json_str_parser_all_cached (PStr key) use_cache st = (Raise e, st)).
Proof.
  split; [|split; [|split]].
  - unfold cache_bounded, initial_state; simpl. rewrite map_size_empty. lia.
  - intros ops st. apply run_ops_preserves_bound.
  - intros key use_cache st result Hfull Hmiss Hres.
    rewrite (cached_at_capacity key use_cache st result Hfull Hmiss Hres).
    split; [|reflexivity].
    unfold returned. apply read_store.
  - intros key use_cache st e Hmiss Hres.
    unfold json_str_parser_all_cached. rewrite Hmiss, Hres.
    destruct use_cache; reflexivity.
Qed.

(** C3, at the failing input. After a first call has cached the key, a
    second call returns a copy of the cached mapping. Setting a key of
    that copy leaves the next answer as it was, but appending to the
    list inside it changes the next answer: the copy shares its nested
    values with the cache. *)
Theorem cached_copy_shares_nested_values :
  let key := PStr (jtext "{`a`: [1]}") in
  let st1 := snd (json_str_parser_all_cached key true initial_state) in
  let hit := json_str_parser_all_cached key true st1 in
  exists handle,
    fst hit = Ok handle
    /\ returned hit = Some (PDict [(py "a", PList [PInt 1])])
    /\ returned (json_str_parser_all_cached key true (snd hit))
       = Some (PDict [(py "a", PList [PInt 1])])
    /\ returned (json_str_parser_all_cached key true
                   (set_item handle (py "b") (VInt 0) (snd hit)))
       = Some (PDict [(py "a", PList [PInt 1])])
    /\ returned (json_str_parser_all_cached key true
                   (append_to_item handle (py "a") (VInt 2) (snd hit)))
       = Some (PDict [(py "a", PList [PInt 1; PInt 2])]).
Proof.
  eexists. repeat split; vm_compute; reflexivity.
Qed.

End CacheClaims.

Lemma cache_never_exceeds_capacity_witness :
  let full := run_ops filling_ops initial_state in
  let key := py "[1, 2]" in
  let deep := replicate 1001 Ch.lbracket in
  size (_parse_cache full) = 1000%nat
  /\ cache_bounded (run_ops [Cached (PStr key) true; Clear; Cached (PStr key) true] full)
  /\ outcome (json_str_parser_all_optimized (PStr key)) = Ok (PList [PInt 1; PInt 2])
  /\ returned (json_str_parser_all_cached (PStr key) true full)
     = Some (PList [PInt 1; PInt 2])
  /\ _parse_cache (snd (json_str_parser_all_cached (PStr key) true full))
     = _parse_cache full
  /\ json_str_parser_all_cached (PStr deep) true full = (Raise RecursionError, full).
Proof.
  intros full key deep.
  assert (Hsize : size (_parse_cache full) = 1000%nat) by (vm_compute; reflexivity).
  assert (Hmiss : _parse_cache full !! key = None) by (vm_compute; reflexivity).
  assert (Hres : outcome (json_str_parser_all_optimized (PStr key))
                 = Ok (PList [PInt 1; PInt 2])) by (vm_compute; reflexivity).
  assert (Hdeep : _parse_cache full !! deep = None) by (vm_compute; reflexivity).
  assert (Hraise : outcome (json_str_parser_all_optimized (PStr deep))
                   = Raise RecursionError) by (vm_compute; reflexivity).
  destruct cache_never_exceeds_capacity as (Hinit & Hinv & Hfull & Hexc).
  split; [exact Hsize|]. split; [|split; [exact Hres|]].
  - apply Hinv. apply Hinv. exact Hinit.
  - assert (Hcap : (_cache_size_limit <= size (_parse_cache full))%nat)
      by (rewrite Hsize; unfold _cache_size_limit; lia).
    destruct (Hfull key true full _ Hcap Hmiss Hres) as [Hr Hc].
    split; [exact Hr|]. split; [exact Hc|].
    apply (Hexc deep true full _ Hdeep Hraise).
Defined.

(** ** The decoder: whitespace and strings *)

Lemma is_ws_isspace (c : N) : is_ws c = true -> isspace c = true.
Proof.
  unfold is_ws, Ch.space, Ch.tab, Ch.lf, Ch.cr. intros Hc.
  repeat (apply orb_true_iff in Hc as [Hc|Hc]);
    apply N.eqb_eq in Hc; subst c; reflexivity.
Qed.

Lemma skip_ws_blank (s : pystr) :
  exists w, s = w ++ skip_ws s /\ forallb is_ws w = true.
Proof.
  induction s as [|c r (w & Hw & Hb)]; simpl.
  - exists []. auto.
  - destruct (is_ws c) eqn:Hc.
    + exists (c :: w). simpl. rewrite Hc, Hb. split; [congruence | reflexivity].
    + exists []. auto.
Qed.

Lemma skip_ws_app (w s : pystr) :
  forallb is_ws w = true -> skip_ws (w ++ s) = skip_ws s.
Proof.
  induction w as [|c w IH]; simpl; [reflexivity|].
  intros Hb. apply andb_prop in Hb as [Hc Hw]. rewrite Hc. auto.
Qed.


Lemma skip_ws_cons (s : pystr) (c : N) (r : pystr) :
  skip_ws s = c :: r -> is_ws c = false.
Proof.
  induction s as [|a s IH]; simpl; [discriminate|].
  destruct (is_ws a) eqn:Ha; [exact IH|]. intros E. injection E as <- _. exact Ha.
Qed.

Lemma ws_blank (w : pystr) : forallb is_ws w = true -> blank w = true.
Proof.
  unfold blank. induction w as [|c w IH]; simpl; [reflexivity|].
  intros Hb. apply andb_prop in Hb as [Hc Hw].
  rewrite (is_ws_isspace c Hc). auto.
Qed.

Lemma skip_ws_nil (s : pystr) : skip_ws s = [] -> forallb is_ws s = true.
Proof.
  induction s as [|c r IH]; simpl; [reflexivity|].
  destruct (is_ws c); [exact IH | discriminate].
Qed.

Lemma length_skip_ws (s : pystr) : (length (skip_ws s) <= length s)%nat.
Proof.
  induction s as [|c r IH]; simpl; [lia|].
  destruct (is_ws c); simpl; lia.
Qed.

Lemma split_string_spec (n : nat) :
  forall s body rest, (length s <= n)%nat ->
    split_string s = Some (body, rest) ->
    s = body ++ Ch.dquote :: rest
    /\ forall t, split_string (body ++ Ch.dquote :: t) = Some (body, t).
Proof.
  induction n as [|n IH]; intros s body rest Hn Hs.
  - destruct s; [discriminate | simpl in Hn; lia].
  - destruct s as [|c r]; [discriminate|]. simpl in Hs, Hn.
    destruct (c =? Ch.dquote) eqn:Hq.
    + injection Hs as <- <-. apply N.eqb_eq in Hq. subst c. split; [reflexivity|].
      intros t. reflexivity.
    + destruct (c =? Ch.backslash) eqn:Hb.
      * destruct r as [|e r1]; [discriminate|].
        destruct (split_string r1) as [[b1 rest1]|] eqn:E; [|discriminate].
        injection Hs as <- <-. simpl in Hn.
        destruct (IH r1 b1 rest1 ltac:(lia) E) as [-> Ht].
        split; [reflexivity|]. intros t. simpl. rewrite Hq, Hb, Ht. reflexivity.
      * destruct (split_string r) as [[b1 rest1]|] eqn:E; [|discriminate].
        injection Hs as <- <-.
        destruct (IH r b1 rest1 ltac:(lia) E) as [-> Ht].
        split; [reflexivity|]. intros t. simpl. rewrite Hq, Hb, Ht. reflexivity.
Qed.

Lemma scanstring_spec (s str rest : pystr) :
  scanstring s = Some (str, rest) ->
  exists body, s = body ++ Ch.dquote :: rest
    /\ forall t, scanstring (body ++ Ch.dquote :: t) = Some (str, t).
Proof.
  unfold scanstring.
  destruct (split_string s) as [[body rest']|] eqn:E; [|discriminate].
  destruct (decode_body body) as [d|] eqn:D; [|discriminate].
  intros Hs. injection Hs as <- <-.
  destruct (split_string_spec (length s) s body rest' (le_n _) E) as [-> Ht].
  exists body. split; [reflexivity|]. intros t. rewrite Ht, D. reflexivity.
Qed.

(** ** The decoder: numbers *)

Lemma stop_head_digit t : stop_head t -> hd_not is_digit t.
Proof.
  destruct t as [|c t]; simpl; [auto|]. unfold number_char.
  intros Hc. repeat (apply orb_false_iff in Hc as [Hc ?]). exact Hc.
Qed.

Lemma stop_head_dot t : stop_head t -> hd_not is_dot t.
Proof.
  destruct t as [|c t]; simpl; [auto|]. unfold number_char, is_dot.
  intros Hc. repeat (apply orb_false_iff in Hc as [Hc ?]). assumption.
Qed.

Lemma stop_head_e t : stop_head t -> hd_not is_e t.
Proof.
  destruct t as [|c t]; simpl; [auto|]. unfold number_char, is_e.
  intros Hc. repeat (apply orb_false_iff in Hc as [Hc ?]).
  apply orb_false_iff. auto.
Qed.

Lemma span_digits_spec (s ds rest : pystr) :
  span_digits s = (ds, rest) ->
  s = ds ++ rest /\ forallb is_digit ds = true.
Proof.
  revert ds rest. induction s as [|c r IH]; intros ds rest; simpl.
  - intros E. injection E as <- <-. auto.
  - destruct (is_digit c) eqn:Hc.
    + destruct (span_digits r) as [ds' rest'] eqn:E. intros E'.
      injection E' as <- <-. destruct (IH _ _ eq_refl) as [-> Hd].
      simpl. rewrite Hc. auto.
    + intros E. injection E as <- <-. auto.
Qed.

Lemma span_digits_app (ds t : pystr) :
  forallb is_digit ds = true -> hd_not is_digit t ->
  span_digits (ds ++ t) = (ds, t).
Proof.
  intros Hd Ht. induction ds as [|c ds IH]; simpl.
  - destruct t as [|c t]; simpl in *; [reflexivity|]. rewrite Ht. reflexivity.
  - simpl in Hd. apply andb_prop in Hd as [Hc Hd]. rewrite Hc, IH by assumption.
    reflexivity.
Qed.

Lemma read_int_part_spec (s ip rest : pystr) :
  read_int_part s = Some (ip, rest) ->
  s = ip ++ rest
  /\ (exists d ds, ip = d :: ds /\ is_digit d = true)
  /\ forallb is_digit ip = true
  /\ forall t, hd_not is_digit t -> read_int_part (ip ++ t) = Some (ip, t).
Proof.
  destruct s as [|c r]; simpl; [discriminate|].
  destruct (c =? 48) eqn:H0.
  - intros E. injection E as <- <-. apply N.eqb_eq in H0. subst c.
    repeat split; eauto.
  - destruct (is_digit c) eqn:Hc; [|discriminate].
    destruct (span_digits r) as [ds rest'] eqn:E. intros E'. injection E' as <- <-.
    destruct (span_digits_spec _ _ _ E) as [-> Hd].
    split; [reflexivity|]. split; [eauto|]. split; [simpl; rewrite Hc; exact Hd|].
    intros t Ht. simpl. rewrite H0, Hc, span_digits_app by assumption. reflexivity.
Qed.

Lemma read_frac_part_none (t : pystr) :
  hd_not is_dot t -> read_frac_part t = (None, t).
Proof.
  destruct t as [|c [|f t]]; simpl; try reflexivity.
  unfold is_dot. intros ->. reflexivity.
Qed.

Lemma read_frac_part_spec (s : pystr) (frac : option pystr) (rest : pystr) :
  read_frac_part s = (frac, rest) ->
  match frac with
  | Some fs =>
      s = Ch.dot :: fs ++ rest
      /\ fs <> [] /\ forallb is_digit fs = true
      /\ forall t, hd_not is_digit t ->
           read_frac_part (Ch.dot :: fs ++ t) = (Some fs, t)
  | None => rest = s
  end.
Proof.
  destruct s as [|d [|f r]]; simpl; try (intros E; injection E as <- <-; reflexivity).
  destruct ((d =? Ch.dot) && is_digit f) eqn:Hd.
  - apply andb_prop in Hd as [Hd Hf]. rewrite Hf.
    destruct (span_digits r) as [fs rest'] eqn:E. intros E'. injection E' as <- <-.
    destruct (span_digits_spec _ _ _ E) as [-> Hfs].
    apply N.eqb_eq in Hd. subst d.
    split; [reflexivity|]. split; [discriminate|].
    split; [simpl; rewrite Hf; exact Hfs|].
    intros t Ht. simpl. rewrite Hf. simpl.
    rewrite span_digits_app by assumption. reflexivity.
  - intros E; injection E as <- <-; reflexivity.
Qed.

Lemma digit_not_sign (d : N) :
  is_digit d = true -> (d =? Ch.minus) = false /\ (d =? Ch.plus) = false.
Proof.
  unfold is_digit, Ch.minus, Ch.plus. intros Hd.
  apply andb_prop in Hd as [H1 H2]. apply N.leb_le in H1, H2.
  split; apply N.eqb_neq; lia.
Qed.

Lemma read_exp_part_none (t : pystr) :
  hd_not is_e t -> read_exp_part t = (None, t).
Proof.
  destruct t as [|c t]; simpl; [reflexivity|].
  unfold is_e. intros ->. reflexivity.
Qed.

Lemma read_exp_digits (neg : bool) (e : N) (sg ds t : pystr) (d : N) :
  is_e e = true ->
  forallb is_digit (d :: ds) = true -> hd_not is_digit t ->
  (sg = [] /\ neg = false \/ sg = [Ch.minus] /\ neg = true
   \/ sg = [Ch.plus] /\ neg = false) ->
  read_exp_part (e :: sg ++ (d :: ds) ++ t)
  = (Some (signed neg (digits_value (d :: ds))), t).
Proof.
  intros He Hd Ht Hsg. unfold read_exp_part. unfold is_e in He. rewrite He.
  pose proof Hd as Hd'. simpl in Hd'. apply andb_prop in Hd' as [Hd0 _].
  destruct (digit_not_sign d Hd0) as [Hm Hp].
  destruct Hsg as [[-> ->]|[[-> ->]|[-> ->]]].
  - change ([] ++ (d :: ds) ++ t) with (d :: (ds ++ t)).
    assert (Hs : span_digits (d :: (ds ++ t)) = (d :: ds, t))
      by (apply (span_digits_app (d :: ds) t); assumption).
    destruct (ds ++ t) as [|x u]; cbv beta iota; [|rewrite Hm, Hp];
      rewrite Hs; reflexivity.
  - change ([Ch.minus] ++ (d :: ds) ++ t) with (Ch.minus :: d :: (ds ++ t)).
    assert (Hs : span_digits (d :: (ds ++ t)) = (d :: ds, t))
      by (apply (span_digits_app (d :: ds) t); assumption).
    cbv beta iota. rewrite N.eqb_refl, Hs. reflexivity.
  - change ([Ch.plus] ++ (d :: ds) ++ t) with (Ch.plus :: d :: (ds ++ t)).
    assert (Hs : span_digits (d :: (ds ++ t)) = (d :: ds, t))
      by (apply (span_digits_app (d :: ds) t); assumption).
    cbv beta iota.
    change (Ch.plus =? Ch.minus) with false. rewrite N.eqb_refl, Hs. reflexivity.
Qed.

Lemma read_exp_part_spec (s : pystr) (ex : option Z) (rest : pystr) :
  read_exp_part s = (ex, rest) ->
  match ex with
  | Some z =>
      exists e sg d ds,
        s = e :: sg ++ (d :: ds) ++ rest
        /\ is_e e = true /\ forallb is_digit (d :: ds) = true
        /\ forall t, hd_not is_digit t ->
             read_exp_part (e :: sg ++ (d :: ds) ++ t) = (Some z, t)
  | None => rest = s
  end.
Proof.
  destruct s as [|e r]; [intros E; injection E as <- <-; reflexivity|].
  unfold read_exp_part.
  destruct ((e =? 101) || (e =? 69)) eqn:He;
    [|intros E; injection E as <- <-; reflexivity].
  assert (Hcase : exists neg sg r1,
             r = sg ++ r1
             /\ (sg = [] /\ neg = false \/ sg = [Ch.minus] /\ neg = true
                 \/ sg = [Ch.plus] /\ neg = false)
             /\ match r with
                | c :: (_ :: _) as r' =>
                    if c =? Ch.minus then (true, r')
                    else if c =? Ch.plus then (false, r') else (false, r)
                | _ => (false, r)
                end = (neg, r1)).
  { destruct r as [|c [|c' r'']].
    - exists false, [], []. auto.
    - exists false, [], [c]. auto.
    - destruct (c =? Ch.minus) eqn:Hm; [|destruct (c =? Ch.plus) eqn:Hp].
      + apply N.eqb_eq in Hm. subst c. exists true, [Ch.minus], (c' :: r''). auto 6.
      + apply N.eqb_eq in Hp. subst c. exists false, [Ch.plus], (c' :: r''). auto 6.
      + exists false, [], (c :: c' :: r''). auto. }
  destruct Hcase as (neg & sg & r1 & -> & Hsg & ->).
  destruct (span_digits r1) as [[|d ds] rest'] eqn:E;
    intros E'; injection E' as <- <-; [reflexivity|].
  destruct (span_digits_spec _ _ _ E) as [-> Hd].
  exists e, sg, d, ds. split; [reflexivity|]. split; [exact He|].
  split; [exact Hd|].
  intros t Ht. apply read_exp_digits; assumption.
Qed.

Lemma digit_cases (c : N) :
  is_digit c = true ->
  c = 48 \/ c = 49 \/ c = 50 \/ c = 51 \/ c = 52 \/ c = 53 \/ c = 54
  \/ c = 55 \/ c = 56 \/ c = 57.
Proof.
  unfold is_digit. intros Hd. apply andb_prop in Hd as [H1 H2].
  apply N.leb_le in H1, H2. lia.
Qed.

Lemma digit_not_space (c : N) : is_digit c = true -> isspace c = false.
Proof.
  intros Hd. apply digit_cases in Hd.
  repeat destruct Hd as [Hd|Hd]; subst c; reflexivity.
Qed.

Lemma digits_last (ds : pystr) :
  ds <> [] -> forallb is_digit ds = true ->
  exists ds' l, ds = ds' ++ [l] /\ is_digit l = true.
Proof.
  intros Hne Hd. destruct (exists_last Hne) as (ds' & l & ->).
  exists ds', l. split; [reflexivity|].
  rewrite forallb_app in Hd. apply andb_prop in Hd as [_ Hl].
  simpl in Hl. rewrite andb_true_r in Hl. exact Hl.
Qed.

Lemma read_sign_spec (s s1 : pystr) (neg : bool) :
  read_sign s = (neg, s1) -> s = sign_text neg ++ s1.
Proof.
  destruct s as [|c r]; simpl.
  - intros E. injection E as <- <-. reflexivity.
  - destruct (c =? Ch.minus) eqn:Hc; intros E; injection E as <- <-.
    + apply N.eqb_eq in Hc. subst c. reflexivity.
    + reflexivity.
Qed.

Lemma read_sign_digit (neg : bool) (d : N) (x : pystr) :
  is_digit d = true -> read_sign (sign_text neg ++ d :: x) = (neg, d :: x).
Proof.
  intros Hd. destruct neg; simpl; [reflexivity|].
  destruct (digit_not_sign d Hd) as [-> _]. reflexivity.
Qed.

Lemma hd_not_app (P : N -> bool) (x y : pystr) :
  (x <> [] -> hd_not P x) -> (x = [] -> hd_not P y) -> hd_not P (x ++ y).
Proof. destruct x as [|c x]; simpl; intros H1 H2; [auto | apply H1; discriminate]. Qed.

Lemma is_e_not_digit (e : N) : is_e e = true -> is_digit e = false.
Proof.
  unfold is_e. intros He. apply orb_true_iff in He as [He|He];
    apply N.eqb_eq in He; subst e; reflexivity.
Qed.

Lemma is_e_not_dot (e : N) : is_e e = true -> is_dot e = false.
Proof.
  unfold is_e. intros He. apply orb_true_iff in He as [He|He];
    apply N.eqb_eq in He; subst e; reflexivity.
Qed.

Lemma is_e_not_space (e : N) : is_e e = true -> isspace e = false.
Proof.
  unfold is_e. intros He. apply orb_true_iff in He as [He|He];
    apply N.eqb_eq in He; subst e; reflexivity.
Qed.

(** What [match_number] reads, as the text of its parts. *)
Lemma match_number_parts (s : pystr) (v : pyobj) (rest : pystr) :
  match_number s = Some (v, rest) ->
  exists neg d ds fp ep,
    s = sign_text neg ++ (d :: ds) ++ fp ++ ep ++ rest
    /\ forallb is_digit (d :: ds) = true
    /\ (fp = [] \/ exists f fs, fp = Ch.dot :: f :: fs
                               /\ forallb is_digit (f :: fs) = true)
    /\ (ep = [] \/ exists e sg x xs, ep = e :: sg ++ x :: xs /\ is_e e = true
                                    /\ forallb is_digit (x :: xs) = true)
    /\ forall t, stop_head t ->
         match_number (sign_text neg ++ (d :: ds) ++ fp ++ ep ++ t) = Some (v, t).
Proof.
  unfold match_number.
  destruct (read_sign s) as [neg s1] eqn:Esign.
  destruct (read_int_part s1) as [[ip s2]|] eqn:Eint; [|discriminate].
  destruct (read_frac_part s2) as [frac s3] eqn:Efrac.
  destruct (read_exp_part s3) as [ex s4] eqn:Eexp.
  intros Hv.
  assert (Hr : rest = s4) by (destruct frac, ex; congruence). subst rest.
  apply read_sign_spec in Esign. subst s.
  destruct (read_int_part_spec _ _ _ Eint) as (-> & (d & ds & -> & Hd0) & Hip & Hint).
  apply read_frac_part_spec in Efrac. apply read_exp_part_spec in Eexp.
  assert (Hfrac : exists fp,
             s2 = fp ++ s3
             /\ (fp = [] \/ exists f fs, fp = Ch.dot :: f :: fs
                                        /\ forallb is_digit (f :: fs) = true)
             /\ (fp <> [] -> hd_not is_digit fp)
             /\ forall u, hd_not is_digit u -> hd_not is_dot u ->
                  read_frac_part (fp ++ u) = (frac, u)).
  { destruct frac as [fs|].
    - destruct Efrac as (-> & Hne & Hfs & Hf). exists (Ch.dot :: fs).
      split; [reflexivity|]. split.
      + right. destruct fs as [|f fs]; [congruence|]. eauto.
      + split; [reflexivity|]. intros u Hu _. apply Hf. exact Hu.
    - subst s3. exists []. split; [reflexivity|]. split; [auto|].
      split; [congruence|]. intros u _ Hu. apply read_frac_part_none. exact Hu. }
  destruct Hfrac as (fp & -> & Hfp & Hfph & Hfrac).
  assert (Hexp : exists ep,
             s3 = ep ++ s4
             /\ (ep = [] \/ exists e sg x xs, ep = e :: sg ++ x :: xs /\ is_e e = true
                                             /\ forallb is_digit (x :: xs) = true)
             /\ (ep <> [] -> hd_not is_digit ep /\ hd_not is_dot ep)
             /\ forall u, hd_not is_digit u -> hd_not is_e u ->
                  read_exp_part (ep ++ u) = (ex, u)).
  { destruct ex as [z|].
    - destruct Eexp as (e & sg & x & xs & -> & He & Hx & Hf).
      exists (e :: sg ++ x :: xs). split; [simpl; rewrite <- app_assoc; reflexivity|].
      split; [right; eauto 8|].
      split; [intros _; simpl; auto using is_e_not_digit, is_e_not_dot|].
      intros u Hu _. specialize (Hf u Hu). simpl in *.
      rewrite <- app_assoc. exact Hf.
    - subst s4. exists []. split; [reflexivity|]. split; [auto|].
      split; [congruence|]. intros u _ Hu. apply read_exp_part_none. exact Hu. }
  destruct Hexp as (ep & -> & Hep & Heph & Hexp).
  exists neg, d, ds, fp, ep. split; [reflexivity|]. split; [exact Hip|].
  split; [exact Hfp|]. split; [exact Hep|].
  intros t Ht.
  change ((d :: ds) ++ fp ++ ep ++ t) with (d :: (ds ++ fp ++ ep ++ t)).
  rewrite read_sign_digit by exact Hd0.
  change (d :: (ds ++ fp ++ ep ++ t)) with ((d :: ds) ++ fp ++ ep ++ t).
  rewrite Hint.
  2:{ apply hd_not_app; [exact Hfph|]. intros _.
      apply hd_not_app; [apply Heph | intros _; apply stop_head_digit; exact Ht]. }
  rewrite Hfrac.
  2:{ apply hd_not_app; [apply Heph | intros _; apply stop_head_digit; exact Ht]. }
  2:{ apply hd_not_app; [apply Heph | intros _; apply stop_head_dot; exact Ht]. }
  rewrite Hexp by auto using stop_head_digit, stop_head_e.
  destruct frac, ex; injection Hv as <-; reflexivity.
Qed.

Lemma framed_parts (pre mid : pystr) (h l : N) (body : pystr) :
  pre ++ mid ++ [l] = h :: body ->
  isspace h = false -> isspace l = false ->
  framed (pre ++ mid ++ [l]).
Proof.
  intros Hb Hh Hl. exists h, body, l, (pre ++ mid).
  rewrite <- app_assoc. auto.
Qed.

Lemma match_number_spec (s : pystr) (v : pyobj) (rest : pystr) :
  match_number s = Some (v, rest) ->
  exists consumed,
    s = consumed ++ rest /\ framed consumed
    /\ forall t, stop_head t -> match_number (consumed ++ t) = Some (v, t).
Proof.
  intros Hm.
  destruct (match_number_parts s v rest Hm)
    as (neg & d & ds & fp & ep & -> & Hd & Hfp & Hep & Ht).
  exists (sign_text neg ++ (d :: ds) ++ fp ++ ep).
  split; [rewrite <- !app_assoc; reflexivity|].
  split.
  - assert (Hhead : exists h body,
               sign_text neg ++ (d :: ds) ++ fp ++ ep = h :: body
               /\ isspace h = false).
    { destruct neg; simpl; eexists _, _; split; try reflexivity.
      simpl in Hd. apply andb_prop in Hd as [Hd _].
      apply digit_not_space. exact Hd. }
    destruct Hhead as (h & body & Hhead & Hh).
    assert (Hlast : exists b' l,
               sign_text neg ++ (d :: ds) ++ fp ++ ep = b' ++ [l]
               /\ is_digit l = true).
    { destruct Hep as [->|(e & sg & x & xs & -> & He & Hx)].
      - rewrite app_nil_r.
        destruct Hfp as [->|(f & fs & -> & Hf)].
        + rewrite app_nil_r.
          destruct (digits_last (d :: ds) ltac:(discriminate) Hd) as (b' & l & -> & Hl).
          exists (sign_text neg ++ b'), l. rewrite <- app_assoc. auto.
        + destruct (digits_last (f :: fs) ltac:(discriminate) Hf) as (b' & l & -> & Hl).
          exists (sign_text neg ++ (d :: ds) ++ Ch.dot :: b'), l.
          rewrite <- !app_assoc. auto.
      - destruct (digits_last (x :: xs) ltac:(discriminate) Hx) as (b' & l & -> & Hl).
        exists (sign_text neg ++ (d :: ds) ++ fp ++ e :: sg ++ b'), l.
        rewrite <- !app_assoc. simpl. rewrite <- !app_assoc. auto. }
    destruct Hlast as (b' & l & Hlast & Hl).
    exists h, body, l, b'. auto using digit_not_space.
  - intros t Hstop. rewrite <- !app_assoc. apply Ht. exact Hstop.
Qed.

(** ** The decoder: constants *)

Lemma strip_prefix_spec (p s rest : pystr) :
  strip_prefix p s = Some rest -> s = p ++ rest.
Proof.
  revert s. induction p as [|a p IH]; intros s; simpl.
  - intros E. injection E as <-. reflexivity.
  - destruct s as [|b s]; [discriminate|].
    destruct (a =? b) eqn:Hab; [|discriminate].
    apply N.eqb_eq in Hab. subst b. intros E. rewrite (IH _ E). reflexivity.
Qed.

Lemma strip_prefix_app (p t : pystr) : strip_prefix p (p ++ t) = Some t.
Proof.
  induction p as [|a p IH]; simpl; [reflexivity|].
  rewrite N.eqb_refl. exact IH.
Qed.

Lemma framed_nonspace (b : pystr) :
  b <> [] -> forallb (fun c => negb (isspace c)) b = true -> framed b.
Proof.
  intros Hne Hall. destruct b as [|h body]; [congruence|].
  destruct (exists_last Hne) as (b' & l & Hl).
  exists h, body, l, b'. split; [reflexivity|]. split; [exact Hl|].
  split.
  - simpl in Hall. apply andb_prop in Hall as [Hh _].
    apply negb_true_iff. exact Hh.
  - rewrite Hl, forallb_app in Hall. apply andb_prop in Hall as [_ Hall].
    simpl in Hall. rewrite andb_true_r in Hall. apply negb_true_iff. exact Hall.
Qed.

Lemma match_constant_spec (s : pystr) (v : pyobj) (rest : pystr) :
  match_constant constants s = Some (v, rest) ->
  exists consumed,
    s = consumed ++ rest /\ framed consumed
    /\ forall t, match_constant constants (consumed ++ t) = Some (v, t).
Proof.
  unfold constants, match_constant.
  repeat match goal with
  | |- context [strip_prefix ?p s] =>
      let E := fresh "E" in
      let p' := eval vm_compute in p in
      change p with p';
      destruct (strip_prefix p' s) as [rest0|] eqn:E;
      [ intros Hv; injection Hv as <- <-; apply strip_prefix_spec in E; subst s;
        eexists; split; [reflexivity|]; split;
        [ apply framed_nonspace; [discriminate | reflexivity]
        | intros t; reflexivity ]
      | ]
  end.
  discriminate.
Qed.

(** ** The decoder: values *)

Section Scanning.

Context {interpreter : Interpreter}.

Lemma skip_ws_at (w x : pystr) :
  forallb is_ws w = true -> nows x -> skip_ws (w ++ x) = x.
Proof.
  intros Hw Hx. rewrite skip_ws_app by assumption.
  destruct x as [|c x]; simpl in *; [reflexivity | rewrite Hx; reflexivity].
Qed.

Lemma not_space_not_ws (c : N) : isspace c = false -> is_ws c = false.
Proof.
  intros Hc. destruct (is_ws c) eqn:E; [|reflexivity].
  apply is_ws_isspace in E. congruence.
Qed.

Lemma framed_head (b : pystr) :
  framed b -> exists h body, b = h :: body /\ isspace h = false.
Proof. intros (h & body & l & b' & -> & _ & Hh & _). eauto. Qed.

Lemma framed_nows (b t : pystr) : framed b -> nows (b ++ t).
Proof.
  intros Hb. destruct (framed_head b Hb) as (h & body & -> & Hh).
  simpl. apply not_space_not_ws. exact Hh.
Qed.

Lemma framed_cons_app (h : N) (pre b : pystr) :
  isspace h = false -> framed b -> framed (h :: pre ++ b).
Proof.
  intros Hh (h' & body & l & b' & _ & -> & _ & Hl).
  exists h, (pre ++ b' ++ [l]), l, (h :: pre ++ b').
  split; [reflexivity|]. split; [simpl; rewrite <- app_assoc; reflexivity|]. auto.
Qed.

Lemma framed_app_snoc (b mid : pystr) (l : N) :
  framed b -> isspace l = false -> framed (b ++ mid ++ [l]).
Proof.
  intros (h & body & l' & b' & -> & _ & Hh & _) Hl.
  exists h, (body ++ mid ++ [l]), l, ((h :: body) ++ mid).
  split; [reflexivity|]. split; [rewrite <- app_assoc; reflexivity|]. auto.
Qed.

Lemma framed_cons_snoc (h : N) (mid : pystr) (l : N) :
  isspace h = false -> isspace l = false -> framed (h :: mid ++ [l]).
Proof. intros Hh Hl. exists h, (mid ++ [l]), l, (h :: mid). auto. Qed.

Lemma framed_app_app (b mid b2 : pystr) :
  framed b -> framed b2 -> framed (b ++ mid ++ b2).
Proof.
  intros (h & body & l' & b' & -> & _ & Hh & _)
         (h2 & body2 & l & b2' & _ & -> & _ & Hl).
  exists h, (body ++ mid ++ b2' ++ [l]), l, ((h :: body) ++ mid ++ b2').
  split; [reflexivity|]. split; [rewrite <- !app_assoc; reflexivity|]. auto.
Qed.

Lemma stop_head_ws (w x : pystr) (c : N) :
  forallb is_ws w = true -> number_char c = false -> stop_head (w ++ c :: x).
Proof.
  destruct w as [|a w]; simpl; [auto|].
  intros Hw _. apply andb_prop in Hw as [Ha _].
  unfold is_ws, Ch.space, Ch.tab, Ch.lf, Ch.cr in Ha.
  repeat (apply orb_true_iff in Ha as [Ha|Ha]);
    apply N.eqb_eq in Ha; subst a; reflexivity.
Qed.

Lemma scan_once_S (n d : nat) (c : N) (r : pystr) :
  scan_once (S n) d (c :: r)
  = if c =? Ch.dquote then
      match scanstring r with
      | Some (str, rest) => Scanned (PStr str) rest
      | None => Raised JSONDecodeError
      end
    else if c =? Ch.lbrace then
      match d with
      | O => Raised RecursionError
      | S d' =>
          match skip_ws r with
          | c' :: r' =>
              if c' =? Ch.rbrace then Scanned (PDict []) r'
              else object_loop n d' [] (c' :: r')
          | [] => Raised JSONDecodeError
          end
      end
    else if c =? Ch.lbracket then
      match d with
      | O => Raised RecursionError
      | S d' =>
          match skip_ws r with
          | c' :: r' =>
              if c' =? Ch.rbracket then Scanned (PList []) r'
              else array_loop n d' [] (c' :: r')
          | [] => Raised JSONDecodeError
          end
      end
    else
      match match_constant constants (c :: r) with
      | Some (v, rest) => Scanned v rest
      | None => scan_number (c :: r)
      end.
Proof. reflexivity. Qed.

Lemma object_loop_S (n depth : nat) (acc : list (pystr * pyobj)) (s : pystr) :
  object_loop (S n) depth acc s
  = match s with
    | q :: r =>
        if q =? Ch.dquote then
          match scanstring r with
          | None => Raised JSONDecodeError
          | Some (key, r1) =>
              match skip_ws r1 with
              | c :: r2 =>
                  if c =? Ch.colon then
                    match scan_once n depth (skip_ws r2) with
                    | Scanned val r3 =>
                        let acc := dict_set key val acc in
                        match skip_ws r3 with
                        | d :: r4 =>
                            if d =? Ch.rbrace then Scanned (PDict acc) r4
                            else if d =? Ch.comma
                            then object_loop n depth acc (skip_ws r4)
                            else Raised JSONDecodeError
                        | [] => Raised JSONDecodeError
                        end
                    | Raised e => Raised e
                    | OutOfFuel => OutOfFuel
                    end
                  else Raised JSONDecodeError
              | [] => Raised JSONDecodeError
              end
          end
        else Raised JSONDecodeError
    | [] => Raised JSONDecodeError
    end.
Proof. reflexivity. Qed.

Lemma array_loop_S (n depth : nat) (acc : list pyobj) (s : pystr) :
  array_loop (S n) depth acc s
  = match scan_once n depth s with
    | Scanned val r1 =>
        let acc := acc ++ [val] in
        match skip_ws r1 with
        | d :: r2 =>
            if d =? Ch.rbracket then Scanned (PList acc) r2
            else if d =? Ch.comma then array_loop n depth acc (skip_ws r2)
            else Raised JSONDecodeError
        | [] => Raised JSONDecodeError
        end
    | Raised e => Raised e
    | OutOfFuel => OutOfFuel
    end.
Proof. reflexivity. Qed.

(** [skip_ws s = c :: r]: the text is whitespace, then [c], then [r]. *)
Lemma skip_ws_found (s : pystr) (c : N) (r : pystr) :
  skip_ws s = c :: r ->
  exists w, s = w ++ c :: r /\ forallb is_ws w = true /\ is_ws c = false.
Proof.
  intros E. destruct (skip_ws_blank s) as (w & Hs & Hw).
  exists w. rewrite E in Hs. split; [exact Hs|]. split; [exact Hw|].
  eapply skip_ws_cons. exact E.
Qed.

Lemma skip_ws_split (s : pystr) :
  exists w, s = w ++ skip_ws s /\ forallb is_ws w = true /\ nows (skip_ws s).
Proof.
  destruct (skip_ws_blank s) as (w & Hs & Hw). exists w.
  split; [exact Hs|]. split; [exact Hw|].
  destruct (skip_ws s) as [|c r] eqn:E; simpl; [auto|].
  eapply skip_ws_cons. exact E.
Qed.

Lemma number_not_constant (d : N) (x : pystr) :
  is_digit d = true ->
  match_constant constants (d :: x) = None
  /\ match_constant constants (Ch.minus :: d :: x) = None.
Proof.
  intros Hd. apply digit_cases in Hd.
  repeat destruct Hd as [Hd|Hd]; subst d; split; reflexivity.
Qed.

Lemma match_number_not_constant (s : pystr) (v : pyobj) (rest : pystr) :
  match_number s = Some (v, rest) ->
  forall consumed t, s = consumed ++ rest -> framed consumed ->
    match_number (consumed ++ t) = Some (v, t) ->
    match_constant constants (consumed ++ t) = None.
Proof.
  intros _ consumed t _ _ Hm.
  destruct (match_number_parts _ _ _ Hm)
    as (neg & d & ds & fp & ep & -> & Hd & _).
  simpl in Hd. apply andb_prop in Hd as [Hd _].
  destruct neg; simpl; apply number_not_constant; exact Hd.
Qed.

Lemma int_digits_framed (co t : pystr) :
  framed co -> int_digits (co ++ t) t = length (snd (read_sign co)).
Proof.
  intros Hf. destruct (framed_head co Hf) as (h & body & -> & _).
  unfold int_digits, read_sign. cbn [app].
  destruct (h =? Ch.minus); cbn [snd length]; rewrite length_app; lia.
Qed.

(** What holds of [match_number] holds of [scan_number]: the limit on
    the digits of an integer looks at the literal only. *)
Lemma scan_number_stable (s : pystr) (v : pyobj) (rest : pystr) :
  scan_number s = Scanned v rest ->
  exists consumed,
    s = consumed ++ rest /\ framed consumed
    /\ forall t, stop_head t ->
         scan_number (consumed ++ t) = Scanned v t
         /\ match_constant constants (consumed ++ t) = None.
Proof.
  unfold scan_number.
  destruct (match_number s) as [[v' rest']|] eqn:En; [|discriminate].
  intros Hs.
  destruct (match_number_spec _ _ _ En) as (co & Hco & Hf & Ht).
  assert (Hv : v' = v /\ rest' = rest
               /\ match v' with
                  | PInt _ => exceeds_int_limit (int_digits s rest') = false
                  | _ => True
                  end).
  { destruct v'; try (injection Hs as <- <-; auto).
    destruct (exceeds_int_limit _); [discriminate|].
    injection Hs as <- <-. auto. }
  destruct Hv as (-> & -> & Hlim).
  exists co. split; [exact Hco|]. split; [exact Hf|].
  intros t Hst. split.
  - rewrite (Ht t Hst).
    destruct v; try reflexivity.
    rewrite Hco, int_digits_framed in Hlim by exact Hf.
    rewrite int_digits_framed, Hlim by exact Hf. reflexivity.
  - apply (match_number_not_constant _ _ _ En co t Hco Hf (Ht t Hst)).
Qed.

Lemma scan_number_fuel (s : pystr) : scan_number s <> OutOfFuel.
Proof.
  unfold scan_number.
  destruct (match_number s) as [[[] ?]|]; try discriminate.
  destruct (exceeds_int_limit _); discriminate.
Qed.

Ltac norm := repeat (progress (rewrite <- ?app_assoc; cbn [app])).

(** The scanner looks at the text after a value only to see that a
    number has ended: what it reads is framed by characters that are not
    whitespace, and it reads the same in front of any text that cannot
    continue a number. *)
Lemma scan_stable (n : nat) :
  (forall depth s v rest,
      scan_once n depth s = Scanned v rest ->
      stable (scan_once n depth) s v rest)
  /\ (forall depth acc s v rest,
        object_loop n depth acc s = Scanned v rest ->
        stable (object_loop n depth acc) s v rest)
  /\ (forall depth acc s v rest,
        array_loop n depth acc s = Scanned v rest ->
        stable (array_loop n depth acc) s v rest).
Proof.
  induction n as [|n (IHs & IHo & IHa)];
    [repeat split; intros; discriminate|].
  split; [|split].
  - (* scan_once *)
    intros depth s v rest H. destruct s as [|c r]; [discriminate|].
    rewrite scan_once_S in H.
    destruct (c =? Ch.dquote) eqn:Hq.
    { destruct (scanstring r) as [[str rest']|] eqn:E; [|discriminate].
      injection H as <- <-. apply N.eqb_eq in Hq. subst c.
      destruct (scanstring_spec _ _ _ E) as (body & -> & Ht).
      exists (Ch.dquote :: body ++ [Ch.dquote]).
      split; [norm; reflexivity|].
      split; [apply framed_cons_snoc; reflexivity|].
      intros t _. norm. rewrite scan_once_S, N.eqb_refl, Ht. reflexivity. }
    destruct (c =? Ch.lbrace) eqn:Hb.
    { apply N.eqb_eq in Hb. subst c.
      destruct depth as [|depth]; [discriminate|].
      destruct (skip_ws r) as [|c' r'] eqn:E; [discriminate|].
      destruct (skip_ws_found _ _ _ E) as (w & -> & Hw & Hc').
      destruct (c' =? Ch.rbrace) eqn:Hc.
      - injection H as <- <-. apply N.eqb_eq in Hc. subst c'.
        exists (Ch.lbrace :: w ++ [Ch.rbrace]).
        split; [norm; reflexivity|].
        split; [apply framed_cons_snoc; reflexivity|].
        intros t _. norm. rewrite scan_once_S, Hq, N.eqb_refl.
        rewrite skip_ws_at by (assumption || reflexivity).
        rewrite N.eqb_refl. reflexivity.
      - destruct (IHo _ _ _ _ _ H) as (co & Hco & Hf & Ht).
        exists (Ch.lbrace :: w ++ co).
        split; [norm; rewrite Hco; reflexivity|].
        split; [apply framed_cons_app; [reflexivity | exact Hf]|].
        intros t Hst. norm. rewrite scan_once_S, Hq, N.eqb_refl.
        rewrite skip_ws_at by (assumption || apply framed_nows; assumption).
        specialize (Ht t Hst).
        destruct (framed_head co Hf) as (h & body & -> & Hh).
        simpl in Hco. injection Hco as -> _.
        cbn [app] in *. rewrite Hc. exact Ht. }
    destruct (c =? Ch.lbracket) eqn:Hk.
    { apply N.eqb_eq in Hk. subst c.
      destruct depth as [|depth]; [discriminate|].
      destruct (skip_ws r) as [|c' r'] eqn:E; [discriminate|].
      destruct (skip_ws_found _ _ _ E) as (w & -> & Hw & Hc').
      destruct (c' =? Ch.rbracket) eqn:Hc.
      - injection H as <- <-. apply N.eqb_eq in Hc. subst c'.
        exists (Ch.lbracket :: w ++ [Ch.rbracket]).
        split; [norm; reflexivity|].
        split; [apply framed_cons_snoc; reflexivity|].
        intros t _. norm. rewrite scan_once_S, Hq, Hb, N.eqb_refl.
        rewrite skip_ws_at by (assumption || reflexivity).
        rewrite N.eqb_refl. reflexivity.
      - destruct (IHa _ _ _ _ _ H) as (co & Hco & Hf & Ht).
        exists (Ch.lbracket :: w ++ co).
        split; [norm; rewrite Hco; reflexivity|].
        split; [apply framed_cons_app; [reflexivity | exact Hf]|].
        intros t Hst. norm. rewrite scan_once_S, Hq, Hb, N.eqb_refl.
        rewrite skip_ws_at by (assumption || apply framed_nows; assumption).
        specialize (Ht t Hst).
        destruct (framed_head co Hf) as (h & body & -> & Hh).
        simpl in Hco. injection Hco as -> _.
        cbn [app] in *. rewrite Hc. exact Ht. }
    destruct (match_constant constants (c :: r)) as [[v' rest']|] eqn:E.
    { injection H as <- <-.
      destruct (match_constant_spec _ _ _ E) as (co & Hco & Hf & Ht).
      exists co. split; [exact Hco|]. split; [exact Hf|].
      intros t _. specialize (Ht t).
      destruct (framed_head co Hf) as (h & body & -> & Hh).
      simpl in Hco. injection Hco as -> _.
      cbn [app] in *. rewrite scan_once_S, Hq, Hb, Hk, Ht. reflexivity. }
    destruct (scan_number_stable _ _ _ H) as (co & Hco & Hf & Ht).
    exists co. split; [exact Hco|]. split; [exact Hf|].
    intros t Hst. destruct (Ht t Hst) as [Hn Hnc].
    destruct (framed_head co Hf) as (h & body & -> & Hh).
    simpl in Hco. injection Hco as -> _.
    cbn [app] in *. rewrite scan_once_S, Hq, Hb, Hk, Hnc, Hn. reflexivity.
  - (* object_loop *)
    intros depth acc s v rest H. rewrite object_loop_S in H.
    destruct s as [|q r]; [discriminate|].
    destruct (q =? Ch.dquote) eqn:Hq; [|discriminate].
    apply N.eqb_eq in Hq. subst q.
    destruct (scanstring r) as [[key r1]|] eqn:Ekey; [|discriminate].
    destruct (skip_ws r1) as [|c r2] eqn:E1; [discriminate|].
    destruct (c =? Ch.colon) eqn:Hc; [|discriminate].
    apply N.eqb_eq in Hc. subst c.
    destruct (scan_once n depth (skip_ws r2)) as [val r3|e|] eqn:Eval;
      try discriminate.
    cbv zeta in H.
    destruct (skip_ws r3) as [|d r4] eqn:E3; [discriminate|].
    destruct (scanstring_spec _ _ _ Ekey) as (body & -> & Hkey).
    destruct (skip_ws_found _ _ _ E1) as (w1 & -> & Hw1 & _).
    destruct (skip_ws_split r2) as (w2 & Hr2 & Hw2 & _).
    destruct (IHs _ _ _ _ Eval) as (cv & Hcv & Hfv & Hval).
    rewrite Hcv in Hr2.
    destruct (skip_ws_found _ _ _ E3) as (w3 & -> & Hw3 & _).
    subst r2.
    destruct (d =? Ch.rbrace) eqn:Hd.
    + injection H as <- <-. apply N.eqb_eq in Hd. subst d.
      exists (Ch.dquote ::
              (body ++ Ch.dquote :: w1 ++ Ch.colon :: w2 ++ cv ++ w3) ++ [Ch.rbrace]).
      split; [norm; reflexivity|].
      split; [apply framed_cons_snoc; reflexivity|].
      intros t Hst. norm. rewrite object_loop_S, N.eqb_refl, Hkey.
      rewrite skip_ws_at by (assumption || reflexivity).
      rewrite N.eqb_refl.
      rewrite skip_ws_at by (assumption || apply framed_nows; assumption).
      rewrite Hval by (apply stop_head_ws; [assumption | reflexivity]).
      cbv zeta. rewrite skip_ws_at by (assumption || reflexivity).
      rewrite N.eqb_refl. reflexivity.
    + destruct (d =? Ch.comma) eqn:Hcm; [|discriminate].
      apply N.eqb_eq in Hcm. subst d.
      destruct (skip_ws_split r4) as (w4 & Hr4 & Hw4 & _).
      destruct (IHo _ _ _ _ _ H) as (co & Hco & Hfo & Ho).
      rewrite Hco in Hr4. 
      exists (Ch.dquote ::
              (body ++ Ch.dquote :: w1 ++ Ch.colon :: w2 ++ cv ++ w3 ++ Ch.comma :: w4)
              ++ co).
      split; [norm; rewrite Hr4 at 1; reflexivity|].
      split; [apply framed_cons_app; [reflexivity | exact Hfo]|].
      intros t Hst. norm. rewrite object_loop_S, N.eqb_refl, Hkey.
      rewrite skip_ws_at by (assumption || reflexivity).
      rewrite N.eqb_refl.
      rewrite skip_ws_at by (assumption || apply framed_nows; assumption).
      rewrite Hval by (apply stop_head_ws; [assumption | reflexivity]).
      cbv zeta. rewrite skip_ws_at by (assumption || reflexivity).
      rewrite Hd, N.eqb_refl.
      rewrite skip_ws_at by (assumption || apply framed_nows; assumption).
      apply Ho. exact Hst.
  - (* array_loop *)
    intros depth acc s v rest H. rewrite array_loop_S in H.
    destruct (scan_once n depth s) as [val r1|e|] eqn:Eval; try discriminate.
    cbv zeta in H.
    destruct (skip_ws r1) as [|d r2] eqn:E1; [discriminate|].
    destruct (IHs _ _ _ _ Eval) as (cv & -> & Hfv & Hval).
    destruct (skip_ws_found _ _ _ E1) as (w1 & -> & Hw1 & _).
    destruct (d =? Ch.rbracket) eqn:Hd.
    + injection H as <- <-. apply N.eqb_eq in Hd. subst d.
      exists (cv ++ w1 ++ [Ch.rbracket]).
      split; [norm; reflexivity|].
      split; [apply framed_app_snoc; [exact Hfv | reflexivity]|].
      intros t Hst. norm. rewrite array_loop_S.
      rewrite Hval by (apply stop_head_ws; [assumption | reflexivity]).
      cbv zeta. rewrite skip_ws_at by (assumption || reflexivity).
      rewrite N.eqb_refl. reflexivity.
    + destruct (d =? Ch.comma) eqn:Hcm; [|discriminate].
      apply N.eqb_eq in Hcm. subst d.
      destruct (skip_ws_split r2) as (w2 & Hr2 & Hw2 & _).
      destruct (IHa _ _ _ _ _ H) as (ca & Hca & Hfa & Ha).
      rewrite Hca in Hr2.
      exists (cv ++ (w1 ++ Ch.comma :: w2) ++ ca).
      split; [norm; rewrite Hr2 at 1; reflexivity|].
      split; [apply framed_app_app; assumption|].
      intros t Hst. norm. rewrite array_loop_S.
      rewrite Hval by (apply stop_head_ws; [assumption | reflexivity]).
      cbv zeta. rewrite skip_ws_at by (assumption || reflexivity).
      rewrite Hd, N.eqb_refl.
      rewrite skip_ws_at by (assumption || apply framed_nows; assumption).
      apply Ha. exact Hst.
Qed.

(** ** The decoder: fuel, and stripped text *)

Lemma framed_length (b : pystr) : framed b -> (0 < length b)%nat.
Proof. intros (h & body & _ & _ & -> & _). simpl. lia. Qed.

Lemma scan_fuel_step (n : nat) :
  (forall d s r,
      scan_once n d s = r -> r <> OutOfFuel -> scan_once (S n) d s = r)
  /\ (forall d acc s r,
        object_loop n d acc s = r -> r <> OutOfFuel ->
        object_loop (S n) d acc s = r)
  /\ (forall d acc s r,
        array_loop n d acc s = r -> r <> OutOfFuel ->
        array_loop (S n) d acc s = r).
Proof.
  induction n as [|n (IHs & IHo & IHa)];
    [repeat split; intros; subst; simpl in *; congruence|].
  split; [|split].
  - intros depth s r H Hr. destruct s as [|c s]; [exact H|].
    rewrite scan_once_S in *.
    destruct (c =? Ch.dquote); [exact H|].
    destruct (c =? Ch.lbrace).
    { destruct depth as [|depth]; [exact H|].
      destruct (skip_ws s) as [|c' r']; [exact H|].
      destruct (c' =? Ch.rbrace); [exact H|]. apply IHo; assumption. }
    destruct (c =? Ch.lbracket); [|exact H].
    destruct depth as [|depth]; [exact H|].
    destruct (skip_ws s) as [|c' r']; [exact H|].
    destruct (c' =? Ch.rbracket); [exact H|]. apply IHa; assumption.
  - intros depth acc s r H Hr. rewrite object_loop_S in *.
    destruct s as [|q s]; [exact H|].
    destruct (q =? Ch.dquote); [|exact H].
    destruct (scanstring s) as [[key r1]|]; [|exact H].
    destruct (skip_ws r1) as [|c r2]; [exact H|].
    destruct (c =? Ch.colon); [|exact H].
    destruct (scan_once n depth (skip_ws r2)) as [val r3|e|] eqn:E.
    + rewrite (IHs _ _ _ E) by discriminate. cbv zeta in *.
      destruct (skip_ws r3) as [|d r4]; [exact H|].
      destruct (d =? Ch.rbrace); [exact H|].
      destruct (d =? Ch.comma); [|exact H]. apply IHo; assumption.
    + rewrite (IHs _ _ _ E) by discriminate. exact H.
    + congruence.
  - intros depth acc s r H Hr. rewrite array_loop_S in *.
    destruct (scan_once n depth s) as [val r1|e|] eqn:E.
    + rewrite (IHs _ _ _ E) by discriminate. cbv zeta in *.
      destruct (skip_ws r1) as [|d r2]; [exact H|].
      destruct (d =? Ch.rbracket); [exact H|].
      destruct (d =? Ch.comma); [|exact H]. apply IHa; assumption.
    + rewrite (IHs _ _ _ E) by discriminate. exact H.
    + congruence.
Qed.

Lemma scan_once_fuel_mono (n m d : nat) (s : pystr) (r : scan_result pyobj) :
  scan_once n d s = r -> r <> OutOfFuel -> (n <= m)%nat -> scan_once m d s = r.
Proof.
  intros H Hr Hle. induction Hle as [|m Hle IH]; [exact H|].
  apply (proj1 (scan_fuel_step m)); assumption.
Qed.

Lemma scanstring_length (s str rest : pystr) :
  scanstring s = Some (str, rest) -> (length rest < length s)%nat.
Proof.
  intros E. destruct (scanstring_spec _ _ _ E) as (body & -> & _).
  rewrite length_app. simpl. lia.
Qed.

(** Twice the length of the text is fuel enough. *)
Lemma scan_once_fuel (n : nat) :
  (forall d s, (2 * length s < n)%nat -> scan_once n d s <> OutOfFuel)
  /\ (forall d acc s,
        (2 * length s + 1 < n)%nat -> object_loop n d acc s <> OutOfFuel)
  /\ (forall d acc s,
        (2 * length s + 1 < n)%nat -> array_loop n d acc s <> OutOfFuel).
Proof.
  induction n as [|n (IHs & IHo & IHa)]; [repeat split; intros; lia|].
  split; [|split].
  - intros depth s Hn. destruct s as [|c s]; [discriminate|].
    rewrite scan_once_S. simpl in Hn.
    destruct (c =? Ch.dquote);
      [destruct (scanstring s) as [[? ?]|]; discriminate|].
    pose proof (length_skip_ws s) as Hl.
    destruct (c =? Ch.lbrace).
    { destruct depth as [|depth]; [discriminate|].
      destruct (skip_ws s) as [|c' r'] eqn:E; [discriminate|].
      destruct (c' =? Ch.rbrace); [discriminate|]. apply IHo. lia. }
    destruct (c =? Ch.lbracket).
    { destruct depth as [|depth]; [discriminate|].
      destruct (skip_ws s) as [|c' r'] eqn:E; [discriminate|].
      destruct (c' =? Ch.rbracket); [discriminate|]. apply IHa. lia. }
    destruct (match_constant _ _) as [[? ?]|]; [discriminate|].
    apply scan_number_fuel.
  - intros depth acc s Hn. rewrite object_loop_S.
    destruct s as [|q s]; [discriminate|]. simpl in Hn.
    destruct (q =? Ch.dquote); [|discriminate].
    destruct (scanstring s) as [[key r1]|] eqn:Ekey; [|discriminate].
    apply scanstring_length in Ekey.
    destruct (skip_ws r1) as [|c r2] eqn:E1; [discriminate|].
    pose proof (length_skip_ws r1) as Hl1. rewrite E1 in Hl1. simpl in Hl1.
    destruct (c =? Ch.colon); [|discriminate].
    pose proof (length_skip_ws r2) as Hl2.
    destruct (scan_once n depth (skip_ws r2)) as [val r3|e|] eqn:E.
    + cbv zeta.
      destruct (proj1 (scan_stable n) _ _ _ _ E) as (cv & Hcv & Hf & _).
      apply framed_length in Hf.
      assert (length r3 < length (skip_ws r2))%nat
        by (rewrite Hcv, length_app; lia).
      destruct (skip_ws r3) as [|d r4] eqn:E3; [discriminate|].
      pose proof (length_skip_ws r3) as Hl3. rewrite E3 in Hl3. simpl in Hl3.
      destruct (d =? Ch.rbrace); [discriminate|].
      destruct (d =? Ch.comma); [|discriminate].
      apply IHo. pose proof (length_skip_ws r4). lia.
    + discriminate.
    + exfalso. apply (IHs depth (skip_ws r2)); [lia | exact E].
  - intros depth acc s Hn. rewrite array_loop_S.
    destruct (scan_once n depth s) as [val r1|e|] eqn:E.
    + cbv zeta.
      destruct (proj1 (scan_stable n) _ _ _ _ E) as (cv & Hcv & Hf & _).
      apply framed_length in Hf.
      assert (length r1 < length s)%nat by (rewrite Hcv, length_app; lia).
      destruct (skip_ws r1) as [|d r2] eqn:E1; [discriminate|].
      pose proof (length_skip_ws r1) as Hl1. rewrite E1 in Hl1. simpl in Hl1.
      destruct (d =? Ch.rbracket); [discriminate|].
      destruct (d =? Ch.comma); [|discriminate].
      apply IHa. pose proof (length_skip_ws r2). lia.
    + discriminate.
    + exfalso. apply (IHs depth s); [lia | exact E].
Qed.

(** A text that decodes decodes to the same value once stripped. *)
Lemma loads_strip (s : pystr) (v : pyobj) :
  loads s = Ok v -> strip s <> [] /\ loads (strip s) = Ok v.
Proof.
  unfold loads at 1.
  destruct (scan_once _ _ _) as [v' rest|e|] eqn:E; try discriminate.
  destruct (skip_ws rest) eqn:Er; [|discriminate].
  intros Hv. injection Hv as ->.
  destruct (proj1 (scan_stable _) _ _ _ _ E) as (co & Hco & Hf & Ht).
  destruct (skip_ws_blank s) as (w & Hs & Hw).
  rewrite Hco in Hs.
  assert (Hstrip : strip s = co).
  { destruct Hf as (h & body & l & b' & Hb & Hb' & Hh & Hl).
    rewrite Hs.
    apply (strip_between w rest h l body);
      auto using ws_blank, skip_ws_nil. eauto. }
  rewrite Hstrip. split.
  - apply framed_length in Hf. destruct co; [simpl in Hf; lia | discriminate].
  - unfold loads.
    replace (skip_ws co) with co
      by (symmetry; apply (skip_ws_at [] co); [reflexivity|];
          rewrite <- (app_nil_r co); apply framed_nows; exact Hf).
    specialize (Ht [] I). rewrite app_nil_r in Ht.
    destruct (scan_once (S (2 * length co)) recursion_limit co)
      as [v2 r2|e|] eqn:E2.
    + assert (Hlen : (length co <= length s)%nat)
        by (rewrite Hs, !length_app; lia).
      rewrite (scan_once_fuel_mono _ (S (2 * length s)) _ _ _ E2) in Ht
        by (discriminate || lia).
      injection Ht as -> ->. reflexivity.
    + assert (Hlen : (length co <= length s)%nat)
        by (rewrite Hs, !length_app; lia).
      rewrite (scan_once_fuel_mono _ (S (2 * length s)) _ _ _ E2) in Ht
        by (discriminate || lia).
      discriminate.
    + exfalso.
      apply (proj1 (scan_once_fuel (S (2 * length co))) recursion_limit co);
        [lia | exact E2].
Qed.

(** ** Serialization: numbers *)











(** ** Serialization: strings *)
























(** ** Serialization: values *)



















(** ** The values of the decoder are well formed *)








(** ** The values of the decoder are within the limits *)


















End Scanning.

(** ** Valid JSON objects and the round trip *)

Section Decoding.

Context `{Interpreter}.




Lemma decode_attempt_valid (s : pystr) (v : pyobj) :
  loads s = Ok v ->
  decode_attempt s = v /\ decode_outcome s = Ok v /\ blank s = false.
Proof.
  intros Hl. destruct (loads_strip s v Hl) as [Hne Hs].
  assert (Hb : blank s = false).
  { destruct (blank s) eqn:Hb; [|reflexivity].
    rewrite (strip_blank s Hb) in Hne. congruence. }
  unfold decode_attempt, decode_outcome. rewrite truthy_strip, Hb.
  replace (truthy s) with true by (destruct s; [discriminate | reflexivity]).
  simpl. rewrite Hs. auto.
Qed.

(** Both pipelines return a decoded value other than [None] as it
    is. *)
Lemma pipelines_decode_values (enable_logging : bool)
    (customs : list JSONParsingStrategy) (s : pystr) (v : pyobj) :
  loads s = Ok v -> is_not_None v = true ->
  outcome (parse (register_all (JSONParserOptimized_init enable_logging) customs)
             (PStr s)) = Ok v
  /\ outcome (json_str_parser_all_optimized (PStr s)) = Ok v.
Proof.
  intros Hl Hv. destruct (decode_attempt_valid s _ Hl) as (Hd & Ho & Hb).
  assert (Hs : truthy s = true) by (destruct s; [discriminate | reflexivity]).
  assert (Hfirst : forall rest,
             first_success (builtin_strategies ++ rest) s = Some v).
  { intros rest. unfold builtin_strategies. cbn [app].
    match goal with
    | |- first_success (?st :: ?sts) s = _ =>
        change (first_success (st :: sts) s)
          with (if is_not_None (decode_attempt s) then Some (decode_attempt s)
                else first_success sts s)
    end.
    rewrite Hd, Hv. reflexivity. }
  split.
  - unfold parse. rewrite truthy_strip, Hb, Hs.
    cbn [negb orb]. rewrite parse_loop_spec, strategies_register_all.
    cbn [_strategies JSONParserOptimized_init]. rewrite Hfirst. reflexivity.
  - rewrite (json_str_parser_all_optimized_outcome s Hs), Ho, Hv. reflexivity.
Qed.

(** C1. When the standard decoder reads a mapping from a text, [parse],
    for the default parser and for any parser with registered
    strategies, and the inlined pipeline return exactly that mapping. *)
Theorem parse_decodes_valid_objects (enable_logging : bool)
    (customs : list JSONParsingStrategy) (s : pystr) (m : list (pystr * pyobj)) :
  Json.loads s = Ok (PDict m) ->
  outcome (parse (register_all (JSONParserOptimized_init enable_logging) customs)
             (PStr s)) = Ok (PDict m)
  /\ outcome (json_str_parser_all_optimized (PStr s)) = Ok (PDict m).
Proof. intros Hl. apply pipelines_decode_values; [exact Hl | reflexivity]. Qed.


End Decoding.

Lemma parse_decodes_valid_objects_witness :
  let text := jtext " {`a`: [1, -2.5e3, `x\ny`], `b`: {`c`: null}} " in
  let m := [(py "a", PList [PInt 1; PFloat (-25) 2; PStr [120; 10; 121]]);
            (py "b", PDict [(py "c", PNone)])] in
  outcome (parse (register_all (JSONParserOptimized_init false) []) (PStr text))
  = Ok (PDict m)
  /\ outcome (json_str_parser_all_optimized (PStr text)) = Ok (PDict m).
Proof.
  intros text m.
  apply (parse_decodes_valid_objects false [] text m).
  vm_compute. reflexivity.
Defined.



(** ** Nesting deeper than the interpreter allows *)

Section DeepNesting.

Context `{Interpreter}.

Lemma scan_once_too_deep (d : nat) :
  forall n t, (2 * d < n)%nat ->
    scan_once n d (brackets (S d) ++ t) = Raised RecursionError.
Proof.
  induction d as [|d IH]; intros n t Hn.
  - destruct n as [|n]; [lia|]. reflexivity.
  - destruct n as [|[|n]]; try lia.
    change (brackets (S (S d)) ++ t)
      with (Ch.lbracket :: brackets (S d) ++ t).
    rewrite scan_once_S.
    change (Ch.lbracket =? Ch.dquote) with false.
    change (Ch.lbracket =? Ch.lbrace) with false.
    change (Ch.lbracket =? Ch.lbracket) with true. cbv iota.
    change (skip_ws (brackets (S d) ++ t)) with (brackets (S d) ++ t).
    change (brackets (S d) ++ t) with (Ch.lbracket :: brackets d ++ t) at 1.
    cbv iota.
    change (Ch.lbracket =? Ch.rbracket) with false. cbv iota.
    change (Ch.lbracket :: brackets d ++ t) with (brackets (S d) ++ t).
    rewrite array_loop_S, IH by lia. reflexivity.
Qed.

Lemma length_brackets (n : nat) : length (brackets n) = n.
Proof. apply length_replicate. Qed.

Lemma loads_too_deep (t : pystr) :
  loads (brackets (S recursion_limit) ++ t) = Raise RecursionError.
Proof.
  unfold loads.
  change (skip_ws (brackets (S recursion_limit) ++ t))
    with (brackets (S recursion_limit) ++ t).
  rewrite scan_once_too_deep; [reflexivity|].
  rewrite length_app, length_brackets. lia.
Qed.

Lemma brackets_snoc (n : nat) : brackets (S n) = brackets n ++ [Ch.lbracket].
Proof.
  unfold brackets. induction n as [|n IH]; [reflexivity|].
  change (replicate (S (S n)) Ch.lbracket)
    with (Ch.lbracket :: replicate (S n) Ch.lbracket).
  rewrite IH at 1. reflexivity.
Qed.

(** Text that opens more arrays than the decoder may enter, closed or
    not: stripping leaves it as it is, and decoding it raises. *)
Lemma strip_brackets (n : nat) (t : pystr) :
  t = [] \/ t = [Ch.rbrace] -> strip (brackets (S n) ++ t) = brackets (S n) ++ t.
Proof.
  intros [-> | ->].
  - rewrite app_nil_r.
    rewrite <- (strip_between [] [] Ch.lbracket Ch.lbracket (brackets n)
                  eq_refl eq_refl eq_refl eq_refl (brackets (S n)) eq_refl)
      at 2 by (exists (brackets n); apply brackets_snoc).
    rewrite app_nil_r. reflexivity.
  - rewrite <- (strip_between [] [] Ch.lbracket Ch.rbrace
                  (brackets n ++ [Ch.rbrace])
                  eq_refl eq_refl eq_refl eq_refl
                  (brackets (S n) ++ [Ch.rbrace]) eq_refl)
      at 2 by (exists (brackets (S n)); reflexivity).
    rewrite app_nil_r. reflexivity.
Qed.

Lemma decode_outcome_too_deep (t : pystr) :
  t = [] \/ t = [Ch.rbrace] ->
  decode_outcome (brackets (S recursion_limit) ++ t) = Raise RecursionError.
Proof.
  intros Ht. unfold decode_outcome.
  rewrite (strip_brackets _ t Ht), loads_too_deep. reflexivity.
Qed.

Lemma remove_nl_tab_cr_brackets (n : nat) :
  remove_nl_tab_cr (brackets n) = brackets n.
Proof.
  unfold brackets, remove_nl_tab_cr.
  induction n as [|n IH]; [reflexivity|]. simpl. rewrite IH. reflexivity.
Qed.

Lemma collapse_ws_brackets (n : nat) :
  forall b, collapse_ws_from b (brackets n) = brackets n.
Proof.
  unfold brackets.
  induction n as [|n IH]; intros b; [reflexivity|]. simpl. rewrite IH.
  reflexivity.
Qed.

Lemma sub_trailing_comma_brackets (close : N) (n : nat) :
  sub_trailing_comma close (brackets n) = brackets n.
Proof.
  unfold brackets, sub_trailing_comma.
  induction n as [|n IH]; [reflexivity|]. simpl. rewrite IH. reflexivity.
Qed.

Lemma quote_keys_brackets (n : nat) : quote_keys (brackets n) = brackets n.
Proof.
  unfold brackets, quote_keys.
  induction n as [|n IH]; [reflexivity|]. simpl. rewrite IH. reflexivity.
Qed.

Lemma replace_char_brackets (n : nat) :
  replace_char Ch.squote Ch.dquote (brackets n) = brackets n.
Proof.
  unfold brackets, replace_char.
  induction n as [|n IH]; [reflexivity|]. simpl. rewrite IH. reflexivity.
Qed.

Lemma repair_json_brackets (n : nat) :
  repair_json (brackets (S n)) = brackets (S n) ++ [Ch.rbrace].
Proof.
  unfold repair_json, repair_substitutions.
  pose proof (strip_brackets n [] (or_introl eq_refl)) as Hs.
  rewrite app_nil_r in Hs. rewrite Hs.
  rewrite !sub_trailing_comma_brackets, quote_keys_brackets,
    replace_char_brackets.
  assert (He : ends_with_any [Ch.rbrace; Ch.rbracket] (brackets (S n)) = false).
  { unfold ends_with_any. rewrite brackets_snoc, rev_app_distr. reflexivity. }
  unfold close_brackets.
  change (truthy (brackets (S n))) with true.
  change (starts_with_any [Ch.lbrace; Ch.lbracket] (brackets (S n))) with true.
  cbn [negb andb]. rewrite He. reflexivity.
Qed.

(** On such a text every built-in strategy fails, and the inlined
    pipeline raises at its first decode attempt. *)
Lemma first_success_too_deep :
  first_success builtin_strategies (brackets (S recursion_limit)) = None.
Proof.
  set (s := brackets (S recursion_limit)).
  assert (H1 : decode_attempt s = PNone).
  { apply (decode_outcome_Raise _ RecursionError).
    rewrite <- (app_nil_r s). apply decode_outcome_too_deep. auto. }
  assert (H2 : decode_attempt (s ++ [Ch.rbrace]) = PNone).
  { apply (decode_outcome_Raise _ RecursionError).
    apply decode_outcome_too_deep. auto. }
  assert (Hstrip : strip s = s).
  { pose proof (strip_brackets recursion_limit [] (or_introl eq_refl)) as Hs.
    rewrite app_nil_r in Hs. exact Hs. }
  unfold first_success, builtin_strategies, attempt, applied; cbn [processor].
  unfold collapse_ws. subst s.
  rewrite !remove_nl_tab_cr_brackets, !collapse_ws_brackets, !Hstrip,
    !repair_json_brackets, !H1, !H2.
  reflexivity.
Qed.

(** C10, at the failing input. On a text that opens one array more than
    the decoder may enter, [parse] returns the empty mapping, every
    strategy having failed, and the inlined pipeline raises
    [RecursionError]: its first decode attempt is outside any [try]. *)
Theorem inlined_pipeline_raises_on_deep_nesting (enable_logging : bool) :
  let s := brackets (S recursion_limit) in
  outcome (parse (JSONParserOptimized_init enable_logging) (PStr s))
  = Ok empty_dict
  /\ outcome (json_str_parser_all_optimized (PStr s)) = Raise RecursionError.
Proof.
  intros s. split.
  - unfold parse.
    pose proof (strip_brackets recursion_limit [] (or_introl eq_refl)) as Hs.
    rewrite app_nil_r in Hs. fold s in Hs. rewrite Hs.
    change (negb (truthy s) || negb (truthy s)) with false. cbv iota.
    rewrite parse_loop_spec. cbn [outcome snd JSONParserOptimized_init _strategies].
    unfold s. rewrite first_success_too_deep. reflexivity.
  - rewrite (json_str_parser_all_optimized_outcome s eq_refl).
    rewrite <- (app_nil_r s) at 1.
    unfold s. rewrite decode_outcome_too_deep by auto. reflexivity.
Qed.

End DeepNesting.

(** * Further properties of the code *)

(** ** The decode-attempt wrappers *)

Section Wrappers.

Context `{Interpreter}.

Lemma strip_padded (a s b : pystr) :
  blank a = true -> blank b = true -> strip (a ++ s ++ b) = strip s.
Proof.
  intros Ha Hb. unfold strip. rewrite lstrip_app, Ha, lstrip_app.
  destruct (blank s) eqn:Hs.
  - rewrite (lstrip_blank b Hb), (lstrip_blank s Hs). reflexivity.
  - unfold rstrip. rewrite rev_app_distr, lstrip_app, blank_rev, Hb. reflexivity.
Qed.

Lemma blank_padded (a s b : pystr) :
  blank a = true -> blank b = true -> blank (a ++ s ++ b) = blank s.
Proof.
  intros Ha Hb. rewrite !blank_app, Ha, Hb. simpl. apply andb_true_r.
Qed.

Lemma not_blank_truthy (s : pystr) : blank s = false -> truthy s = true.
Proof. destruct s; [discriminate | reflexivity]. Qed.

(** X1. The two decode-attempt wrappers are the same function: on
    every text they make the same call of the decoder and return the
    same value. *)
Theorem fast_wrapper_is_wrapper (s : pystr) :
  json_str_parser_fast s = json_str_parser s.
Proof. apply json_str_parser_fast_spec. Qed.

(** X2. Whitespace around a text, of any kind [str.strip] removes, is
    of no consequence to the wrapper: the decoder is called on the same
    stripped text, or not at all, and the value is the same. *)
Theorem wrapper_ignores_padding (a s b : pystr)
    (Ha : blank a = true) (Hb : blank b = true) :
  json_str_parser (a ++ s ++ b) = json_str_parser s.
Proof.
  unfold json_str_parser.
  rewrite (strip_padded a s b Ha Hb), !truthy_strip.
  destruct (blank s) eqn:Hs.
  - rewrite (strip_blank s Hs), !orb_true_r. reflexivity.
  - assert (Hp : blank (a ++ s ++ b) = false)
      by (rewrite blank_padded; assumption).
    rewrite (not_blank_truthy _ Hs), (not_blank_truthy _ Hp). reflexivity.
Qed.

End Wrappers.

Lemma wrapper_ignores_padding_witness :
  json_str_parser ([12; Ch.lf] ++ py "[1]" ++ [160])
  = json_str_parser (py "[1]").
Proof.
  apply (wrapper_ignores_padding [12; Ch.lf] (py "[1]") [160]); reflexivity.
Defined.

(** ** The repair transform *)

Section Repair.

Context `{Interpreter}.

Lemma starts_with_any_app (cs : list N) (x y : pystr) :
  starts_with_any cs x = true -> starts_with_any cs (x ++ y) = true.
Proof. destruct x; [discriminate | auto]. Qed.

Lemma close_brackets_wrapped (r : pystr) : wrapped (close_brackets r) = true.
Proof.
  unfold wrapped, close_brackets.
  set (r1 := if negb (starts_with_any [Ch.lbrace; Ch.lbracket] r)
             then Ch.lbrace :: r else r).
  assert (Hs : starts_with_any [Ch.lbrace; Ch.lbracket] r1 = true).
  { subst r1. destruct (starts_with_any _ r) eqn:E; simpl; [exact E | reflexivity]. }
  destruct (ends_with_any [Ch.rbrace; Ch.rbracket] r1) eqn:He; simpl.
  - rewrite Hs, He. reflexivity.
  - rewrite (starts_with_any_app _ _ _ Hs). unfold ends_with_any.
    rewrite rev_app_distr. reflexivity.
Qed.

Lemma repair_json_wrapped (s : pystr) :
  s <> [] -> wrapped (repair_json s) = true.
Proof.
  intros Hs. unfold repair_json.
  destruct s as [|c r]; [congruence|]. cbn [truthy negb].
  fold (wrapped (repair_substitutions (c :: r))).
  destruct (wrapped (repair_substitutions (c :: r))) eqn:E; simpl.
  - exact E.
  - apply close_brackets_wrapped.
Qed.

(** X3. The text the repair transform returns for a text that is not
    empty starts with an opening brace or bracket and ends with a
    closing brace or bracket; [repair_json_fast] does the same for a
    text that is not blank. *)
Theorem repair_json_is_wrapped (s : pystr) :
  (s <> [] -> wrapped (repair_json s) = true)
  /\ (blank s = false -> wrapped (repair_json_fast s) = true).
Proof.
  split.
  - apply repair_json_wrapped.
  - intros Hb. rewrite (repair_json_fast_not_blank s Hb).
    apply repair_json_wrapped. destruct s; [discriminate | congruence].
Qed.

Lemma replace_char_absent (a b : N) (s : pystr) :
  a <> b -> ~ In a (replace_char a b s).
Proof.
  intros Hab. unfold replace_char. rewrite in_map_iff.
  intros (c & Hc & _). destruct (N.eqb_spec c a); congruence.
Qed.

Lemma close_brackets_In (c : N) (r : pystr) :
  In c (close_brackets r) -> c = Ch.lbrace \/ c = Ch.rbrace \/ In c r.
Proof.
  unfold close_brackets.
  destruct (negb (starts_with_any _ r));
    match goal with |- context [if ?b then _ else _] => destruct b end;
    rewrite ?in_app_iff; simpl; intuition auto.
Qed.

Lemma repair_substitutions_no_quote (s : pystr) :
  ~ In Ch.squote (repair_substitutions s).
Proof. apply replace_char_absent. discriminate. Qed.

(** X4. No single quote is left in the text either repair function
    returns: every one of them, an apostrophe inside a string as well,
    has become a double quote. *)
Theorem repair_leaves_no_single_quote (s : pystr) :
  ~ In Ch.squote (repair_json s) /\ ~ In Ch.squote (repair_json_fast s).
Proof.
  pose proof (repair_substitutions_no_quote s) as Hq.
  assert (Hc : ~ In Ch.squote (close_brackets (repair_substitutions s))).
  { intros Hin. apply close_brackets_In in Hin as [E|[E|E]];
      [discriminate | discriminate | auto]. }
  unfold repair_json, repair_json_fast.
  destruct s as [|c r]; [simpl; tauto|]. cbn [truthy negb].
  split; match goal with |- context [if ?b then _ else _] => destruct b end;
    assumption.
Qed.

(** X5. The two repair functions return the same text for every text
    that is not blank. For a blank text [repair_json_fast] returns the
    empty text, and [repair_json] the text of an empty object unless
    its argument is empty. *)
Theorem repair_functions_differ_on_blank_only (s : pystr) :
  (blank s = false -> repair_json_fast s = repair_json s)
  /\ (blank s = true ->
      repair_json_fast s = []
      /\ (s <> [] -> repair_json s = [Ch.lbrace; Ch.rbrace])).
Proof.
  split; [apply repair_json_fast_not_blank|].
  intros Hb. unfold repair_json_fast, repair_json.
  rewrite (repair_substitutions_blank s Hb).
  destruct s as [|c r]; [split; [reflexivity | congruence]|].
  split; reflexivity.
Qed.

End Repair.

Lemma repair_json_is_wrapped_witness :
  wrapped (repair_json (py "a: 1")) = true
  /\ wrapped (repair_json_fast (py "[1, 2")) = true.
Proof.
  split.
  - apply (proj1 (repair_json_is_wrapped (py "a: 1"))). discriminate.
  - apply (proj2 (repair_json_is_wrapped (py "[1, 2"))). reflexivity.
Defined.

Lemma repair_functions_differ_on_blank_only_witness :
  repair_json_fast (py "{'a': 1,}") = repair_json (py "{'a': 1,}")
  /\ repair_json_fast [Ch.space; Ch.lf] = []
  /\ repair_json [Ch.space; Ch.lf] = [Ch.lbrace; Ch.rbrace].
Proof.
  split; [|split].
  - apply (proj1 (repair_functions_differ_on_blank_only (py "{'a': 1,}"))).
    reflexivity.
  - apply (proj2 (repair_functions_differ_on_blank_only [Ch.space; Ch.lf])).
    reflexivity.
  - apply (proj2 (repair_functions_differ_on_blank_only [Ch.space; Ch.lf]));
      [reflexivity | discriminate].
Defined.

(** ** What the pipelines return *)

Section PipelineResults.

Context `{Interpreter}.

Lemma Ok_inj {A} (a b : A) : Ok a = Ok b -> a = b.
Proof. congruence. Qed.

Lemma first_success_not_None (sts : list JSONParsingStrategy) (s : pystr) :
  is_not_None (default empty_dict (first_success sts s)) = true.
Proof.
  induction sts as [|st sts IH]; simpl; [reflexivity|].
  destruct (is_not_None (attempt st s)) eqn:E; [exact E | exact IH].
Qed.


Lemma decode_attempt_not_blank (s : pystr) :
  blank s = false ->
  decode_attempt s
  = match Json.loads (strip s) with Ok v => v | Raise _ => PNone end.
Proof.
  intros Hb. unfold decode_attempt.
  rewrite truthy_strip, Hb, (not_blank_truthy s Hb). reflexivity.
Qed.

Lemma decoder_calls_not_blank (s : pystr) :
  blank s = false -> decoder_calls s = [CallDecoder (strip s)].
Proof.
  intros Hb. unfold decoder_calls.
  rewrite truthy_strip, Hb, (not_blank_truthy s Hb). reflexivity.
Qed.

Lemma parse_value (self : JSONParserOptimized) (s : pystr) :
  blank s = false ->
  parse self (PStr s)
  = (loop_calls 0 (_strategies self) s,
     Ok (default empty_dict (first_success (_strategies self) s))).
Proof.
  intros Hb. unfold parse.
  rewrite truthy_strip, Hb, (not_blank_truthy s Hb). cbn [negb orb].
  apply parse_loop_spec.
Qed.

Lemma guarded_outcome (t : list call) (x : pystr) :
  try_except (t, decode_outcome x) Exception (ret PNone)
  = (t, Ok (decode_attempt x)).
Proof.
  rewrite decode_attempt_outcome. unfold try_except, Exception, ret.
  destruct (decode_outcome x); [reflexivity|].
  rewrite app_nil_r. reflexivity.
Qed.

Lemma steps_value (s : pystr) :
  outcome (json_str_parser_all_refactored (PStr s))
  = Ok (default empty_dict (first_success (List.map step_strategy steps) s)).
Proof.
  unfold json_str_parser_all_refactored, steps. cbn [steps_loop List.map].
  unfold first_success, attempt, applied, step_strategy; cbn [processor].
  unfold lift. cbn [bind].
  rewrite !json_str_parser_fast_spec, !json_str_parser_spec.
  cbv beta iota. rewrite !guarded_outcome.
  unfold bind, ret, outcome.
  repeat (match goal with
          | |- context [is_not_None (decode_attempt ?x)] =>
              destruct (is_not_None (decode_attempt x)) eqn:?
          end; cbn [snd default]);
    reflexivity.
Qed.

Lemma decode_outcome_not_blank (s : pystr) :
  blank s = false ->
  decode_outcome s
  = match Json.loads (strip s) with
    | Ok v => Ok v
    | Raise e => if decode_errors e then Ok PNone else Raise e
    end.
Proof.
  intros Hb. unfold decode_outcome.
  rewrite truthy_strip, Hb, (not_blank_truthy s Hb). reflexivity.
Qed.

(** What the inlined pipeline returns, when it returns, is not
    [None]. *)
Lemma json_str_parser_all_optimized_not_None (s : pystr) (v : pyobj) :
  outcome (json_str_parser_all_optimized (PStr s)) = Ok v ->
  is_not_None v = true.
Proof.
  destruct (truthy s) eqn:Hs.
  2:{ destruct s; [|discriminate]. intros E. injection E as <-. reflexivity. }
  rewrite (json_str_parser_all_optimized_outcome s Hs). cbv zeta.
  repeat (match goal with
          | |- context [match decode_outcome ?x with _ => _ end] =>
              destruct (decode_outcome x) as [?v|?e]
          | |- context [if bool_decide ?P then _ else _] =>
              destruct (bool_decide P)
          | |- context [if is_not_None ?w then _ else _] =>
              destruct (is_not_None w) eqn:?
          end; cbn [is_not_None]);
    intros E; try discriminate; injection E as <-;
    (assumption || reflexivity).
Qed.



Lemma first_success_app (a b : list JSONParsingStrategy) (s : pystr) :
  first_success (a ++ b) s
  = match first_success a s with
    | Some v => Some v
    | None => first_success b s
    end.
Proof.
  induction a as [|st a IH]; simpl; [reflexivity|].
  destruct (is_not_None (attempt st s)); [reflexivity | exact IH].
Qed.

(** X6. Whatever any of the pipelines returns is not [None]: a text
    that decodes to [null] counts as one that does not decode. *)
Theorem results_are_never_None (json_str v : pyobj) :
  (forall self, outcome (parse self json_str) = Ok v -> is_not_None v = true)
  /\ (outcome (json_str_parser_all_optimized json_str) = Ok v ->
      is_not_None v = true)
  /\ (outcome (json_str_parser_all_refactored json_str) = Ok v ->
      is_not_None v = true).
Proof.
  destruct json_str as [| | | | |s| |];
    try (repeat split; intros; simpl in *;
         match goal with E : Ok _ = Ok _ |- _ => injection E as <- end;
         reflexivity).
  split; [|split].
  - intros self. destruct (blank s) eqn:Hb.
    + rewrite (parse_blank self s Hb). intros [= <-]. reflexivity.
    + rewrite (parse_value self s Hb).
      intros E. apply Ok_inj in E. rewrite <- E.
      apply first_success_not_None.
  - destruct (blank s) eqn:Hb.
    + rewrite (json_str_parser_all_optimized_blank s Hb). intros [= <-]. reflexivity.
    + apply json_str_parser_all_optimized_not_None.
  - rewrite steps_value. intros E. apply Ok_inj in E. rewrite <- E.
    apply first_success_not_None.
Qed.

(** X7. A text the decoder accepts, with a value other than [null], is
    decoded once and by the first strategy: [parse] calls the identity
    transform and then the decoder on the stripped text, and nothing
    more; the inlined pipeline calls the decoder once. *)
Theorem valid_text_is_decoded_once
    (enable_logging : bool) (customs : list JSONParsingStrategy)
    (s : pystr) (v : pyobj)
    (Hv : Json.loads (strip s) = Ok v) (Hn : is_not_None v = true) :
  parse (register_all (JSONParserOptimized_init enable_logging) customs) (PStr s)
  = ([CallTransform 0; CallDecoder (strip s)], Ok v)
  /\ json_str_parser_all_optimized (PStr s) = ([CallDecoder (strip s)], Ok v).
Proof.
  assert (Hb : blank s = false).
  { destruct (blank s) eqn:Hb; [|reflexivity].
    rewrite (strip_blank s Hb) in Hv. discriminate. }
  assert (Ha : decode_attempt s = v)
    by (rewrite (decode_attempt_not_blank s Hb), Hv; reflexivity).
  split.
  - rewrite (parse_value _ s Hb), strategies_register_all.
    cbn [JSONParserOptimized_init _strategies builtin_strategies app
         loop_calls first_success].
    unfold attempt, applied; cbn [processor].
    rewrite Ha, Hn, (decoder_calls_not_blank s Hb). reflexivity.
  - unfold json_str_parser_all_optimized.
    rewrite (not_blank_truthy s Hb). cbn [negb].
    rewrite json_str_parser_fast_spec, json_str_parser_spec.
    unfold return_unless_None, bind.
    rewrite (decode_outcome_not_blank s Hb), Hv, Hn,
      (decoder_calls_not_blank s Hb).
    reflexivity.
Qed.

Lemma first_success_skip (a b : list JSONParsingStrategy)
    (c : JSONParsingStrategy) (s : pystr) :
  is_not_None (attempt c s) = false ->
  first_success (a ++ c :: b) s = first_success (a ++ b) s.
Proof.
  intros Hc. rewrite !first_success_app. simpl. rewrite Hc. reflexivity.
Qed.

Lemma first_success_direct (s : pystr) :
  is_not_None (decode_attempt s) = true ->
  forall rest,
    first_success (builtin_strategies ++ rest) s = Some (decode_attempt s).
Proof.
  intros Hd rest.
  change (first_success (builtin_strategies ++ rest) s)
    with (if is_not_None (decode_attempt s) then Some (decode_attempt s)
          else first_success (tl builtin_strategies ++ rest) s).
  rewrite Hd. reflexivity.
Qed.

(** X8. A registered strategy whose transform raises on the input
    never decides the result: [parse] returns what it returns without
    that strategy. *)
Theorem raising_strategy_is_as_absent
    (enable_logging : bool) (cs1 cs2 : list JSONParsingStrategy)
    (c : JSONParsingStrategy) (s : pystr) (e : exn)
    (Hr : processor c s = Raise e) :
  outcome (parse (register_all (JSONParserOptimized_init enable_logging)
                    (cs1 ++ c :: cs2)) (PStr s))
  = outcome (parse (register_all (JSONParserOptimized_init enable_logging)
                      (cs1 ++ cs2)) (PStr s)).
Proof.
  destruct (blank s) eqn:Hb.
  - rewrite !(parse_blank _ s Hb). reflexivity.
  - rewrite !(parse_value _ s Hb), !strategies_register_all.
    unfold outcome; cbn [snd]. f_equal. f_equal.
    cbn [JSONParserOptimized_init _strategies].
    assert (Hc : attempt c s = decode_attempt s)
      by (unfold attempt, applied; rewrite Hr; reflexivity).
    destruct (is_not_None (decode_attempt s)) eqn:Hd.
    + rewrite !(first_success_direct s Hd). reflexivity.
    + rewrite !(app_assoc builtin_strategies).
      apply first_success_skip. rewrite Hc. exact Hd.
Qed.

Lemma strategies_add_custom_strategies (functions : list (pystr -> exc pystr)) :
  forall parser i,
    _strategies (add_custom_strategies parser i functions)
    = _strategies parser ++ numbered i functions.
Proof.
  induction functions as [|f fs IH]; intros parser i; simpl.
  - rewrite app_nil_r. reflexivity.
  - rewrite IH. simpl. rewrite <- app_assoc. reflexivity.
Qed.

Lemma names_numbered (functions : list (pystr -> exc pystr)) :
  forall i,
    List.map name (numbered i functions)
    = List.map custom_name (seq i (length functions)).
Proof.
  induction functions as [|f fs IH]; intros i; simpl; [reflexivity|].
  rewrite IH. reflexivity.
Qed.

(** X9. [json_str_parser_all_advanced] with no functions, or an empty
    list of them, is [json_str_parser_all]. With functions, it returns
    the first decode attempt that succeeds among the six built-in
    strategies and then the functions in the order of the list, or the
    empty mapping; the functions are registered under the names
    [custom_name 0], [custom_name 1] and so on. *)
Theorem advanced_tries_functions_after_builtins
    (functions : list (pystr -> exc pystr)) (enable_logging : bool) :
  (forall json_str,
     json_str_parser_all_advanced json_str None enable_logging
     = json_str_parser_all json_str enable_logging
     /\ json_str_parser_all_advanced json_str (Some []) enable_logging
        = json_str_parser_all json_str enable_logging)
  /\ (forall s,
        blank s = false ->
        outcome (json_str_parser_all_advanced (PStr s) (Some functions)
                   enable_logging)
        = Ok (default empty_dict
                (first_success (builtin_strategies ++ numbered 0 functions) s)))
  /\ get_strategies
       (add_custom_strategies (JSONParserOptimized_init enable_logging) 0 functions)
     = get_strategies (JSONParserOptimized_init enable_logging)
       ++ List.map custom_name (seq 0 (length functions)).
Proof.
  split; [|split].
  - intros json_str. split; reflexivity.
  - intros s Hb. unfold json_str_parser_all_advanced.
    destruct functions as [|f fs].
    + rewrite (parse_value _ s Hb), app_nil_r. reflexivity.
    + rewrite (parse_value _ s Hb), strategies_add_custom_strategies. reflexivity.
  - unfold get_strategies.
    rewrite strategies_add_custom_strategies, map_app, names_numbered.
    reflexivity.
Qed.


End PipelineResults.

Lemma results_are_never_None_witness :
  outcome (parse (JSONParserOptimized_init false) (PStr (py "null")))
  = Ok empty_dict
  /\ is_not_None empty_dict = true.
Proof.
  assert (E : outcome (parse (JSONParserOptimized_init false) (PStr (py "null")))
              = Ok empty_dict) by (vm_compute; reflexivity).
  split; [exact E|].
  exact (proj1 (results_are_never_None (PStr (py "null")) empty_dict)
           (JSONParserOptimized_init false) E).
Defined.

Lemma valid_text_is_decoded_once_witness :
  parse (register_all (JSONParserOptimized_init false) [raising_strategy])
    (PStr (jtext " {`a`: [1, 2]} "))
  = ([CallTransform 0; CallDecoder (jtext "{`a`: [1, 2]}")],
     Ok (PDict [(py "a", PList [PInt 1; PInt 2])]))
  /\ json_str_parser_all_optimized (PStr (jtext " {`a`: [1, 2]} "))
     = ([CallDecoder (jtext "{`a`: [1, 2]}")],
        Ok (PDict [(py "a", PList [PInt 1; PInt 2])])).
Proof.
  apply (valid_text_is_decoded_once false [raising_strategy]
           (jtext " {`a`: [1, 2]} ") (PDict [(py "a", PList [PInt 1; PInt 2])]));
    reflexivity.
Defined.

Lemma raising_strategy_is_as_absent_witness :
  outcome (parse (register_all (JSONParserOptimized_init false)
                    ([] ++ raising_strategy :: [constant_strategy (py "[7]")]))
             (PStr (py "x")))
  = outcome (parse (register_all (JSONParserOptimized_init false)
                      ([] ++ [constant_strategy (py "[7]")]))
               (PStr (py "x"))).
Proof.
  apply (raising_strategy_is_as_absent false [] [constant_strategy (py "[7]")]
           raising_strategy (py "x") RuntimeError).
  reflexivity.
Defined.

Lemma advanced_tries_functions_after_builtins_witness :
  outcome (json_str_parser_all_advanced (PStr (py "x"))
             (Some [fun _ => Raise RuntimeError; fun _ => Ok (py "[7]")]) false)
  = Ok (default empty_dict
          (first_success
             (builtin_strategies
              ++ numbered 0 [fun _ => Raise RuntimeError; fun _ => Ok (py "[7]")])
             (py "x"))).
Proof.
  apply (proj1 (proj2 (advanced_tries_functions_after_builtins
                         [fun _ => Raise RuntimeError; fun _ => Ok (py "[7]")]
                         false))).
  reflexivity.
Defined.


(** ** The cache: hits, misses and the bypass *)

Section CacheCalls.

Context `{Interpreter}.

Lemma store_scalar (x : pyobj) (h : list obj) :
  is_container x = false ->
  snd (store x h) = h /\ copy (fst (store x h)) h = (Raise AttributeError, h).
Proof. destruct x; simpl; try discriminate; auto. Qed.

Lemma store_container (x : pyobj) (h : list obj) (v : val) (h' : list obj) :
  is_container x = true -> store x h = (v, h') ->
  exists l o, v = VRef l /\ h' !! l = Some o.
Proof.
  destruct x; intros Hk Hs; try discriminate Hk.
  - rewrite store_PList in Hs. destruct (store_items items h) as [vs h1].
    injection Hs as <- <-. exists (length h1), (OList vs).
    split; [reflexivity|]. apply list_lookup_middle. reflexivity.
  - rewrite store_PDict in Hs. destruct (store_pairs items h) as [kvs h1].
    injection Hs as <- <-. exists (length h1), (ODict kvs).
    split; [reflexivity|]. apply list_lookup_middle. reflexivity.
Qed.

Lemma load_ref (n : nat) (h : list obj) (l : loc) :
  load (S n) h (VRef l)
  = match h !! l with
    | Some (OList vs) => PList <$> mapM (load n h) vs
    | Some (ODict kvs) =>
        PDict <$> mapM (fun kv => pair (fst kv) <$> load n h (snd kv)) kvs
    | None => None
    end.
Proof. reflexivity. Qed.

(** X11. With [use_cache] off the cache is neither read nor written:
    the call returns the result of the pipeline, also for a key that is
    cached, and leaves the cache as it was. *)
Theorem cache_bypass_leaves_cache (json_str : pyobj) (st : state) :
  _parse_cache (snd (json_str_parser_all_cached json_str false st))
  = _parse_cache st
  /\ forall result,
       outcome (json_str_parser_all_optimized json_str) = Ok result ->
       returned (json_str_parser_all_cached json_str false st) = Some result.
Proof.
  destruct json_str as [| | | | |key| |];
    try (split; [reflexivity|]; intros result E; apply Ok_inj in E; subst result;
         apply (read_store empty_dict st)).
  unfold json_str_parser_all_cached.
  destruct (outcome (json_str_parser_all_optimized (PStr key))) as [r|e].
  - cbn [andb]. split.
    + destruct (store r (heap st)); reflexivity.
    + intros result E. apply Ok_inj in E. subst r.
      pose proof (read_store result st) as Hr.
      destruct (store result (heap st)); exact Hr.
  - split; [reflexivity | discriminate].
Qed.

(** X12. When the pipeline returns a value that is not a list or a
    mapping (a number, a string, a boolean), a call that would cache it
    raises [AttributeError], for the value has no [copy]; nothing is
    stored. *)
Theorem cached_scalar_raises (key : pystr) (st : state) (result : pyobj)
    (Hres : outcome (json_str_parser_all_optimized (PStr key)) = Ok result)
    (Hs : is_container result = false)
    (Hmiss : _parse_cache st !! key = None)
    (Hroom : (size (_parse_cache st) < _cache_size_limit)%nat) :
  fst (json_str_parser_all_cached (PStr key) true st) = Raise AttributeError
  /\ _parse_cache (snd (json_str_parser_all_cached (PStr key) true st))
     = _parse_cache st
  /\ heap (snd (json_str_parser_all_cached (PStr key) true st)) = heap st.
Proof.
  unfold json_str_parser_all_cached. rewrite Hmiss, Hres.
  destruct (store_scalar result (heap st) Hs) as [Hh Hc].
  destruct (store result (heap st)) as [v h]. simpl in Hh, Hc. subst h.
  cbn [andb]. rewrite bool_decide_eq_true_2 by exact Hroom.
  rewrite Hc. auto.
Qed.

(** X13. A call never removes or replaces an entry of the cache: what
    is cached under a key stays cached under it, the very same object,
    until the cache is cleared. *)
Theorem cached_entries_persist
    (json_str : pyobj) (use_cache : bool) (st : state) (key : pystr) (c : val)
    (Hc : _parse_cache st !! key = Some c) :
  _parse_cache (snd (json_str_parser_all_cached json_str use_cache st)) !! key
  = Some c.
Proof.
  unfold json_str_parser_all_cached.
  destruct json_str as [| | | | |key'| |];
    try (destruct (store empty_dict (heap st)); exact Hc).
  destruct (if use_cache then _parse_cache st !! key' else None) as [c'|] eqn:Hk.
  - destruct (copy c' (heap st)). exact Hc.
  - destruct (outcome _) as [result|e]; [|exact Hc].
    destruct (store result (heap st)) as [v h].
    destruct use_cache; simpl; [|exact Hc].
    case_bool_decide; simpl; [|exact Hc].
    destruct (copy v h) as [[c'|e] h']; simpl; [|exact Hc].
    rewrite lookup_insert_ne; [exact Hc|]. congruence.
Qed.

Lemma copy_grows (v : val) (h : list obj) :
  exists ext, snd (copy v h) = h ++ ext.
Proof.
  destruct v; try (exists []; simpl; rewrite app_nil_r; reflexivity).
  simpl. destruct (h !! l) as [o|].
  - exists [o]. reflexivity.
  - exists []. simpl. rewrite app_nil_r. reflexivity.
Qed.

Lemma cache_live_grows (st : state) (ext : list obj) :
  cache_live st -> cache_live (with_heap st (heap st ++ ext)).
Proof.
  intros Hl key c Hc. destruct (Hl key c Hc) as (l & o & -> & Ho).
  exists l, o. split; [reflexivity|]. simpl.
  apply lookup_app_l_Some. exact Ho.
Qed.

Lemma cached_preserves_live (json_str : pyobj) (use_cache : bool) (st : state) :
  cache_live st ->
  cache_live (snd (json_str_parser_all_cached json_str use_cache st)).
Proof.
  intros Hl. unfold json_str_parser_all_cached.
  assert (Hempty : cache_live
            (snd (let '(v, h) := store empty_dict (heap st) in
                  (Ok v, with_heap st h)))).
  { pose proof (store_well empty_dict (heap st)) as Hw.
    destruct (store empty_dict (heap st)) as [v h].
    destruct (Hw v h eq_refl) as (ext & -> & _). apply cache_live_grows, Hl. }
  destruct json_str as [| | | | |key| |]; try exact Hempty.
  destruct (if use_cache then _parse_cache st !! key else None) as [c|] eqn:Hk.
  - destruct (copy_grows c (heap st)) as [ext He].
    destruct (copy c (heap st)) as [r h]. simpl in He. subst h.
    apply cache_live_grows, Hl.
  - destruct (outcome _) as [result|e]; [|exact Hl].
    pose proof (store_well result (heap st)) as Hw.
    destruct (store result (heap st)) as [v h] eqn:Es.
    destruct (Hw v h eq_refl) as (ext & -> & _).
    assert (Hg : cache_live (with_heap st (heap st ++ ext)))
      by (apply cache_live_grows, Hl).
    destruct (use_cache && _); [|exact Hg].
    destruct (copy_grows v (heap st ++ ext)) as [ext2 He].
    destruct (copy v (heap st ++ ext)) as [[c|e] h'] eqn:Ec; simpl in He; subst h'.
    + intros key' c' Hc'. simpl in Hc'. simpl.
      destruct (decide (key = key')) as [<-|Hne].
      * rewrite lookup_insert_eq in Hc'. injection Hc' as <-.
        destruct v as [| | | | | |l]; try discriminate. simpl in Ec.
        destruct ((heap st ++ ext) !! l) as [o|] eqn:Ho; [|discriminate].
        injection Ec as <- Hh.
        exists (length (heap st ++ ext)), o. split; [reflexivity|].
        rewrite <- Hh. apply list_lookup_middle. reflexivity.
      * rewrite lookup_insert_ne in Hc' by exact Hne.
        destruct (Hg key' c' Hc') as (l & o & -> & Ho). simpl in Ho.
        exists l, o. split; [reflexivity|]. apply lookup_app_l_Some. exact Ho.
    + rewrite <- app_assoc. apply cache_live_grows, Hl.
Qed.

Lemma run_ops_live (ops : list cache_op) :
  forall st, cache_live st -> cache_live (run_ops ops st).
Proof.
  unfold run_ops.
  induction ops as [|op ops IH]; intros st Hl; simpl; [exact Hl|].
  apply IH. destruct op as [json_str use_cache|]; simpl.
  - apply cached_preserves_live. exact Hl.
  - intros key c Hc. simpl in Hc. rewrite lookup_empty in Hc. discriminate.
Qed.

Lemma cached_hit (key : pystr) (st : state) (c : val) :
  _parse_cache st !! key = Some c ->
  json_str_parser_all_cached (PStr key) true st
  = let '(r, h) := copy c (heap st) in (r, with_heap st h).
Proof. intros Hc. unfold json_str_parser_all_cached. rewrite Hc. reflexivity. Qed.

(** X14. After any sequence of cached calls and clearings, a call with
    a key that is cached does not raise: it returns a reference to a
    new object, not the cached one, and leaves the cache as it was. *)
Theorem cache_hits_never_raise (ops : list cache_op) (key : pystr) (c : val)
    (Hc : _parse_cache (run_ops ops initial_state) !! key = Some c) :
  let st := run_ops ops initial_state in
  let hit := json_str_parser_all_cached (PStr key) true st in
  fst hit = Ok (VRef (length (heap st)))
  /\ c <> VRef (length (heap st))
  /\ heap (snd hit) !! length (heap st)
     = match c with VRef l => heap st !! l | _ => None end
  /\ _parse_cache (snd hit) = _parse_cache st.
Proof.
  intros st hit.
  assert (Hl : cache_live st).
  { apply run_ops_live. intros k c' Hk. simpl in Hk.
    rewrite lookup_empty in Hk. discriminate. }
  destruct (Hl key c Hc) as (l & o & -> & Ho).
  subst hit. rewrite (cached_hit key st (VRef l) Hc).
  simpl. rewrite Ho. simpl. split; [reflexivity|]. split.
  - intros [= ->]. apply lookup_lt_Some in Ho. lia.
  - split; [|reflexivity]. apply list_lookup_middle. reflexivity.
Qed.

Lemma cached_miss_stores (key : pystr) (st : state) (result : pyobj)
    (l : loc) (h1 : list obj) (o : obj) :
  outcome (json_str_parser_all_optimized (PStr key)) = Ok result ->
  _parse_cache st !! key = None ->
  (size (_parse_cache st) < _cache_size_limit)%nat ->
  store result (heap st) = (VRef l, h1) ->
  h1 !! l = Some o ->
  json_str_parser_all_cached (PStr key) true st
  = (Ok (VRef l),
     {| heap := h1 ++ [o];
        _parse_cache := <[key := VRef (length h1)]> (_parse_cache st) |}).
Proof.
  intros Hres Hmiss Hroom Es Ho. unfold json_str_parser_all_cached.
  rewrite Hmiss, Hres, Es. cbn [andb].
  rewrite bool_decide_eq_true_2 by exact Hroom.
  simpl. rewrite Ho. reflexivity.
Qed.

(** X15. A call that caches its result and the next call with the same
    key return equal values in two distinct objects; the second call
    does not change the cache. *)
Theorem cached_twice_returns_equal (key : pystr) (st : state) (result : pyobj)
    (Hres : outcome (json_str_parser_all_optimized (PStr key)) = Ok result)
    (Hk : is_container result = true)
    (Hmiss : _parse_cache st !! key = None)
    (Hroom : (size (_parse_cache st) < _cache_size_limit)%nat) :
  let first := json_str_parser_all_cached (PStr key) true st in
  let second := json_str_parser_all_cached (PStr key) true (snd first) in
  returned first = Some result
  /\ returned second = Some result
  /\ fst first <> fst second
  /\ _parse_cache (snd second) = _parse_cache (snd first).
Proof.
  intros first second. subst second.
  pose proof (store_well result (heap st)) as Hw.
  destruct (store result (heap st)) as [v h1] eqn:Es.
  destruct (Hw v h1 eq_refl) as (ext & -> & Hd & Hload).
  destruct (store_container result _ _ _ Hk Es) as (l & o & -> & Ho).
  assert (Hf : first = (Ok (VRef l),
                        {| heap := (heap st ++ ext) ++ [o];
                           _parse_cache :=
                             <[key := VRef (length (heap st ++ ext))]>
                               (_parse_cache st) |}))
    by (apply (cached_miss_stores key st result l _ o); assumption).
  clearbody first. subst first. cbn [fst snd].
  rewrite (cached_hit key _ (VRef (length (heap st ++ ext))))
    by (simpl; apply lookup_insert_eq).
  simpl copy. rewrite list_lookup_middle by reflexivity.
  cbn [fst snd returned]. unfold read, with_heap. cbn [heap].
  split; [|split; [|split]].
  - apply Hload. rewrite !length_app. simpl. lia.
  - rewrite load_ref.
    rewrite list_lookup_middle by (rewrite length_app; reflexivity).
    specialize (Hload [o; o] (S (length (((heap st ++ ext) ++ [o]) ++ [o])))).
    rewrite load_ref in Hload.
    rewrite (lookup_app_l_Some _ _ _ _ Ho) in Hload.
    rewrite <- !app_assoc. cbn [app]. rewrite <- !app_assoc in Hload.
    apply Hload. rewrite !length_app. simpl. lia.
  - intros [= E]. apply lookup_lt_Some in Ho. rewrite length_app in E.
    simpl in E. lia.
  - reflexivity.
Qed.

End CacheCalls.

Lemma cache_bypass_leaves_cache_witness :
  returned (json_str_parser_all_cached (PStr (py "[1]")) false initial_state)
  = Some (PList [PInt 1]).
Proof.
  apply (proj2 (cache_bypass_leaves_cache (PStr (py "[1]")) initial_state)).
  vm_compute. reflexivity.
Defined.

Lemma cached_scalar_raises_witness :
  fst (json_str_parser_all_cached (PStr (py "123")) true initial_state)
  = Raise AttributeError
  /\ _parse_cache (snd (json_str_parser_all_cached (PStr (py "123")) true
                          initial_state))
     = _parse_cache initial_state
  /\ heap (snd (json_str_parser_all_cached (PStr (py "123")) true initial_state))
     = heap initial_state.
Proof.
  apply (cached_scalar_raises (py "123") initial_state (PInt 123)).
  - vm_compute. reflexivity.
  - reflexivity.
  - vm_compute. reflexivity.
  - vm_compute. lia.
Defined.

Lemma cached_entries_persist_witness :
  let st := snd (json_str_parser_all_cached (PStr (py "{}")) true initial_state) in
  _parse_cache (snd (json_str_parser_all_cached (PStr (py "[1]")) true st))
    !! py "{}"
  = Some (VRef 1%nat).
Proof.
  intros st.
  apply (cached_entries_persist (PStr (py "[1]")) true st (py "{}") (VRef 1%nat)).
  vm_compute. reflexivity.
Defined.

Lemma cache_hits_never_raise_witness :
  let st := run_ops [Cached (PStr (py "{}")) true] initial_state in
  let hit := json_str_parser_all_cached (PStr (py "{}")) true st in
  fst hit = Ok (VRef (length (heap st)))
  /\ VRef 1%nat <> VRef (length (heap st))
  /\ heap (snd hit) !! length (heap st) = heap st !! 1%nat
  /\ _parse_cache (snd hit) = _parse_cache st.
Proof.
  apply (cache_hits_never_raise [Cached (PStr (py "{}")) true] (py "{}") (VRef 1%nat)).
  vm_compute. reflexivity.
Defined.

Lemma cached_twice_returns_equal_witness :
  let first :=
    json_str_parser_all_cached (PStr (jtext "{`a`: [1]}")) true initial_state in
  let second :=
    json_str_parser_all_cached (PStr (jtext "{`a`: [1]}")) true (snd first) in
  returned first = Some (PDict [(py "a", PList [PInt 1])])
  /\ returned second = Some (PDict [(py "a", PList [PInt 1])])
  /\ fst first <> fst second
  /\ _parse_cache (snd second) = _parse_cache (snd first).
Proof.
  apply (cached_twice_returns_equal (jtext "{`a`: [1]}") initial_state
           (PDict [(py "a", PList [PInt 1])])).
  - vm_compute. reflexivity.
  - reflexivity.
  - vm_compute. reflexivity.
  - vm_compute. lia.
Defined.

(** ** The whitespace-collapsing transform *)

Section DeepCleaning.

Lemma spaced_collapse (x : pystr) :
  forall b, spaced_from b (collapse_ws_from b x) = true.
Proof.
  induction x as [|c r IH]; intros b; simpl; [reflexivity|].
  destruct (isspace c) eqn:Hc.
  - destruct b; [apply IH|]. simpl. apply IH.
  - simpl. rewrite Hc. apply IH.
Qed.

Lemma spaced_weaken (x : pystr) :
  spaced_from true x = true -> spaced_from false x = true.
Proof.
  destruct x as [|c r]; simpl; [reflexivity|].
  destruct (isspace c); [|auto]. rewrite andb_false_r. discriminate.
Qed.

Lemma spaced_any (b : bool) (x : pystr) :
  spaced_from b x = true -> spaced_from false x = true.
Proof. destruct b; [apply spaced_weaken | auto]. Qed.

Lemma spaced_suffix (a x : pystr) :
  forall b, spaced_from b (a ++ x) = true -> spaced_from false x = true.
Proof.
  induction a as [|c a IH]; intros b; simpl; [apply spaced_any|].
  destruct (isspace c); [|apply IH].
  intros Hs. apply andb_prop in Hs as [_ Hs]. apply (IH _ Hs).
Qed.

Lemma spaced_prefix (x y : pystr) :
  forall b, spaced_from b (x ++ y) = true -> spaced_from b x = true.
Proof.
  induction x as [|c x IH]; intros b; simpl; [reflexivity|].
  destruct (isspace c); [|apply IH].
  intros Hs. apply andb_prop in Hs as [Hc Hs]. rewrite Hc. apply (IH _ Hs).
Qed.

Lemma lstrip_suffix (x : pystr) :
  exists a, x = a ++ lstrip x /\ blank a = true.
Proof.
  induction x as [|c r (a & Ha & Hb)]; simpl.
  - exists []. auto.
  - destruct (isspace c) eqn:Hc.
    + exists (c :: a). simpl. rewrite Hc, Hb, <- Ha. auto.
    + exists []. auto.
Qed.

Lemma rstrip_prefix (x : pystr) :
  exists c, x = rstrip x ++ c /\ blank c = true.
Proof.
  unfold rstrip. destruct (lstrip_suffix (rev x)) as (a & Ha & Hb).
  exists (rev a). rewrite blank_rev. split; [|exact Hb].
  rewrite <- rev_app_distr, <- Ha, rev_involutive. reflexivity.
Qed.

(** A text lies between two blank margins, and [strip] removes them. *)
Lemma strip_margins (x : pystr) :
  exists a c, x = a ++ strip x ++ c /\ blank a = true /\ blank c = true.
Proof.
  destruct (lstrip_suffix x) as (a & Ha & Hba).
  destruct (rstrip_prefix (lstrip x)) as (c & Hc & Hbc).
  exists a, c. unfold strip. rewrite <- Hc, <- Ha. auto.
Qed.

Lemma strip_strip (x : pystr) : strip (strip x) = strip x.
Proof.
  destruct (strip_margins x) as (a & c & Hx & Ha & Hc).
  rewrite Hx at 2. rewrite (strip_padded a (strip x) c Ha Hc). reflexivity.
Qed.

Lemma spaced_strip (x : pystr) :
  spaced_from false x = true -> spaced_from false (strip x) = true.
Proof.
  intros Hs. destruct (strip_margins x) as (a & c & Hx & _ & _).
  rewrite Hx in Hs. apply spaced_suffix in Hs.
  apply (spaced_prefix _ _ _ Hs).
Qed.

Lemma collapse_spaced (x : pystr) :
  forall b, spaced_from b x = true -> collapse_ws_from b x = x.
Proof.
  induction x as [|c r IH]; intros b; simpl; [reflexivity|].
  destruct (isspace c).
  - intros Hs. apply andb_prop in Hs as [Hs Hr].
    apply andb_prop in Hs as [Hc Hb]. apply N.eqb_eq in Hc. subst c.
    destruct b; [discriminate|]. rewrite (IH _ Hr). reflexivity.
  - intros Hs. rewrite (IH _ Hs). reflexivity.
Qed.

Lemma spaced_In (x : pystr) (c : N) :
  forall b, spaced_from b x = true -> In c x -> isspace c = true -> c = Ch.space.
Proof.
  induction x as [|d r IH]; intros b Hs Hin Hc; [destruct Hin|].
  destruct Hin as [E|Hin].
  - subst d. simpl in Hs. rewrite Hc in Hs.
    apply andb_prop in Hs as [Hs _]. apply andb_prop in Hs as [Hs _].
    apply N.eqb_eq. exact Hs.
  - simpl in Hs. destruct (isspace d).
    + apply andb_prop in Hs as [_ Hs]. apply (IH _ Hs Hin Hc).
    + apply (IH _ Hs Hin Hc).
Qed.

Lemma spaced_adjacent (a : pystr) (c d : N) (r : pystr) :
  forall b, spaced_from b (a ++ c :: d :: r) = true ->
    isspace c = true -> isspace d = false.
Proof.
  induction a as [|e a IH]; intros b Hs Hc.
  - simpl in Hs. rewrite Hc in Hs. apply andb_prop in Hs as [_ Hs].
    destruct (isspace d); [|reflexivity].
    simpl in Hs. rewrite andb_false_r in Hs. discriminate.
  - simpl in Hs. destruct (isspace e).
    + apply andb_prop in Hs as [_ Hs]. apply (IH _ Hs Hc).
    + apply (IH _ Hs Hc).
Qed.

(** X16. The text the whitespace-collapsing strategy decodes is in
    normal form: cleaning it again changes nothing, it has no
    whitespace at either end, the only whitespace character in it is
    the space, and no two of them are adjacent. *)
Theorem deep_cleaning_normal_form (s : pystr) :
  let t := strip (collapse_ws s) in
  strip (collapse_ws t) = t
  /\ strip t = t
  /\ (forall c, In c t -> isspace c = true -> c = Ch.space)
  /\ (forall a c d r, t = a ++ c :: d :: r -> isspace c = true ->
        isspace d = false).
Proof.
  intros t.
  assert (Hs : spaced_from false t = true)
    by (apply spaced_strip, spaced_collapse).
  split; [|split; [|split]].
  - unfold collapse_ws. rewrite (collapse_spaced t false Hs). apply strip_strip.
  - apply strip_strip.
  - intros c. apply (spaced_In t c false Hs).
  - intros a c d r Ht. rewrite Ht in Hs. apply (spaced_adjacent a c d r false Hs).
Qed.

End DeepCleaning.

Lemma deep_cleaning_normal_form_witness :
  let s := py "  a" ++ [Ch.lf; Ch.tab; 12] ++ py " b " in
  strip (collapse_ws s) = py "a b" /\ isspace 98 = false.
Proof.
  split; [reflexivity|].
  apply (proj2 (proj2 (proj2
           (deep_cleaning_normal_form (py "  a" ++ [Ch.lf; Ch.tab; 12] ++ py " b "))))
           [97] Ch.space 98 []);
    reflexivity.
Defined.

(** ** How often the decoder runs *)

Section DecoderCalls.

Context `{Interpreter}.

Lemma decoder_count_app (a b : list call) :
  decoder_count (a ++ b) = (decoder_count a + decoder_count b)%nat.
Proof.
  induction a as [|[p|t] a IH]; simpl; [reflexivity|exact IH|].
  rewrite IH. reflexivity.
Qed.

Lemma decoder_count_decoder_calls (s : pystr) :
  (decoder_count (decoder_calls s) <= 1)%nat.
Proof. unfold decoder_calls. destruct (_ || _); simpl; lia. Qed.

(** The calls of the inlined pipeline on a text that is not blank, by
    the outcomes of the decode attempts: an attempt that raises is the
    last call when it is not guarded, and the last call of its block
    when it is. *)
Lemma json_str_parser_all_optimized_calls (s : pystr) :
  blank s = false ->
  let cleaned := remove_nl_tab_cr s in
  let deep := strip (collapse_ws s) in
  let unguarded (x : pystr) (k : list call) :=
    decoder_calls x
    ++ match decode_outcome x with
       | Ok v => if is_not_None v then [] else k
       | Raise _ => []
       end in
  let guarded (x : pystr) (k : list call) :=
    decoder_calls x ++ (if is_not_None (decode_attempt x) then [] else k) in
  calls (json_str_parser_all_optimized (PStr s))
  = unguarded s (
      (if bool_decide (cleaned = s) then (fun k => k) else unguarded cleaned) (
      guarded (repair_json s) (
      guarded (repair_json cleaned) (
      if bool_decide (deep = s) then []
      else unguarded deep (decoder_calls (repair_json deep)))))).
Proof.
  intros Hb cleaned deep unguarded guarded. subst unguarded guarded.
  assert (Hc : blank (remove_nl_tab_cr s) = false)
    by (rewrite remove_nl_tab_cr_not_blank; exact Hb).
  assert (Hd : blank (strip (collapse_ws s)) = false)
    by (rewrite blank_strip; unfold collapse_ws;
        rewrite collapse_ws_not_blank; exact Hb).
  unfold json_str_parser_all_optimized.
  rewrite (not_blank_truthy s Hb). cbn [negb].
  rewrite !json_str_parser_fast_spec.
  rewrite !repair_json_fast_not_blank by assumption.
  rewrite !json_str_parser_guarded.
  rewrite !json_str_parser_spec.
  fold cleaned. fold deep. unfold pystr_eqb.
  unfold return_unless_None, bind, try_except, ret, calls, Exception.
  repeat case_bool_decide; cbn [negb fst is_not_None app];
    repeat (match goal with
            | |- context [decode_outcome ?x] =>
                destruct (decode_outcome x) as [?v|?e]
            | |- context [is_not_None ?v] =>
                destruct (is_not_None v) eqn:?
            end; cbn [negb fst is_not_None app]);
    rewrite ?app_nil_r, <- ?app_assoc; reflexivity.
Qed.

(** X17. The inlined pipeline never calls the decoder more often than
    the class does on the same input, and it calls it six times at
    most. *)
Theorem optimized_decodes_no_more_often
    (enable_logging : bool) (json_str : pyobj) :
  (decoder_count (calls (json_str_parser_all_optimized json_str))
   <= decoder_count (calls (parse (JSONParserOptimized_init enable_logging)
                              json_str)))%nat
  /\ (decoder_count (calls (json_str_parser_all_optimized json_str)) <= 6)%nat.
Proof.
  destruct json_str as [| | | | |s| |]; try (simpl; lia).
  destruct (blank s) eqn:Hb.
  { rewrite (json_str_parser_all_optimized_blank s Hb). simpl. lia. }
  rewrite (json_str_parser_all_optimized_calls s Hb). cbv zeta.
  rewrite (parse_value _ s Hb). unfold calls; cbn [fst].
  cbn [JSONParserOptimized_init _strategies builtin_strategies loop_calls].
  unfold attempt, applied; cbn [processor].
  set (cleaned := remove_nl_tab_cr s).
  set (deep := strip (collapse_ws s)).
  rewrite (decode_attempt_outcome s), (decode_attempt_outcome cleaned),
    (decode_attempt_outcome deep).
  pose proof (decoder_count_decoder_calls s).
  pose proof (decoder_count_decoder_calls cleaned).
  pose proof (decoder_count_decoder_calls (repair_json s)).
  pose proof (decoder_count_decoder_calls (repair_json cleaned)).
  pose proof (decoder_count_decoder_calls deep).
  pose proof (decoder_count_decoder_calls (repair_json deep)).
  repeat case_bool_decide;
    repeat match goal with
           | E : _ = s |- _ => rewrite E in *; clear E
           end;
    repeat (match goal with
            | |- context [match decode_outcome ?x with _ => _ end] =>
                destruct (decode_outcome x) as [?v|?e]
            | |- context [if is_not_None ?v then _ else _] =>
                destruct (is_not_None v) eqn:?
            end; cbn [is_not_None]);
    try congruence;
    cbn [decoder_count]; rewrite ?decoder_count_app; cbn [decoder_count];
    rewrite ?decoder_count_app; cbn [decoder_count];
    rewrite ?decoder_count_app; cbn [decoder_count];
    rewrite ?decoder_count_app; cbn [decoder_count];
    rewrite ?decoder_count_app; cbn [decoder_count];
    rewrite ?decoder_count_app; cbn [decoder_count];
    lia.
Qed.

End DecoderCalls.

(** ** The cache: a returned mapping is a copy at the top *)

Section TopLevelCopy.

Context `{Interpreter}.

Lemma val_below_mono (a b : loc) (v : val) :
  (a <= b)%nat -> val_below a v -> val_below b v.
Proof. destruct v; simpl; auto. lia. Qed.

Lemma obj_below_mono (a b : loc) (o : obj) :
  (a <= b)%nat -> obj_below a o -> obj_below b o.
Proof.
  intros Hab. destruct o; simpl; apply List.Forall_impl; intros x;
    apply val_below_mono; exact Hab.
Qed.

Lemma backward_snoc (h : list obj) (o : obj) :
  backward h -> obj_below (length h) o -> backward (h ++ [o]).
Proof.
  intros Hh Ho a o' Ha.
  destruct (decide (a < length h)%nat) as [Hlt|Hge].
  - rewrite lookup_app_l in Ha by exact Hlt. apply (Hh a o' Ha).
  - rewrite lookup_app_r in Ha by lia.
    destruct (a - length h)%nat as [|n] eqn:E; simpl in Ha; [|discriminate].
    injection Ha as <-. replace a with (length h) by lia. exact Ho.
Qed.

Lemma store_items_backward (items : list pyobj) :
  Forall (fun x => forall h v h', store x h = (v, h') -> backward h ->
            backward h' /\ val_below (length h') v
            /\ (length h <= length h')%nat) items ->
  forall h vs h', store_items items h = (vs, h') -> backward h ->
    backward h' /\ Forall (val_below (length h')) vs
    /\ (length h <= length h')%nat.
Proof.
  induction 1 as [|x items Hx _ IH]; intros h vs h' Hs Hb; simpl in Hs.
  - injection Hs as <- <-. auto.
  - destruct (store x h) as [v h1] eqn:E1.
    destruct (store_items items h1) as [vs' h2] eqn:E2.
    injection Hs as <- <-.
    destruct (Hx _ _ _ E1 Hb) as (Hb1 & Hv & Hl1).
    destruct (IH _ _ _ E2 Hb1) as (Hb2 & Hvs & Hl2).
    split; [exact Hb2|]. split; [|lia].
    constructor; [|exact Hvs]. apply (val_below_mono _ _ _ Hl2 Hv).
Qed.

Lemma store_pairs_backward (items : list (pystr * pyobj)) :
  Forall (fun kv => forall h v h', store (snd kv) h = (v, h') -> backward h ->
            backward h' /\ val_below (length h') v
            /\ (length h <= length h')%nat) items ->
  forall h kvs h', store_pairs items h = (kvs, h') -> backward h ->
    backward h' /\ Forall (fun kv => val_below (length h') (snd kv)) kvs
    /\ (length h <= length h')%nat.
Proof.
  induction 1 as [|[k x] items Hx _ IH]; intros h kvs h' Hs Hb; simpl in Hs.
  - injection Hs as <- <-. auto.
  - destruct (store x h) as [v h1] eqn:E1.
    destruct (store_pairs items h1) as [kvs' h2] eqn:E2.
    injection Hs as <- <-.
    destruct (Hx _ _ _ E1 Hb) as (Hb1 & Hv & Hl1).
    destruct (IH _ _ _ E2 Hb1) as (Hb2 & Hvs & Hl2).
    split; [exact Hb2|]. split; [|lia].
    constructor; [|exact Hvs]. apply (val_below_mono _ _ _ Hl2 Hv).
Qed.

Lemma store_backward (x : pyobj) :
  forall h v h', store x h = (v, h') -> backward h ->
    backward h' /\ val_below (length h') v /\ (length h <= length h')%nat.
Proof.
  induction x using pyobj_nested_ind;
    try (intros h v h' Hs Hb; simpl in Hs; injection Hs as <- <-;
         simpl; auto).
  - intros h v h' Hs Hb. rewrite store_PList in Hs.
    destruct (store_items items h) as [vs h1] eqn:E.
    injection Hs as <- <-.
    destruct (store_items_backward items H0 h vs h1 E Hb) as (Hb1 & Hvs & Hl).
    rewrite length_app. simpl. split; [|split; lia].
    apply backward_snoc; assumption.
  - intros h v h' Hs Hb. rewrite store_PDict in Hs.
    destruct (store_pairs items h) as [kvs h1] eqn:E.
    injection Hs as <- <-.
    destruct (store_pairs_backward items H0 h kvs h1 E Hb) as (Hb1 & Hvs & Hl).
    rewrite length_app. simpl. split; [|split; lia].
    apply backward_snoc; assumption.
Qed.

Lemma copy_backward (v : val) (h : list obj) :
  backward h -> backward (snd (copy v h)).
Proof.
  intros Hb. destruct v; try exact Hb. simpl.
  destruct (h !! l) as [o|] eqn:Ho; [|exact Hb]. simpl.
  apply backward_snoc; [exact Hb|].
  apply (obj_below_mono l); [|apply (Hb l o Ho)].
  apply lookup_lt_Some in Ho. lia.
Qed.

Lemma cached_preserves_backward
    (json_str : pyobj) (use_cache : bool) (st : state) :
  backward (heap st) ->
  backward (heap (snd (json_str_parser_all_cached json_str use_cache st))).
Proof.
  intros Hb. unfold json_str_parser_all_cached.
  assert (Hempty : backward
            (heap (snd (let '(v, h) := store empty_dict (heap st) in
                        (Ok v, with_heap st h))))).
  { pose proof (store_backward empty_dict (heap st)) as Hw.
    destruct (store empty_dict (heap st)) as [v h].
    apply (Hw v h eq_refl Hb). }
  destruct json_str as [| | | | |key| |]; try exact Hempty.
  destruct (if use_cache then _parse_cache st !! key else None) as [c|].
  - pose proof (copy_backward c (heap st) Hb) as Hc.
    destruct (copy c (heap st)). exact Hc.
  - destruct (outcome _) as [result|e]; [|exact Hb].
    pose proof (store_backward result (heap st)) as Hw.
    destruct (store result (heap st)) as [v h].
    destruct (Hw v h eq_refl Hb) as (Hb1 & _).
    destruct (use_cache && _); [|exact Hb1].
    pose proof (copy_backward v h Hb1) as Hc.
    destruct (copy v h) as [[c|e] h']; exact Hc.
Qed.

Lemma run_ops_backward (ops : list cache_op) :
  forall st, backward (heap st) -> backward (heap (run_ops ops st)).
Proof.
  unfold run_ops.
  induction ops as [|op ops IH]; intros st Hb; simpl; [exact Hb|].
  apply IH. destruct op as [json_str use_cache|]; simpl.
  - apply cached_preserves_backward. exact Hb.
  - exact Hb.
Qed.

Lemma mapM_agree {A B} (f g : A -> option B) (l : list A) :
  Forall (fun x => f x = g x) l -> mapM f l = mapM g l.
Proof.
  induction 1 as [|x l Hx _ IH]; simpl; [reflexivity|].
  rewrite Hx, IH. reflexivity.
Qed.

(** What a value reads as depends only on the objects allocated before
    the ones it refers to, and on having fuel for them. *)
Lemma load_frame (h : list obj) (X Y : list obj) :
  backward h ->
  forall b v, val_below b v -> (b <= length h)%nat ->
    forall n m, (b < n)%nat -> (b < m)%nat ->
      load n (h ++ X) v = load m (h ++ Y) v.
Proof.
  intros Hb. induction b as [|b IH]; intros v Hv Hle n m Hn Hm;
    destruct n as [|n]; try lia; destruct m as [|m]; try lia;
    destruct v as [| | | | | |a]; try reflexivity; simpl in Hv; [lia|].
  rewrite !load_ref.
  assert (Ha : (a < length h)%nat) by lia.
  rewrite !lookup_app_l by exact Ha.
  lazymatch goal with
  | |- context [@lookup ?K ?V ?M ?I a h] =>
      destruct (@lookup K V M I a h) as [o|] eqn:Ho; [|reflexivity]
  end.
  pose proof (Hb a o Ho) as Hbelow.
  destruct o as [vs|kvs]; simpl in Hbelow; f_equal; apply mapM_agree;
    (eapply List.Forall_impl; [|exact Hbelow]); simpl; intros x Hx.
  - apply IH; [apply (val_below_mono a); [lia | exact Hx] | lia | lia | lia].
  - f_equal.
    apply IH; [apply (val_below_mono a); [lia | exact Hx] | lia | lia | lia].
Qed.

End TopLevelCopy.

Section TopLevelCopies.

Context `{Interpreter}.

Lemma load_ref_items (n : nat) (h : list obj) (l : loc) (o : obj) :
  h !! l = Some o -> load (S n) h (VRef l) = read_items n h o.
Proof. intros Ho. rewrite load_ref, Ho. destruct o; reflexivity. Qed.

Lemma read_items_frame (h X Y : list obj) (o : obj) (n m : nat) :
  backward h -> obj_below (length h) o ->
  (length h < n)%nat -> (length h < m)%nat ->
  read_items n (h ++ X) o = read_items m (h ++ Y) o.
Proof.
  intros Hb Ho Hn Hm.
  destruct o as [vs|kvs]; simpl in *; f_equal; apply mapM_agree;
    (eapply List.Forall_impl; [|exact Ho]); simpl; intros x Hx.
  - apply (load_frame h X Y Hb (length h)); [exact Hx | lia | exact Hn | exact Hm].
  - f_equal.
    apply (load_frame h X Y Hb (length h)); [exact Hx | lia | exact Hn | exact Hm].
Qed.

Lemma backward_take (h : list obj) (l : nat) : backward h -> backward (take l h).
Proof.
  intros Hb a o Ha. apply lookup_take_Some in Ha as [Ha _]. apply (Hb a o Ha).
Qed.

(** What a hit returns, when the cached object refers only to objects
    of the part [hp] of the heap: the items of the cached object, read
    in [hp]. *)
Lemma hit_reads_items (key : pystr) (st : state) (l : loc) (o : obj)
    (hp X : list obj) :
  _parse_cache st !! key = Some (VRef l) ->
  heap st = hp ++ X ->
  heap st !! l = Some o ->
  backward hp -> obj_below (length hp) o ->
  returned (json_str_parser_all_cached (PStr key) true st)
  = read_items (S (length hp)) (hp ++ []) o.
Proof.
  intros Hc Hh Ho Hb Hbelow.
  rewrite (cached_hit key st (VRef l) Hc). unfold copy. rewrite Ho.
  cbn [returned]. unfold read, with_heap. cbn [heap].
  rewrite (load_ref_items _ _ _ o) by (apply list_lookup_middle; reflexivity).
  rewrite Hh, <- app_assoc.
  apply read_items_frame; [exact Hb | exact Hbelow | | lia].
  rewrite !length_app. simpl. lia.
Qed.

(** A top-level change of the object of [handle] leaves the heap as
    long as it was and touches the object of [handle] only. *)
Lemma set_item_heap (handle : val) (k : pystr) (item : val) (st : state) :
  _parse_cache (set_item handle k item st) = _parse_cache st
  /\ length (heap (set_item handle k item st)) = length (heap st)
  /\ forall l, handle <> VRef l ->
       heap (set_item handle k item st) !! l = heap st !! l.
Proof.
  unfold set_item, dict_setitem, with_heap. cbn [_parse_cache heap].
  split; [reflexivity|].
  destruct handle as [| | | | | |a]; cbn [snd]; try (split; reflexivity).
  destruct (heap st !! a) as [[vs|kvs]|]; cbn [snd]; try (split; reflexivity).
  split; [apply length_insert|].
  intros l Hne. apply list_lookup_insert_ne. congruence.
Qed.

Lemma append_item_heap (handle item : val) (st : state) :
  _parse_cache (append_item handle item st) = _parse_cache st
  /\ length (heap (append_item handle item st)) = length (heap st)
  /\ forall l, handle <> VRef l ->
       heap (append_item handle item st) !! l = heap st !! l.
Proof.
  unfold append_item, list_append, with_heap. cbn [_parse_cache heap].
  split; [reflexivity|].
  destruct handle as [| | | | | |a]; cbn [snd]; try (split; reflexivity).
  destruct (heap st !! a) as [[vs|kvs]|]; cbn [snd]; try (split; reflexivity).
  split; [apply length_insert|].
  intros l Hne. apply list_lookup_insert_ne. congruence.
Qed.

(** A state that agrees with [st] on the cache and on the heap below
    [n] has a heap that starts as the heap of [st] does. *)
Lemma heap_prefix (h h' : list obj) (n : nat) :
  (n <= length h)%nat -> length h' = length h ->
  (forall l, (l < n)%nat -> h' !! l = h !! l) ->
  exists X, h' = take n h ++ X.
Proof.
  intros Hn Hlen Hsame. exists (drop n h').
  rewrite <- (take_drop n h') at 1. f_equal.
  apply list_eq. intros i.
  destruct (decide (i < n)%nat) as [Hi|Hi].
  - rewrite !lookup_take_lt by exact Hi. apply Hsame, Hi.
  - rewrite !lookup_take_ge by lia. reflexivity.
Qed.

(** After a change of the object of [handle] only, a hit on an object
    that is not the one of [handle], and refers to objects before
    [handle] only, returns what it returned before. *)
Lemma hit_after_change (key : pystr) (st st' : state) (l n : loc) (o : obj) :
  backward (heap st) ->
  _parse_cache st !! key = Some (VRef l) ->
  heap st !! l = Some o ->
  obj_below n o -> (n <= length (heap st))%nat -> l <> n ->
  _parse_cache st' = _parse_cache st ->
  length (heap st') = length (heap st) ->
  (forall a, VRef n <> VRef a -> heap st' !! a = heap st !! a) ->
  returned (json_str_parser_all_cached (PStr key) true st')
  = returned (json_str_parser_all_cached (PStr key) true st).
Proof.
  intros Hb Hc Ho Hbelow Hn Hne Hc' Hlen Hsame.
  assert (Hbt : backward (take n (heap st))) by (apply backward_take, Hb).
  assert (Hlt : length (take n (heap st)) = n) by (rewrite length_take; lia).
  destruct (heap_prefix (heap st) (heap st') n Hn Hlen) as [X HX].
  { intros a Ha. apply Hsame. intros [= ->]. lia. }
  rewrite (hit_reads_items key st' l o (take n (heap st)) X);
    [| rewrite Hc'; exact Hc | exact HX
     | rewrite Hsame by congruence; exact Ho | exact Hbt
     | rewrite Hlt; exact Hbelow].
  rewrite (hit_reads_items key st l o (take n (heap st)) (drop n (heap st)));
    [reflexivity | exact Hc | symmetry; apply take_drop | exact Ho | exact Hbt
     | rewrite Hlt; exact Hbelow].
Qed.

Lemma run_ops_reachable (ops : list cache_op) :
  cache_live (run_ops ops initial_state)
  /\ backward (heap (run_ops ops initial_state)).
Proof.
  split.
  - apply run_ops_live. intros k c Hk. simpl in Hk.
    rewrite lookup_empty in Hk. discriminate.
  - apply run_ops_backward. intros a o Ha. simpl in Ha.
    rewrite lookup_nil in Ha. discriminate.
Qed.

(** X18. After any sequence of cached calls and clearings, what a call
    with a cached key returns is a copy at the top: whatever the caller
    assigns to a key of it, or appends to it, the next call with the
    same key returns the value this call returned. *)
Theorem returned_value_is_a_copy_at_the_top
    (ops : list cache_op) (key : pystr) (c : val) (k : pystr) (item : val)
    (Hc : _parse_cache (run_ops ops initial_state) !! key = Some c) :
  let st := run_ops ops initial_state in
  let hit := json_str_parser_all_cached (PStr key) true st in
  exists handle,
    fst hit = Ok handle
    /\ returned (json_str_parser_all_cached (PStr key) true
                   (set_item handle k item (snd hit)))
       = returned hit
    /\ returned (json_str_parser_all_cached (PStr key) true
                   (append_item handle item (snd hit)))
       = returned hit.
Proof.
  intros st hit.
  destruct (run_ops_reachable ops) as [Hl Hb]. fold st in Hl, Hb.
  destruct (Hl key c Hc) as (l & o & -> & Ho).
  pose proof (lookup_lt_Some _ _ _ Ho) as Hlt.
  pose proof (Hb l o Ho) as Hbelow.
  assert (Hhit : hit = (Ok (VRef (length (heap st))),
                        with_heap st (heap st ++ [o]))).
  { subst hit. rewrite (cached_hit key st (VRef l) Hc). unfold copy.
    rewrite Ho. reflexivity. }
  clearbody hit. subst hit. cbn [fst snd].
  exists (VRef (length (heap st))). split; [reflexivity|].
  set (st1 := with_heap st (heap st ++ [o])).
  assert (Hb1 : backward (heap st1)).
  { apply backward_snoc; [exact Hb|].
    apply (obj_below_mono l); [lia | exact Hbelow]. }
  assert (Ho1 : heap st1 !! l = Some o)
    by (apply lookup_app_l_Some; exact Ho).
  assert (Hret : returned (json_str_parser_all_cached (PStr key) true st1)
                 = returned (Ok (VRef (length (heap st))) : exc val, st1)).
  { assert (Hbelow' : obj_below (length (heap st)) o)
      by (apply (obj_below_mono l); [lia | exact Hbelow]).
    rewrite (hit_reads_items key st1 l o (heap st) [o] Hc eq_refl Ho1 Hb Hbelow').
    cbn [returned]. unfold read.
    rewrite (load_ref_items _ _ _ o) by (apply list_lookup_middle; reflexivity).
    symmetry. apply read_items_frame;
      [exact Hb | apply (obj_below_mono l); [lia | exact Hbelow] | | lia].
    simpl. rewrite length_app. simpl. lia. }
  rewrite <- Hret.
  split.
  - destruct (set_item_heap (VRef (length (heap st))) k item st1)
      as (Hc' & Hlen & Hsame).
    apply (hit_after_change key st1 _ l (length (heap st)) o);
      try assumption; [apply (obj_below_mono l); [lia | exact Hbelow] | | lia].
    simpl. rewrite length_app. lia.
  - destruct (append_item_heap (VRef (length (heap st))) item st1)
      as (Hc' & Hlen & Hsame).
    apply (hit_after_change key st1 _ l (length (heap st)) o);
      try assumption; [apply (obj_below_mono l); [lia | exact Hbelow] | | lia].
    simpl. rewrite length_app. lia.
Qed.

(** X19. The value a call returns when it caches it is not the cached
    object either: after the caller assigns to a key of it, or appends
    to it, the next call with the same key still returns the value the
    pipeline computed. *)
Theorem live_result_is_not_the_cached_copy
    (ops : list cache_op) (key : pystr) (result : pyobj) (k : pystr) (item : val)
    (Hres : outcome (json_str_parser_all_optimized (PStr key)) = Ok result)
    (Hk : is_container result = true)
    (Hmiss : _parse_cache (run_ops ops initial_state) !! key = None)
    (Hroom : (size (_parse_cache (run_ops ops initial_state))
              < _cache_size_limit)%nat) :
  let st := run_ops ops initial_state in
  let first := json_str_parser_all_cached (PStr key) true st in
  exists handle,
    fst first = Ok handle
    /\ returned first = Some result
    /\ returned (json_str_parser_all_cached (PStr key) true
                   (set_item handle k item (snd first)))
       = Some result
    /\ returned (json_str_parser_all_cached (PStr key) true
                   (append_item handle item (snd first)))
       = Some result.
Proof.
  intros st first.
  destruct (run_ops_reachable ops) as [Hl Hb]. fold st in Hl, Hb, Hmiss, Hroom.
  pose proof (store_well result (heap st)) as Hw.
  pose proof (store_backward result (heap st)) as Hsb.
  destruct (store result (heap st)) as [v h1] eqn:Es.
  destruct (Hw v h1 eq_refl) as (ext & Eh1 & Hd & Hload).
  destruct (Hsb v h1 eq_refl Hb) as (Hb1 & Hv & _).
  destruct (store_container result _ _ _ Hk Es) as (l & o & -> & Ho).
  simpl in Hv.
  assert (Hf : first = (Ok (VRef l),
                        {| heap := h1 ++ [o];
                           _parse_cache :=
                             <[key := VRef (length h1)]> (_parse_cache st) |}))
    by (apply (cached_miss_stores key st result l h1 o); assumption).
  clearbody first. subst first. cbn [fst snd].
  set (st1 := {| heap := h1 ++ [o]; _parse_cache := _ |}).
  exists (VRef l). split; [reflexivity|].
  pose proof (Hb1 l o Ho) as Hbelow.
  assert (Hc1 : _parse_cache st1 !! key = Some (VRef (length h1)))
    by (simpl; apply lookup_insert_eq).
  assert (Ho1 : heap st1 !! length h1 = Some o)
    by (simpl; apply list_lookup_middle; reflexivity).
  assert (Hbst1 : backward (heap st1)).
  { simpl. apply backward_snoc; [exact Hb1|].
    apply (obj_below_mono l); [lia | exact Hbelow]. }
  assert (Hfirst : returned (Ok (VRef l) : exc val, st1) = Some result).
  { cbn [returned]. unfold read. simpl heap. rewrite Eh1. rewrite Eh1 in Hload.
    apply Hload. rewrite !length_app. simpl. lia. }
  assert (Hnext : returned (json_str_parser_all_cached (PStr key) true st1)
                  = Some result).
  { rewrite (hit_reads_items key st1 (length h1) o (take l h1)
               (drop l h1 ++ [o]) Hc1);
      [| simpl; rewrite app_assoc, take_drop; reflexivity | exact Ho1
       | apply backward_take, Hb1
       | rewrite length_take; replace (l `min` length h1)%nat with l by lia;
         exact Hbelow].
    rewrite <- Hfirst. cbn [returned]. unfold read. simpl heap.
    rewrite (load_ref_items _ _ _ o) by (apply lookup_app_l_Some; exact Ho).
    rewrite <- (take_drop l h1) at 4. rewrite <- app_assoc.
    apply read_items_frame;
      [apply backward_take, Hb1
      | rewrite length_take; replace (l `min` length h1)%nat with l by lia;
        exact Hbelow
      | rewrite length_take; lia
      | rewrite length_take, length_app; simpl; lia]. }
  split; [exact Hfirst|].
  rewrite <- Hnext. split.
  - destruct (set_item_heap (VRef l) k item st1) as (Hc' & Hlen & Hsame).
    apply (hit_after_change key st1 _ (length h1) l o); try assumption; [|lia].
    simpl. rewrite length_app. lia.
  - destruct (append_item_heap (VRef l) item st1) as (Hc' & Hlen & Hsame).
    apply (hit_after_change key st1 _ (length h1) l o); try assumption; [|lia].
    simpl. rewrite length_app. lia.
Qed.

End TopLevelCopies.

Lemma returned_value_is_a_copy_at_the_top_witness :
  let st := run_ops [Cached (PStr (jtext "{`a`: [1]}")) true] initial_state in
  let hit := json_str_parser_all_cached (PStr (jtext "{`a`: [1]}")) true st in
  exists handle,
    fst hit = Ok handle
    /\ returned (json_str_parser_all_cached (PStr (jtext "{`a`: [1]}")) true
                   (set_item handle (py "a") VNone (snd hit)))
       = returned hit
    /\ returned (json_str_parser_all_cached (PStr (jtext "{`a`: [1]}")) true
                   (append_item handle VNone (snd hit)))
       = returned hit.
Proof.
  apply (returned_value_is_a_copy_at_the_top
           [Cached (PStr (jtext "{`a`: [1]}")) true] (jtext "{`a`: [1]}")
           (VRef 2%nat) (py "a") VNone).
  vm_compute. reflexivity.
Defined.

Lemma live_result_is_not_the_cached_copy_witness :
  let first :=
    json_str_parser_all_cached (PStr (py "[1, 2]")) true
      (run_ops [] initial_state) in
  exists handle,
    fst first = Ok handle
    /\ returned first = Some (PList [PInt 1; PInt 2])
    /\ returned (json_str_parser_all_cached (PStr (py "[1, 2]")) true
                   (set_item handle (py "a") (VInt 3) (snd first)))
       = Some (PList [PInt 1; PInt 2])
    /\ returned (json_str_parser_all_cached (PStr (py "[1, 2]")) true
                   (append_item handle (VInt 3) (snd first)))
       = Some (PList [PInt 1; PInt 2]).
Proof.
  apply (live_result_is_not_the_cached_copy [] (py "[1, 2]")
           (PList [PInt 1; PInt 2]) (py "a") (VInt 3)).
  - vm_compute. reflexivity.
  - reflexivity.
  - vm_compute. reflexivity.
  - vm_compute. lia.
Defined.

(** ** What the repair transform keeps *)

Section RepairContent.

Context `{Interpreter}.

Lemma content_app (x y : pystr) : content (x ++ y) = content x ++ content y.
Proof. apply List.filter_app. Qed.

Lemma content_blank (x : pystr) : blank x = true -> content x = [].
Proof.
  induction x as [|c r IH]; simpl; [reflexivity|].
  intros Hb. apply andb_prop in Hb as [Hc Hr].
  unfold is_punctuation. rewrite Hc. simpl. auto.
Qed.

Lemma content_strip (s : pystr) : content (strip s) = content s.
Proof.
  destruct (strip_margins s) as (a & c & Hs & Ha & Hc).
  rewrite Hs at 2.
  rewrite !content_app, (content_blank a Ha), (content_blank c Hc), app_nil_r.
  reflexivity.
Qed.

(** A match of [\s*<close>] is whitespace and then the closing
    character. *)
Lemma match_ws_then_spec (close : N) (x : pystr) (n : nat) :
  match_ws_then close x = Some n ->
  exists ws, blank ws = true /\ take n x = ws ++ [close].
Proof.
  revert n. induction x as [|c r IH]; intros n; simpl; [discriminate|].
  destruct (N.eqb_spec c close) as [->|Hne].
  - intros [= <-]. exists []. auto.
  - destruct (isspace c) eqn:Hc; [|discriminate].
    destruct (match_ws_then close r) as [k|]; [|discriminate].
    intros [= <-]. destruct (IH k eq_refl) as (ws & Hws & Ht).
    exists (c :: ws). simpl. rewrite Hc, Hws, Ht. auto.
Qed.

Lemma content_sub_trailing_comma (close : N) (x : pystr) :
  is_punctuation close = false ->
  forall skip,
    content (sub_trailing_comma_from close skip x) = content (drop skip x).
Proof.
  intros Hclose.
  induction x as [|c r IH]; intros skip; simpl.
  - destruct skip; reflexivity.
  - destruct skip as [|k]; [|apply IH]. simpl.
    destruct (N.eqb_spec c Ch.comma) as [->|Hc]; [|simpl; rewrite IH; reflexivity].
    destruct (match_ws_then close r) as [n|] eqn:Em.
    + destruct (match_ws_then_spec close r n Em) as (ws & Hws & Ht).
      simpl. rewrite Hclose, IH. simpl.
      rewrite <- (take_drop n r) at 2.
      rewrite content_app, Ht, content_app, (content_blank ws Hws).
      simpl. rewrite Hclose. reflexivity.
    + simpl. rewrite IH. reflexivity.
Qed.

Lemma content_quote_keys (x : pystr) :
  forall run, content (quote_keys_from run x) = content (rev run ++ x).
Proof.
  induction x as [|c r IH]; intros run; simpl.
  - rewrite app_nil_r. reflexivity.
  - destruct (is_word c).
    + rewrite IH. simpl. rewrite <- app_assoc. reflexivity.
    + destruct ((c =? Ch.colon) && truthy run) eqn:E.
      * apply andb_prop in E as [Ec _]. apply N.eqb_eq in Ec. subst c.
        change (Ch.dquote :: rev run ++ Ch.dquote :: Ch.colon :: quote_keys_from [] r)
          with ([Ch.dquote] ++ rev run ++ [Ch.dquote] ++ [Ch.colon]
                ++ quote_keys_from [] r).
        change (rev run ++ Ch.colon :: r) with (rev run ++ [Ch.colon] ++ r).
        rewrite !content_app, IH. reflexivity.
      * change (rev run ++ c :: quote_keys_from [] r)
          with (rev run ++ [c] ++ quote_keys_from [] r).
        change (rev run ++ c :: r) with (rev run ++ [c] ++ r).
        rewrite !content_app, IH. reflexivity.
Qed.

Lemma content_replace_quote (x : pystr) :
  content (replace_char Ch.squote Ch.dquote x) = content x.
Proof.
  unfold replace_char.
  induction x as [|c r IH]; simpl; [reflexivity|].
  destruct (N.eqb_spec c Ch.squote) as [->|Hc]; simpl; rewrite IH; reflexivity.
Qed.

Lemma content_repair_substitutions (s : pystr) :
  content (repair_substitutions s) = content s.
Proof.
  unfold repair_substitutions, quote_keys, sub_trailing_comma.
  rewrite content_replace_quote, content_quote_keys. simpl.
  rewrite content_sub_trailing_comma, drop_0 by reflexivity.
  rewrite content_sub_trailing_comma, drop_0 by reflexivity.
  apply content_strip.
Qed.

Lemma content_close_brackets (r : pystr) :
  exists opening closing,
    (opening = [] \/ opening = [Ch.lbrace])
    /\ (closing = [] \/ closing = [Ch.rbrace])
    /\ close_brackets r = opening ++ r ++ closing.
Proof.
  unfold close_brackets.
  destruct (negb (starts_with_any _ r));
    match goal with |- context [if ?b then _ else _] => destruct b end.
  - exists [Ch.lbrace], [Ch.rbrace]. auto.
  - exists [Ch.lbrace], []. rewrite app_nil_r. auto.
  - exists [], [Ch.rbrace]. auto.
  - exists [], []. rewrite app_nil_r. auto.
Qed.

Lemma content_repair_json (s : pystr) :
  exists opening closing,
    (opening = [] \/ opening = [Ch.lbrace])
    /\ (closing = [] \/ closing = [Ch.rbrace])
    /\ content (repair_json s) = opening ++ content s ++ closing.
Proof.
  unfold repair_json.
  destruct (negb (truthy s)).
  { exists [], []. rewrite app_nil_r. auto. }
  destruct (negb _).
  - destruct (content_close_brackets (repair_substitutions s))
      as (opening & closing & Ho & Hc & ->).
    exists opening, closing. split; [exact Ho|]. split; [exact Hc|].
    rewrite !content_app, content_repair_substitutions.
    destruct Ho as [-> | ->], Hc as [-> | ->]; reflexivity.
  - exists [], []. rewrite app_nil_r, content_repair_substitutions. auto.
Qed.

(** X20. The repair functions remove, add and change nothing but
    punctuation: leaving whitespace, commas and quotes aside, the text
    they return has the characters of the argument in the same order,
    after at most one opening brace put before them and before at most
    one closing brace put after them. *)
Theorem repair_keeps_content (s : pystr) :
  (exists opening closing,
     (opening = [] \/ opening = [Ch.lbrace])
     /\ (closing = [] \/ closing = [Ch.rbrace])
     /\ content (repair_json s) = opening ++ content s ++ closing)
  /\ (exists opening closing,
        (opening = [] \/ opening = [Ch.lbrace])
        /\ (closing = [] \/ closing = [Ch.rbrace])
        /\ content (repair_json_fast s) = opening ++ content s ++ closing).
Proof.
  split; [apply content_repair_json|].
  destruct (blank s) eqn:Hb.
  - exists [], []. rewrite app_nil_r, (content_blank s Hb).
    unfold repair_json_fast. rewrite (repair_substitutions_blank s Hb).
    destruct s; simpl; auto.
  - rewrite (repair_json_fast_not_blank s Hb). apply content_repair_json.
Qed.

End RepairContent.

(** ** Padding and the pipelines *)

Section Padding.

Context `{Interpreter}.

Lemma rstrip_blank (x : pystr) : blank x = true -> rstrip x = [].
Proof.
  intros Hb. unfold rstrip. rewrite lstrip_blank by (rewrite blank_rev; exact Hb).
  reflexivity.
Qed.

Lemma rstrip_cons (c : N) (y : pystr) :
  rstrip (c :: y) = if blank (c :: y) then [] else c :: rstrip y.
Proof.
  destruct (blank (c :: y)) eqn:Hb; [apply rstrip_blank; exact Hb|].
  unfold rstrip. simpl rev. rewrite lstrip_app, blank_rev.
  destruct (blank y) eqn:Hy.
  - simpl in Hb. rewrite Hy, andb_true_r in Hb.
    simpl. rewrite Hb. rewrite lstrip_blank by (rewrite blank_rev; exact Hy).
    reflexivity.
  - rewrite rev_app_distr. reflexivity.
Qed.

Lemma strip_space_cons (c : N) (y : pystr) :
  isspace c = true -> strip (c :: y) = strip y.
Proof. intros Hc. unfold strip. simpl. rewrite Hc. reflexivity. Qed.

Lemma strip_collapse_any (x : pystr) (i j : bool) :
  strip (collapse_ws_from i x) = strip (collapse_ws_from j x).
Proof.
  destruct x as [|c r]; [reflexivity|]. simpl.
  destruct (isspace c); [|reflexivity].
  destruct i, j; rewrite ?strip_space_cons by reflexivity; reflexivity.
Qed.

Lemma strip_collapse_left (a x : pystr) :
  blank a = true ->
  forall i, strip (collapse_ws_from i (a ++ x)) = strip (collapse_ws_from i x).
Proof.
  induction a as [|c a IH]; intros Ha i; [reflexivity|].
  simpl in Ha. apply andb_prop in Ha as [Hc Ha]. simpl. rewrite Hc.
  destruct i; rewrite ?strip_space_cons by reflexivity;
    rewrite (IH Ha); apply strip_collapse_any.
Qed.

Lemma rstrip_collapse_right (x b : pystr) :
  blank b = true ->
  forall i, rstrip (collapse_ws_from i (x ++ b)) = rstrip (collapse_ws_from i x).
Proof.
  intros Hb. induction x as [|c r IH]; intros i.
  - simpl. rewrite !rstrip_blank; [reflexivity | reflexivity |].
    apply collapse_ws_blank. exact Hb.
  - assert (Hbl : forall k, blank (collapse_ws_from k (r ++ b))
                            = blank (collapse_ws_from k r)).
    { intros k. rewrite !collapse_ws_not_blank, blank_app, Hb.
      apply andb_true_r. }
    simpl. destruct (isspace c) eqn:Hc.
    + destruct i; [apply IH|].
      rewrite !rstrip_cons. simpl. rewrite Hbl, IH. reflexivity.
    + rewrite !rstrip_cons. simpl. rewrite Hc, IH. reflexivity.
Qed.

Lemma strip_collapse_right (x b : pystr) :
  blank b = true ->
  forall i, strip (collapse_ws_from i (x ++ b)) = strip (collapse_ws_from i x).
Proof.
  intros Hb. induction x as [|c r IH]; intros i.
  - simpl. rewrite !strip_blank; [reflexivity | reflexivity |].
    apply collapse_ws_blank. exact Hb.
  - simpl. destruct (isspace c) eqn:Hc.
    + destruct i; rewrite ?strip_space_cons by reflexivity; apply IH.
    + unfold strip. simpl. rewrite Hc.
      rewrite !rstrip_cons. simpl. rewrite Hc. simpl.
      rewrite (rstrip_collapse_right r b Hb). reflexivity.
Qed.

Lemma strip_collapse_padded (a s b : pystr) :
  blank a = true -> blank b = true ->
  strip (collapse_ws (a ++ s ++ b)) = strip (collapse_ws s).
Proof.
  intros Ha Hb. unfold collapse_ws.
  rewrite (strip_collapse_left a (s ++ b) Ha). apply strip_collapse_right, Hb.
Qed.

Lemma strip_remove_padded (a s b : pystr) :
  blank a = true -> blank b = true ->
  strip (remove_nl_tab_cr (a ++ s ++ b)) = strip (remove_nl_tab_cr s).
Proof.
  intros Ha Hb. unfold remove_nl_tab_cr. rewrite !List.filter_app.
  apply strip_padded; apply remove_nl_tab_cr_blank; assumption.
Qed.

(** The wrapper looks at the stripped text only. *)
Lemma decode_attempt_strip (x y : pystr) :
  strip x = strip y -> decode_attempt x = decode_attempt y.
Proof.
  intros E. unfold decode_attempt. rewrite <- E.
  destruct (truthy (strip x)) eqn:Hs.
  - destruct x; [discriminate|]. destruct y; [rewrite E in Hs; discriminate|].
    reflexivity.
  - rewrite !orb_true_r. reflexivity.
Qed.

Lemma decode_outcome_strip (x y : pystr) :
  strip x = strip y -> decode_outcome x = decode_outcome y.
Proof.
  intros E. unfold decode_outcome. rewrite <- E.
  destruct (truthy (strip x)) eqn:Hs.
  - destruct x; [discriminate|]. destruct y; [rewrite E in Hs; discriminate|].
    reflexivity.
  - rewrite !orb_true_r. reflexivity.
Qed.

(** So does the repair transform, of a text that is not empty. *)
Lemma repair_json_strip (x y : pystr) :
  truthy x = true -> truthy y = true -> strip x = strip y ->
  repair_json x = repair_json y.
Proof.
  intros Hx Hy E. unfold repair_json, repair_substitutions.
  rewrite Hx, Hy, E. reflexivity.
Qed.

(** X21. Whitespace before and after the input does not change what
    the pipelines return: the default [parse] and the inlined pipeline
    return for a padded text what they return for the text itself. *)
Theorem pipelines_ignore_padding
    (enable_logging : bool) (a s b : pystr)
    (Ha : blank a = true) (Hb : blank b = true) :
  outcome (parse (JSONParserOptimized_init enable_logging) (PStr (a ++ s ++ b)))
  = outcome (parse (JSONParserOptimized_init enable_logging) (PStr s))
  /\ outcome (json_str_parser_all_optimized (PStr (a ++ s ++ b)))
     = outcome (json_str_parser_all_optimized (PStr s)).
Proof.
  destruct (blank s) eqn:Hs.
  { assert (Hp : blank (a ++ s ++ b) = true)
      by (rewrite blank_padded; assumption).
    rewrite !(parse_blank _ _ Hp), !(parse_blank _ _ Hs).
    rewrite (json_str_parser_all_optimized_blank _ Hp).
    rewrite (json_str_parser_all_optimized_blank _ Hs). auto. }
  assert (Hp : blank (a ++ s ++ b) = false)
    by (rewrite blank_padded; assumption).
  assert (Hf : first_success builtin_strategies (a ++ s ++ b)
               = first_success builtin_strategies s).
  { assert (E1 : strip (a ++ s ++ b) = strip s) by (apply strip_padded; assumption).
    assert (E2 : strip (remove_nl_tab_cr (a ++ s ++ b)) = strip (remove_nl_tab_cr s))
      by (apply strip_remove_padded; assumption).
    assert (E5 : strip (collapse_ws (a ++ s ++ b)) = strip (collapse_ws s))
      by (apply strip_collapse_padded; assumption).
    assert (E3 : repair_json (a ++ s ++ b) = repair_json s).
    { apply repair_json_strip; [apply not_blank_truthy.. |]; assumption. }
    assert (E4 : repair_json (remove_nl_tab_cr (a ++ s ++ b))
                 = repair_json (remove_nl_tab_cr s)).
    { apply repair_json_strip; [apply not_blank_truthy.. |];
        rewrite ?remove_nl_tab_cr_not_blank; assumption. }
    unfold first_success, builtin_strategies, attempt, applied; cbn [processor].
    rewrite (decode_attempt_strip _ _ E1), (decode_attempt_strip _ _ E2).
    rewrite E3, E4, E5. reflexivity. }
  split.
  - rewrite !(parse_value _ _ Hp), !(parse_value _ _ Hs).
    unfold outcome; cbn [snd JSONParserOptimized_init _strategies].
    rewrite Hf. reflexivity.
  - clear Hf.
    assert (E1 : strip (a ++ s ++ b) = strip s) by (apply strip_padded; assumption).
    assert (E2 : strip (remove_nl_tab_cr (a ++ s ++ b)) = strip (remove_nl_tab_cr s))
      by (apply strip_remove_padded; assumption).
    assert (E5 : strip (collapse_ws (a ++ s ++ b)) = strip (collapse_ws s))
      by (apply strip_collapse_padded; assumption).
    assert (E3 : repair_json (a ++ s ++ b) = repair_json s).
    { apply repair_json_strip; [apply not_blank_truthy.. |]; assumption. }
    assert (E4 : repair_json (remove_nl_tab_cr (a ++ s ++ b))
                 = repair_json (remove_nl_tab_cr s)).
    { apply repair_json_strip; [apply not_blank_truthy.. |];
        rewrite ?remove_nl_tab_cr_not_blank; assumption. }
    assert (Hd : blank (strip (collapse_ws s)) = false)
      by (rewrite blank_strip; unfold collapse_ws;
          rewrite collapse_ws_not_blank; exact Hs).
    rewrite (json_str_parser_all_optimized_outcome _ (not_blank_truthy _ Hp)).
    rewrite (json_str_parser_all_optimized_outcome _ (not_blank_truthy _ Hs)).
    cbv zeta. rewrite E5.
    rewrite !repair_json_fast_not_blank
      by (rewrite ?remove_nl_tab_cr_not_blank; assumption).
    rewrite E3, E4.
    rewrite (decode_outcome_strip _ _ E1), (decode_outcome_strip _ _ E2).
    set (p := a ++ s ++ b) in *.
    set (deep := strip (collapse_ws s)) in *.
    assert (F2 : remove_nl_tab_cr p = p ->
                 decode_outcome (remove_nl_tab_cr s) = decode_outcome s).
    { intros E. apply decode_outcome_strip. rewrite <- E2, E. exact E1. }
    assert (F2' : remove_nl_tab_cr s = s ->
                  decode_outcome (remove_nl_tab_cr s) = decode_outcome s)
      by (intros ->; reflexivity).
    assert (F5 : deep = p ->
                 decode_outcome deep = decode_outcome s
                 /\ decode_attempt (repair_json deep)
                    = decode_attempt (repair_json s)).
    { intros E. split.
      - apply decode_outcome_strip. rewrite E. exact E1.
      - rewrite E, E3. reflexivity. }
    assert (F5' : deep = s ->
                  decode_outcome deep = decode_outcome s
                  /\ decode_attempt (repair_json deep)
                     = decode_attempt (repair_json s))
      by (intros ->; auto).
    repeat case_bool_decide;
      repeat match goal with
             | F : ?P -> _, E : ?P |- _ => specialize (F E)
             end;
      repeat match goal with
             | F : _ /\ _ |- _ => destruct F as [? ?]
             end;
      repeat match goal with
             | F : decode_outcome _ = decode_outcome s |- _ => rewrite F in *; clear F
             | F : decode_attempt _ = decode_attempt (repair_json s) |- _ =>
                 rewrite F in *; clear F
             end;
      repeat (match goal with
              | |- context [match decode_outcome ?x with _ => _ end] =>
                  destruct (decode_outcome x) as [?v|?e]
              | |- context [if is_not_None ?u then _ else _] =>
                  destruct (is_not_None u) eqn:?
              end; cbn [is_not_None]);
      congruence.
Qed.

End Padding.

Lemma pipelines_ignore_padding_witness :
  outcome (parse (JSONParserOptimized_init false)
             (PStr ([12; Ch.lf] ++ py "{'a': 1,}" ++ [160])))
  = outcome (parse (JSONParserOptimized_init false) (PStr (py "{'a': 1,}")))
  /\ outcome (json_str_parser_all_optimized
                (PStr ([12; Ch.lf] ++ py "{'a': 1,}" ++ [160])))
     = outcome (json_str_parser_all_optimized (PStr (py "{'a': 1,}"))).
Proof.
  apply (pipelines_ignore_padding false [12; Ch.lf] (py "{'a': 1,}") [160]);
    reflexivity.
Defined.
